(** * The markdown test compiler of dance: parser, dependency check,
      operation sequencer and code generator

    The development embeds [parseMarkdownTests], [stringifyOperations] and
    [build] of the test generator.  JavaScript strings are sequences of
    UTF-16 code units, the regular expressions of the generator are run by a
    backtracking matcher that follows the ECMAScript order of alternatives
    (greedy and lazy quantifiers, capture groups, multiline anchors), and
    thrown errors are values of a result type. *)

From stdpp Require Import base numbers list strings pretty gmap.

(** ** Strings *)

(** A JavaScript string is a list of UTF-16 code units. *)
Abbreviation jsstring := (list N) (only parsing).

(** An ASCII literal as a JavaScript string. *)
Definition js (s : string) : jsstring :=
  (λ a, Ascii.N_of_ascii a) <$> String.list_ascii_of_string s.

Global Arguments js : simpl never.

(** The double quote and the backslash, which the literals above cannot
    hold. *)
Definition dq : jsstring := [34%N].
Definition bsl : jsstring := [92%N].

Definition inRange (lo hi c : N) : bool := (lo <=? c)%N && (c <=? hi)%N.

(** ECMAScript LineTerminator: LF, CR, LS, PS. *)
Definition isLineTerminator (c : N) : bool :=
  (c =? 10)%N || (c =? 13)%N || (c =? 8232)%N || (c =? 8233)%N.

(** The class [\s]: WhiteSpace and LineTerminator. *)
Definition isSpace (c : N) : bool :=
  (c =? 9)%N || (c =? 11)%N || (c =? 12)%N || (c =? 32)%N || (c =? 160)%N
  || (c =? 5760)%N || inRange 8192 8202 c || (c =? 8239)%N || (c =? 8287)%N
  || (c =? 12288)%N || (c =? 65279)%N || isLineTerminator c.

(** The class [\w]. *)
Definition isWord (c : N) : bool :=
  inRange 97 122 c || inRange 65 90 c || inRange 48 57 c || (c =? 95)%N.

(** The atom [.] (no dotAll flag), [[\s\S]] and [[\w.:]]. *)
Definition isDot (c : N) : bool := negb (isLineTerminator c).
Definition isAny (c : N) : bool := true.
Definition isCommandChar (c : N) : bool := isWord c || (c =? 46)%N || (c =? 58)%N.

Fixpoint startsWith (p s : jsstring) : bool :=
  match p, s with
  | [], _ => true
  | a :: p', b :: s' => (a =? b)%N && startsWith p' s'
  | _ :: _, [] => false
  end.

Definition endsWith (p s : jsstring) : bool := startsWith (reverse p) (reverse s).

(** [Array.prototype.join]. *)
Fixpoint join (sep : jsstring) (l : list jsstring) : jsstring :=
  match l with
  | [] => []
  | [x] => x
  | x :: l' => x ++ sep ++ join sep l'
  end.

(** ** Regular expressions *)

(** The patterns of the generator quantify character classes only; groups
    are optional at most. *)
Inductive regex :=
| Lit (s : jsstring)
| Rep (greedy : bool) (min : nat) (cls : N → bool)
| Cat (r1 r2 : regex)
| Alt (r1 r2 : regex)
| Opt (r : regex)
| Grp (n : nat) (r : regex)
| Bol
| Eol.

Record mstate := MState {
  prev : option N;          (* the code unit before the position *)
  pos : nat;                (* index in the subject *)
  rest : jsstring;          (* the subject from [pos] on *)
  caps : list (option jsstring)
}.

Fixpoint matchLit (k : mstate → option mstate) (s : jsstring)
    (p : option N) (i : nat) (cs : list (option jsstring)) (l : jsstring)
    : option mstate :=
  match s with
  | [] => k (MState p i l cs)
  | a :: s' =>
      match l with
      | c :: l' => if (a =? c)%N then matchLit k s' (Some c) (S i) cs l' else None
      | [] => None
      end
  end.

Fixpoint matchRep (greedy : bool) (cls : N → bool) (k : mstate → option mstate)
    (min : nat) (p : option N) (i : nat) (cs : list (option jsstring))
    (l : jsstring) {struct l} : option mstate :=
  if greedy
  then
    (* one more code unit first, then the rest of the pattern *)
    match
      match l with
      | c :: l' => if cls c then matchRep greedy cls k (Nat.pred min) (Some c) (S i) cs l'
                   else None
      | [] => None
      end
    with
    | Some r => Some r
    | None => match min with O => k (MState p i l cs) | S _ => None end
    end
  else
    (* the rest of the pattern first, then one more code unit *)
    match match min with O => k (MState p i l cs) | S _ => None end with
    | Some r => Some r
    | None =>
        match l with
        | c :: l' => if cls c then matchRep greedy cls k (Nat.pred min) (Some c) (S i) cs l'
                     else None
        | [] => None
        end
    end.

Definition atLineStart (ml : bool) (st : mstate) : bool :=
  match prev st with
  | None => true
  | Some c => ml && isLineTerminator c
  end.

Definition atLineEnd (ml : bool) (st : mstate) : bool :=
  match rest st with
  | [] => true
  | c :: _ => ml && isLineTerminator c
  end.

(** The matcher in continuation-passing style: [k] is the rest of the
    pattern, and the first alternative that lets [k] succeed wins. *)
Fixpoint rmatch (ml : bool) (r : regex) (k : mstate → option mstate)
    (st : mstate) : option mstate :=
  match r with
  | Lit s => matchLit k s (prev st) (pos st) (caps st) (rest st)
  | Rep g min cls => matchRep g cls k min (prev st) (pos st) (caps st) (rest st)
  | Cat r1 r2 => rmatch ml r1 (rmatch ml r2 k) st
  | Alt r1 r2 =>
      match rmatch ml r1 k st with
      | Some e => Some e
      | None => rmatch ml r2 k st
      end
  | Opt r1 =>
      match rmatch ml r1 k st with
      | Some e => Some e
      | None => k st
      end
  | Grp n r1 =>
      rmatch ml r1
        (λ e, k (MState (prev e) (pos e) (rest e)
                   (<[n := Some (take (pos e - pos st) (rest st))]> (caps e))))
        st
  | Bol => if atLineStart ml st then k st else None
  | Eol => if atLineEnd ml st then k st else None
  end.

(** A RegExp object: pattern, number of groups, and the [m] flag. *)
Record RegExp := mkRegExp {
  pattern : regex;
  groups : nat;
  multiline : bool
}.

(** The match array: [index], then [[0]] and the groups. *)
Record RegExpExecArray := mkMatch {
  index : nat;
  lastIndex : nat;
  group : list (option jsstring)
}.

(** The first position at or after the current one where the pattern
    matches. *)
Fixpoint search (re : RegExp) (p : option N) (i : nat) (l : jsstring)
    : option RegExpExecArray :=
  let st := MState p i l (replicate (S (groups re)) None) in
  match rmatch (multiline re) (pattern re) Some st with
  | Some e =>
      Some (mkMatch i (pos e) (<[0 := Some (take (pos e - i) l)]> (caps e)))
  | None =>
      match l with
      | [] => None
      | c :: l' => search re (Some c) (S i) l'
      end
  end.

(** The code unit before index [i] of the subject. *)
Definition prevAt (s : jsstring) (i : nat) : option N :=
  match i with
  | O => None
  | S j => s !! j
  end.

(** [re.exec(s)] with [re.lastIndex = from]; a pattern without the [g] flag
    is run from index 0. *)
Definition exec (re : RegExp) (s : jsstring) (from : nat) : option RegExpExecArray :=
  if decide (from ≤ length s)
  then search re (prevAt s from) from (drop from s)
  else None.

(** Modelled from the spec: [execAll] of build-utils is not among the
    sources; the parser "scans raw specification text" and "extracts ordered
    blocks", so it is the list of successive matches of a global pattern,
    each search resuming where the previous match ended.  No pattern of the
    generator matches the empty string ([patterns_progress] below), so every
    round moves on and the bound on the number of rounds is never what ends
    the loop ([execAllFrom_fuel]). *)
Fixpoint execAllFrom (fuel : nat) (re : RegExp) (s : jsstring) (from : nat)
    : list RegExpExecArray :=
  match fuel with
  | O => []
  | S fuel' =>
      match exec re s from with
      | None => []
      | Some mt => mt :: execAllFrom fuel' re s (lastIndex mt)
      end
  end.

Definition execAll (re : RegExp) (s : jsstring) : list RegExpExecArray :=
  execAllFrom (S (length s)) re s 0.

(** [match[n]]. *)
Definition grp (mt : RegExpExecArray) (n : nat) : option jsstring :=
  mjoin (group mt !! n).

Infix "⋅⋅" := Cat (at level 60, right associativity).

Definition plus (cls : N → bool) : regex := Rep true 1 cls.
Definition plusLazy (cls : N → bool) : regex := Rep false 1 cls.
Definition star (cls : N → bool) : regex := Rep true 0 cls.
Definition isBlank (c : N) : bool := (c =? 32)%N.

(** [/^# (.+)\n(?:\[.+?\]\(#(.+?)\)\n)?([\s\S]+?)^```\n([\s\S]+?)^```\n/gm] *)
Definition re : RegExp :=
  mkRegExp
    (Bol ⋅⋅ Lit (js "# ") ⋅⋅ Grp 1 (plus isDot) ⋅⋅ Lit [10%N]
     ⋅⋅ Opt (Lit (js "[") ⋅⋅ plusLazy isDot ⋅⋅ Lit (js "](#")
             ⋅⋅ Grp 2 (plusLazy isDot) ⋅⋅ Lit (js ")") ⋅⋅ Lit [10%N])
     ⋅⋅ Grp 3 (plusLazy isAny) ⋅⋅ Bol ⋅⋅ Lit (js "```") ⋅⋅ Lit [10%N]
     ⋅⋅ Grp 4 (plusLazy isAny) ⋅⋅ Bol ⋅⋅ Lit (js "```") ⋅⋅ Lit [10%N])
    4 true.

(** [/^- *([\w.:]+)( +.+)?$|^> *(.+)$/gm] *)
Definition opre : RegExp :=
  mkRegExp
    (Alt (Bol ⋅⋅ Lit (js "-") ⋅⋅ star isBlank ⋅⋅ Grp 1 (plus isCommandChar)
          ⋅⋅ Opt (Grp 2 (plus isBlank ⋅⋅ plus isDot)) ⋅⋅ Eol)
         (Bol ⋅⋅ Lit (js ">") ⋅⋅ star isBlank ⋅⋅ Grp 3 (plus isDot) ⋅⋅ Eol))
    3 true.

(** [/^> *(.+)$/gm] *)
Definition flagre : RegExp :=
  mkRegExp (Bol ⋅⋅ Lit (js ">") ⋅⋅ star isBlank ⋅⋅ Grp 1 (plus isDot) ⋅⋅ Eol) 1 true.

(** [/^# /gm] *)
Definition headerre : RegExp := mkRegExp (Bol ⋅⋅ Lit (js "# ")) 0 true.

(** [/^(\w+)\.(behavior) <- (caret|character)$/] *)
Definition behaviorre : RegExp :=
  mkRegExp
    (Bol ⋅⋅ Grp 1 (plus isWord) ⋅⋅ Lit (js ".") ⋅⋅ Grp 2 (Lit (js "behavior"))
     ⋅⋅ Lit (js " <- ") ⋅⋅ Grp 3 (Alt (Lit (js "caret")) (Lit (js "character")))
     ⋅⋅ Eol)
    3 false.

(** ** Errors *)

Inductive exn :=
| AssertionError (message : jsstring)
| Error (message : jsstring).

Inductive result (A : Type) :=
| Ok (a : A)
| Throw (e : exn).
Arguments Ok {A} a.
Arguments Throw {A} e.

(** A thrown error ends the computation: the sequencing of statements. *)
Global Instance result_bind : MBind result := λ A B f x,
  match x with
  | Ok a => f a
  | Throw e => Throw e
  end.
Global Instance result_ret : MRet result := λ A a, Ok a.

(** [assert(cond, message)]. *)
Definition assert (cond : bool) (message : jsstring) : result unit :=
  if cond then Ok tt else Throw (AssertionError message).

(** ** The parsed entries *)

Record TestOperation := mkOperation {
  command : jsstring;
  args : option jsstring
}.

Record Test := mkTest {
  title : jsstring;
  comesAfter : jsstring;
  operations : list TestOperation;
  flags : list jsstring;
  code : jsstring
}.

Module InitialDocument.
Record t := mk {
  title : jsstring;
  flags : list jsstring;
  code : jsstring
}.
End InitialDocument.
Abbreviation InitialDocument := InitialDocument.t.

Record ParsedTests := mkParsed {
  setups : list InitialDocument;
  tests : list Test
}.

(** ** parseMarkdownTests *)

(** [badTitle.replace(/\s/g, "-")]: every whitespace code unit becomes one
    hyphen. *)
Definition hyphenate (badTitle : jsstring) : jsstring :=
  (λ c, if isSpace c then 45%N else c) <$> badTitle.

(** A captured string is truthy when it is defined and not empty. *)
Definition truthy (s : option jsstring) : bool :=
  match s with
  | Some (_ :: _) => true
  | _ => false
  end.

(** The body of the loop over the matches of [opre]. *)
Definition addOperation (acc : list TestOperation * list jsstring)
    (mt : RegExpExecArray) : list TestOperation * list jsstring :=
  if truthy (grp mt 3)
  then (acc.1, acc.2 ++ [default [] (grp mt 3)])
  else (acc.1 ++ [mkOperation (default [] (grp mt 1)) (grp mt 2)], acc.2).

(** The body of the loop over the matches of [re]: an entry without a
    reference line is pushed on [initial], the others on [tests]. *)
Definition addEntry (acc : list InitialDocument * list Test)
    (mt : RegExpExecArray) : list InitialDocument * list Test :=
  let title := hyphenate (default [] (grp mt 1)) in
  let operationsText := default [] (grp mt 3) in
  let after := default [] (grp mt 4) in
  match grp mt 2 with
  | None =>
      let flags := (λ m, default [] (grp m 1)) <$> execAll flagre operationsText in
      (acc.1 ++ [InitialDocument.mk title flags after], acc.2)
  | Some comesAfter =>
      let '(operations, flags) :=
        foldl addOperation ([], []) (execAll opre operationsText) in
      (acc.1, acc.2 ++ [mkTest title comesAfter operations flags after])
  end.

Definition parseEntries (contents : jsstring) : list InitialDocument * list Test :=
  foldl addEntry ([], []) (execAll re contents).

Definition quoted (s : jsstring) : jsstring := dq ++ s ++ dq.

Definition duplicateMessage (title : jsstring) : jsstring :=
  js "initial document state " ++ quoted title ++ js " is defined multiple times".

Definition unknownMessage (title comesAfter : jsstring) : jsstring :=
  js "test " ++ quoted title ++ js " depends on unknown test " ++ quoted comesAfter.

(** The first dependency loop: [exists] receives the initial titles. *)
Fixpoint checkInitial (known : gset jsstring) (initial : list InitialDocument)
    : result (gset jsstring) :=
  match initial with
  | [] => Ok known
  | d :: initial' =>
      assert (negb (bool_decide (InitialDocument.title d ∈ known)))
             (duplicateMessage (InitialDocument.title d)) ;;
      checkInitial ({[InitialDocument.title d]} ∪ known) initial'
  end.

(** The second dependency loop: every test comes after a known title, and
    its own title is known from then on. *)
Fixpoint checkTests (known : gset jsstring) (tests : list Test)
    : result (gset jsstring) :=
  match tests with
  | [] => Ok known
  | t :: tests' =>
      assert (bool_decide (comesAfter t ∈ known))
             (unknownMessage (title t) (comesAfter t)) ;;
      checkTests ({[title t]} ∪ known) tests'
  end.

Definition headerCount (contents : jsstring) : nat :=
  length (execAll headerre contents).

Definition checkDependencies (initial : list InitialDocument) (tests : list Test)
    : result ParsedTests :=
  known ← checkInitial ∅ initial;
  checkTests known tests ;;
  Ok (mkParsed initial tests).

Definition parseMarkdownTests (contents : jsstring) : result ParsedTests :=
  let '(initial, tests) := parseEntries contents in
  assert (bool_decide (headerCount contents = length tests + length initial))
         (js "not all tests were parsed") ;;
  checkDependencies initial tests.

(** ** JSON.stringify on strings *)

Definition hexDigit (n : N) : N := (if n <? 10 then 48 + n else 87 + n)%N.

(** [\uXXXX], in lower case. *)
Definition unicodeEscape (c : N) : jsstring :=
  bsl ++ js "u"
  ++ [hexDigit (c / 4096 mod 16)%N; hexDigit (c / 256 mod 16)%N;
      hexDigit (c / 16 mod 16)%N; hexDigit (c mod 16)%N].

Definition isHighSurrogate (c : N) : bool := inRange 55296 56319 c.
Definition isLowSurrogate (c : N) : bool := inRange 56320 57343 c.

(** QuoteJSONString without the enclosing quotes: the short escapes, the
    control characters and the lone surrogates are escaped. *)
Fixpoint quoteJSON (s : jsstring) : jsstring :=
  match s with
  | [] => []
  | c :: s' =>
      if (c =? 8)%N then bsl ++ js "b" ++ quoteJSON s'
      else if (c =? 9)%N then bsl ++ js "t" ++ quoteJSON s'
      else if (c =? 10)%N then bsl ++ js "n" ++ quoteJSON s'
      else if (c =? 12)%N then bsl ++ js "f" ++ quoteJSON s'
      else if (c =? 13)%N then bsl ++ js "r" ++ quoteJSON s'
      else if (c =? 34)%N then bsl ++ dq ++ quoteJSON s'
      else if (c =? 92)%N then bsl ++ bsl ++ quoteJSON s'
      else if (c <? 32)%N then unicodeEscape c ++ quoteJSON s'
      else if isHighSurrogate c then
        match s' with
        | d :: s'' =>
            if isLowSurrogate d then c :: d :: quoteJSON s''
            else unicodeEscape c ++ quoteJSON s'
        | [] => unicodeEscape c
        end
      else if isLowSurrogate c then unicodeEscape c ++ quoteJSON s'
      else c :: quoteJSON s'
  end.

Definition JSON_stringify (s : jsstring) : jsstring := dq ++ quoteJSON s ++ dq.

(** [JSON.stringify(x)] inside a template literal, where [x] is a code unit
    of a string or [undefined]. *)
Definition stringifyUnit (x : option N) : jsstring :=
  match x with
  | Some c => JSON_stringify [c]
  | None => js "undefined"
  end.

(** A capture inside a template literal. *)
Definition interpolate (x : option jsstring) : jsstring :=
  default (js "undefined") x.

(** ** stringifyOperations *)

(** The text added for a flag that matches. *)
Definition behaviorStep (mode value : jsstring) : jsstring :=
  js "await executeCommand(" ++ quoted (js "dance.dev.setSelectionBehavior")
  ++ js ", { mode: " ++ quoted mode ++ js ", value: " ++ quoted value
  ++ js " });" ++ [10%N].

Definition unrecognized (flag : jsstring) : exn :=
  Error (js "unrecognized flag " ++ JSON_stringify flag).

(** The loop over [test.flags]. *)
Fixpoint stringifyFlags (text : jsstring) (flags : list jsstring) : result jsstring :=
  match flags with
  | [] => Ok text
  | flag :: flags' =>
      match exec behaviorre flag 0 with
      | Some mt =>
          stringifyFlags
            (text ++ behaviorStep (interpolate (grp mt 1)) (interpolate (grp mt 3)))
            flags'
      | None => Throw (unrecognized flag)
      end
  end.

(** The first element of [promises]: the invocation of the operation the
    [for] loop stands on. *)
Definition argsString (operation : TestOperation) : jsstring :=
  if truthy (args operation) then js ", " ++ default [] (args operation) else [].

(** A command that starts with a dot is prefixed with [dance]. *)
Definition namespaced (command : jsstring) : jsstring :=
  if bool_decide (command !! 0 = Some 46%N) then js "dance" ++ command else command.

Definition invocation (operation : TestOperation) : jsstring :=
  js "executeCommand(" ++ JSON_stringify (namespaced (command operation))
  ++ argsString operation ++ js ")".

Definition isTyped (operation : TestOperation) : bool :=
  startsWith (js "type:") (command operation).

(** The promise pushed for a [type:] operation; [delay] is
    [promises.length * 20]. *)
Definition typedPromise (operation : TestOperation) (delay : nat) : jsstring :=
  js "new Promise((resolve) => setTimeout(() => executeCommand("
  ++ quoted (js "type") ++ js ", { text: "
  ++ stringifyUnit (command operation !! 5)
  ++ js " }).then(resolve), " ++ js (pretty delay) ++ js "))".

(** The arrays [promises] of the successive rounds of the [for] loop.
    [promises] is the array of the round under way and [ops] the operations
    after index [i]: the [while] loop pushes one promise for each [type:]
    operation that follows, and the next round starts at the first operation
    that is not one. *)
Fixpoint rounds (promises : list jsstring) (ops : list TestOperation)
    : list (list jsstring) :=
  match ops with
  | [] => [promises]
  | next :: ops' =>
      if isTyped next
      then rounds (promises ++ [typedPromise next (length promises * 20)]) ops'
      else promises :: rounds [invocation next] ops'
  end.

(** The text a round adds. An array inside a template literal is joined
    with commas. *)
Definition awaitStep (promises : list jsstring) : jsstring :=
  match promises with
  | [p] => js "await " ++ p ++ js ";" ++ [10%N]
  | _ =>
      js "await Promise.all(["
      ++ join (js ",") ((λ x, [10%N] ++ js "  " ++ x ++ js ",") <$> promises)
      ++ js "]);"
  end.

Definition operationRounds (operations : list TestOperation) : list (list jsstring) :=
  match operations with
  | [] => []
  | operation :: ops => rounds [invocation operation] ops
  end.

Definition stringifyOperations (test : Test) : result jsstring :=
  text ← stringifyFlags [] (flags test);
  Ok (foldl (λ text promises, text ++ awaitStep promises) text
        (operationRounds (operations test))).

(** ** build *)

(** [s.padEnd(n)]. *)
Definition padEnd (n : nat) (s : jsstring) : jsstring :=
  s ++ replicate (n - length s) 32%N.

Definition spaces (n : nat) : jsstring := replicate n 32%N.

(** [s.replace(/^/gm, " ".repeat(16))]: sixteen blanks at the start of the
    text and after every line terminator. *)
Fixpoint indentRest (s : jsstring) : jsstring :=
  match s with
  | [] => []
  | c :: s' => c :: (if isLineTerminator c then spaces 16 ++ indentRest s' else indentRest s')
  end.

Definition indentLines (s : jsstring) : jsstring := spaces 16 ++ indentRest s.

(** [filePath.replace(/\.md$/, ".test.ts")] on a name that ends with
    [.md]. *)
Definition testFileName (file : jsstring) : jsstring :=
  if endsWith (js ".md") file
  then take (length file - 3) file ++ js ".test.ts"
  else file.

(** The directory of the commands: names and contents, in the order
    [readdir] lists them. *)
Abbreviation directory := (list (jsstring * jsstring)) (only parsing).

Definition readdir (dir : directory) : list jsstring := fst <$> dir.

Fixpoint readFile (dir : directory) (name : jsstring) : option jsstring :=
  match dir with
  | [] => None
  | (n, data) :: dir' => if decide (n = name) then Some data else readFile dir' name
  end.

Fixpoint writeFile (dir : directory) (name data : jsstring) : directory :=
  match dir with
  | [] => [(name, data)]
  | (n, old) :: dir' =>
      if decide (n = name) then (n, data) :: dir' else (n, old) :: writeFile dir' name data
  end.

Fixpoint lines (l : list jsstring) : jsstring :=
  match l with
  | [] => []
  | x :: l' => x ++ [10%N] ++ lines l'
  end.

Section build.
(** The helpers of build-utils and meta are not among the sources: the
    generator is taken over any of them. *)
Variable stringifyExpectedDocument : jsstring → nat → nat → jsstring.
Variable unindent : nat → jsstring → jsstring.
Variable longestStringLength : (Test → jsstring) → list Test → nat.

(** A property of [documents] for an initial document. *)
Definition seedEntry (d : InitialDocument) : jsstring :=
  quoted (InitialDocument.title d) ++ js ": Promise.resolve("
  ++ stringifyExpectedDocument (InitialDocument.code d) 18 12 ++ js "),".

(** A property of [documents] for a test: a promise whose [resolve] is
    stored in [notifyDependents] under the title. *)
Definition placeholderEntry (t : Test) : jsstring :=
  quoted (title t) ++ js ": new Promise((resolve) => notifyDependents["
  ++ quoted (title t) ++ js "] = resolve),".

(** The source of the test of a transition. *)
Definition testBlock (comesAfterPadding testNamePadding : nat) (test : Test)
    : result jsstring :=
  let paddedComesAfter := padEnd comesAfterPadding (comesAfter test) in
  let paddedTitle := padEnd testNamePadding (title test) in
  operationsText ← stringifyOperations test;
  Ok (unindent 4 (
    [10%N]
    ++ lines [
      js "            test(" ++ dq ++ js "transition " ++ paddedComesAfter ++ js " > "
        ++ paddedTitle ++ dq ++ js ", async function () {";
      js "              const beforeDocument = await documents["
        ++ quoted (comesAfter test) ++ js "];";
      [];
      js "              if (beforeDocument === undefined) {";
      js "                notifyDependents[" ++ quoted (title test) ++ js "](undefined);";
      js "                this.skip();";
      js "              }";
      [];
      js "              const afterDocument = "
        ++ stringifyExpectedDocument (code test) 16 6 ++ js ";";
      [];
      js "              try {";
      js "                // Set-up document to be in expected initial state.";
      js "                await beforeDocument.apply(editor);";
      [];
      js "                // Perform all operations." ++ [10%N]
        ++ indentLines operationsText;
      js "                // Ensure document is as expected.";
      js "                afterDocument.assertEquals(editor);";
      [];
      js "                // Test passed, allow dependent tests to run.";
      js "                notifyDependents[" ++ quoted (title test) ++ js "](afterDocument);";
      js "              } catch (e) {";
      js "                notifyDependents[" ++ quoted (title test) ++ js "](undefined);";
      [];
      js "                throw e;";
      js "              }"]
    ++ js "            });")).

(** [tests.map(...)] over the tests: the first error ends it. *)
Fixpoint testBlocks (comesAfterPadding testNamePadding : nat) (tests : list Test)
    : result (list jsstring) :=
  match tests with
  | [] => Ok []
  | test :: tests' =>
      block ← testBlock comesAfterPadding testNamePadding test;
      blocks ← testBlocks comesAfterPadding testNamePadding tests';
      Ok (block :: blocks)
  end.

(** The text of the suite around the three lists. *)
Definition suiteText (file : jsstring) (seeds placeholders blocks : list jsstring)
    : jsstring :=
  lines [
    js "      import * as vscode from " ++ quoted (js "vscode") ++ js ";";
    [];
    js "      import { ExpectedDocument } from " ++ quoted (js "../utils") ++ js ";";
    [];
    js "      const executeCommand = vscode.commands.executeCommand;";
    [];
    js "      suite(" ++ quoted file ++ js ", function () {";
    js "        // Set up document.";
    js "        let document: vscode.TextDocument,";
    js "            editor: vscode.TextEditor;";
    [];
    js "        this.beforeAll(async () => {";
    js "          document = await vscode.workspace.openTextDocument();";
    js "          editor = await vscode.window.showTextDocument(document);";
    [];
    js "          await executeCommand(" ++ quoted (js "dance.dev.setSelectionBehavior")
      ++ js ", { mode: " ++ quoted (js "normal") ++ js ", value: "
      ++ quoted (js "caret") ++ js " });";
    js "        });";
    [];
    js "        this.afterAll(async () => {";
    js "          await executeCommand("
      ++ quoted (js "workbench.action.closeActiveEditor") ++ js ");";
    js "        });";
    [];
    js "        // Each test sets up using its previous document, and notifies its";
    js "        // dependents that it is done by writing its document to `documents`.";
    js "        // This ensures that tests are executed in the right order, and that we skip";
    js "        // tests whose dependencies failed.";
    js "        const notifyDependents: Record<string, (document: ExpectedDocument | undefined) => void> = {},";
    js "              documents: Record<string, Promise<ExpectedDocument | undefined>> = {";
    js "                " ++ join ([10%N] ++ spaces 16) seeds;
    [];
    js "                " ++ join ([10%N] ++ spaces 16) placeholders;
    js "              };";
    js "        " ++ join [10%N] blocks;
    js "      });"]
  ++ js "    ".

(** What is written for one file, or the error that aborts the build. *)
Definition generate (file contents : jsstring) : result jsstring :=
  parsed ← parseMarkdownTests contents;
  let testNamePadding := longestStringLength title (tests parsed) in
  let comesAfterPadding := longestStringLength comesAfter (tests parsed) in
  blocks ← testBlocks comesAfterPadding testNamePadding (tests parsed);
  Ok (unindent 6
        (suiteText file (seedEntry <$> setups parsed)
           (placeholderEntry <$> tests parsed) blocks)).

(** The loop over the files: the directory after the loop and the error
    that ended it, if any. *)
Fixpoint buildFiles (dir : directory) (fileNames : list jsstring)
    : directory * option exn :=
  match fileNames with
  | [] => (dir, None)
  | file :: fileNames' =>
      match readFile dir file with
      | None => (dir, Some (Error (js "ENOENT")))
      | Some contents =>
          match generate file contents with
          | Throw e => (dir, Some e)
          | Ok text => buildFiles (writeFile dir (testFileName file) text) fileNames'
          end
      end
  end.

Definition build (dir : directory) : directory * option exn :=
  buildFiles dir (filter (λ f, endsWith (js ".md") f = true) (readdir dir)).
End build.

(** ** The generated suite at run time *)

(** *** The string literals of the emitted file *)

(** The titles and the references are pasted as they are between double
    quotes (lines 49, 53, 61, 62, 65, 81 and 83), so the suite reads the value
    of a string literal, not the title: an escape sequence stands for its
    character, and a title that is not the body of one string literal (a bare
    double quote, a backslash at its end, an escape that is not allowed in
    strict code) keeps the file from loading.  The emitted file is a module,
    hence strict code. *)
Definition hexValue (c : N) : option N :=
  if inRange 48 57 c then Some (c - 48)%N
  else if inRange 97 102 c then Some (c - 87)%N
  else if inRange 65 70 c then Some (c - 55)%N
  else None.

(** The code units of a code point. *)
Definition utf16 (cp : N) : jsstring :=
  if (cp <? 65536)%N then [cp]
  else [(55296 + (cp - 65536) / 1024)%N; (56320 + (cp - 65536) mod 1024)%N].

(** Outside an escape, or inside the braces of [\u{...}] with the value
    read so far. *)
Inductive literalState :=
| Plain
| Braced (acc : N) (seen : bool).

(** The value of the characters of a double-quoted string literal. *)
Fixpoint literalFrom (st : literalState) (s : jsstring) {struct s} : option jsstring :=
  match st with
  | Braced acc seen =>
      match s with
      | [] => None
      | c :: s' =>
          if (c =? 125)%N
          then (if seen then app (utf16 acc) <$> literalFrom Plain s' else None)
          else
            match hexValue c with
            | Some h =>
                if (acc * 16 + h <=? 1114111)%N
                then literalFrom (Braced (acc * 16 + h)%N true) s'
                else None
            | None => None
            end
      end
  | Plain =>
      match s with
      | [] => Some []
      | c :: s' =>
          if (c =? 34)%N || (c =? 10)%N || (c =? 13)%N then None
          else if negb (c =? 92)%N then cons c <$> literalFrom Plain s'
          else
            match s' with
            | [] => None
            | e :: s'' =>
                if (e =? 120)%N then                      (* \xHH *)
                  match s'' with
                  | h1 :: h2 :: r =>
                      match hexValue h1, hexValue h2 with
                      | Some a, Some b => cons (a * 16 + b)%N <$> literalFrom Plain r
                      | _, _ => None
                      end
                  | _ => None
                  end
                else if (e =? 117)%N then                 (* \uHHHH, \u{H...} *)
                  match s'' with
                  | h1 :: r =>
                      if (h1 =? 123)%N then literalFrom (Braced 0 false) r
                      else
                        match r with
                        | h2 :: h3 :: h4 :: r' =>
                            match hexValue h1, hexValue h2, hexValue h3, hexValue h4 with
                            | Some a, Some b, Some c', Some d =>
                                cons (((a * 16 + b) * 16 + c') * 16 + d)%N
                                  <$> literalFrom Plain r'
                            | _, _, _, _ => None
                            end
                        | _ => None
                        end
                  | [] => None
                  end
                else if (e =? 48)%N then                  (* \0, not before a digit *)
                  match s'' with
                  | d :: _ =>
                      if inRange 48 57 d then None else cons 0%N <$> literalFrom Plain s''
                  | [] => Some [0%N]
                  end
                else if inRange 49 57 e then None         (* octal, \8 and \9 *)
                else if (e =? 98)%N then cons 8%N <$> literalFrom Plain s''
                else if (e =? 102)%N then cons 12%N <$> literalFrom Plain s''
                else if (e =? 110)%N then cons 10%N <$> literalFrom Plain s''
                else if (e =? 114)%N then cons 13%N <$> literalFrom Plain s''
                else if (e =? 116)%N then cons 9%N <$> literalFrom Plain s''
                else if (e =? 118)%N then cons 11%N <$> literalFrom Plain s''
                else if (e =? 10)%N || (e =? 8232)%N || (e =? 8233)%N
                then literalFrom Plain s''                (* line continuation *)
                else if (e =? 13)%N then
                  match s'' with
                  | l :: r => if (l =? 10)%N then literalFrom Plain r
                              else literalFrom Plain s''
                  | [] => Some []
                  end
                else cons e <$> literalFrom Plain s''
            end
      end
  end.

(** The value of ["<s>"], when it is one string literal. *)
Definition literalValue (s : jsstring) : option jsstring := literalFrom Plain s.

(** The property name ["<s>"] stands for in the tables of a file that
    loads. *)
Definition propertyName (s : jsstring) : jsstring := default [] (literalValue s).

(** The strings pasted between double quotes, and the names of the
    properties of the literal of [documents]. *)
Definition pasted (parsed : ParsedTests) : list jsstring :=
  (InitialDocument.title <$> setups parsed)
  ++ (tests parsed ≫= λ t, [title t; comesAfter t]).

Definition propertyNames (parsed : ParsedTests) : list jsstring :=
  propertyName
    <$> ((InitialDocument.title <$> setups parsed) ++ (title <$> tests parsed)).

(** The emitted file loads when every pasted string is the body of a string
    literal and the literal of [documents] does not name [__proto__] twice (an
    early error).  The test names of line 61 paste the same strings before a
    blank or the closing quote, and are string literals when these are.  The
    arguments of the operations and the texts [stringifyExpectedDocument]
    gives are taken to be JavaScript. *)
Definition loads (parsed : ParsedTests) : bool :=
  forallb (λ s, bool_decide (is_Some (literalValue s))) (pasted parsed)
  && bool_decide
       (length (filter (λ name, name = js "__proto__") (propertyNames parsed)) ≤ 1).

(** *** The tables and the tests *)

(** The suite [build] emits keeps two tables keyed by the property names of
    the titles, [documents] and [notifyDependents]; its tests run one after
    the other in the order of [tests].  What the body of a test does to the
    editor is outside the generator: [attempt i] is the error the body of the
    [i]-th test ends with, if any.  The run is followed as long as every test
    gets an answer from the promise it awaits and finds in the tables the
    names it reads: a test that awaits a promise that is still pending does
    not get past the [await] by itself, and what the test runner does then,
    and the tests after it, are outside the model.  A single property named
    [__proto__] is read and written through the prototype and behaves as a
    property of the table does. *)
Section suite.
Context {ExpectedDocument failure : Type}.

(** The document a code block stands for. *)
Variable expected : jsstring → ExpectedDocument.
Variable attempt : nat → option failure.

(** A promise of [ExpectedDocument | undefined]. *)
Inductive promise :=
| Pending
| Fulfilled (v : option ExpectedDocument).

(** The promises by address, and the two tables: [documents] gives the
    promise of a name, [notifyDependents] the promise its [resolve]
    settles. *)
Record suiteState := mkSuite {
  heap : list promise;
  documents : gmap jsstring nat;
  notifyDependents : gmap jsstring nat
}.

(** ["title": Promise.resolve(...)]. *)
Definition seed (σ : suiteState) (d : InitialDocument) : suiteState :=
  mkSuite (heap σ ++ [Fulfilled (Some (expected (InitialDocument.code d)))])
          (<[propertyName (InitialDocument.title d) := length (heap σ)]> (documents σ))
          (notifyDependents σ).

(** ["title": new Promise((resolve) => notifyDependents["title"] = resolve)]:
    a later property of the same name replaces the earlier one in both
    tables. *)
Definition placeholder (σ : suiteState) (t : Test) : suiteState :=
  mkSuite (heap σ ++ [Pending])
          (<[propertyName (title t) := length (heap σ)]> (documents σ))
          (<[propertyName (title t) := length (heap σ)]> (notifyDependents σ)).

(** The tables once the literal is evaluated: the initial documents, then
    the tests. *)
Definition initialSuite (setups : list InitialDocument) (tests : list Test)
    : suiteState :=
  foldl placeholder (foldl seed (mkSuite [] ∅ ∅) setups) tests.

(** [resolve(v)]: only a pending promise changes. *)
Definition resolve (σ : suiteState) (address : nat) (v : option ExpectedDocument)
    : suiteState :=
  match heap σ !! address with
  | Some Pending =>
      mkSuite (<[address := Fulfilled v]> (heap σ)) (documents σ) (notifyDependents σ)
  | _ => σ
  end.

Inductive outcome :=
| Passed
| Failed (e : failure)
| Skipped
| Stalled      (* the awaited promise is still pending *)
| Crashed.     (* a table does not hold the name that is read *)

(** [notifyDependents[title](v)], then the end [o] of the test. *)
Definition notify (σ : suiteState) (title : jsstring) (v : option ExpectedDocument)
    (o : outcome) : suiteState * outcome :=
  match notifyDependents σ !! propertyName title with
  | Some address => (resolve σ address v, o)
  | None => (σ, Crashed)
  end.

(** The body of the [i]-th test. *)
Definition runTest (σ : suiteState) (i : nat) (test : Test) : suiteState * outcome :=
  match documents σ !! propertyName (comesAfter test) with
  | Some address =>
      match heap σ !! address with
      | Some (Fulfilled None) => notify σ (title test) None Skipped
      | Some (Fulfilled (Some _)) =>
          match attempt i with
          | None => notify σ (title test) (Some (expected (code test))) Passed
          | Some e => notify σ (title test) None (Failed e)
          end
      | Some Pending => (σ, Stalled)
      | None => (σ, Crashed)
      end
  | None => (σ, Crashed)
  end.

(** The tests in order, up to the first one the model does not follow. *)
Fixpoint runTests (σ : suiteState) (i : nat) (tests : list Test) : list outcome :=
  match tests with
  | [] => []
  | test :: tests' =>
      let r := runTest σ i test in
      match r.2 with
      | Stalled => [Stalled]
      | Crashed => [Crashed]
      | o => o :: runTests r.1 (S i) tests'
      end
  end.

(** The outcomes of the tests of the suite, in order; none when the file
    does not load. *)
Definition runSuite (parsed : ParsedTests) : list outcome :=
  if loads parsed
  then runTests (initialSuite (setups parsed) (tests parsed)) 0 (tests parsed)
  else [].
End suite.

Arguments Pending {ExpectedDocument}.
Arguments Passed {failure}.
Arguments Skipped {failure}.
Arguments Stalled {failure}.
Arguments Crashed {failure}.

(** ** repeatInsert (old-insert.ts) *)

Module OldInsert.

(** A text change recorded after a command. *)
Record Change := mkChange {
  rangeLength : nat;
  changeText : jsstring
}.

(** A recorded command: the flags of its descriptor and the changes that
    followed it, if any were recorded. *)
Record CommandState := mkCommand {
  descriptorFlags : Z;
  followingChanges : option (list Change)
}.

(** A call on the edit builder: [builder.insert(editor.selection.active, text)]
    or [builder.replace(editor.selection, text)]. *)
Inductive Edit :=
| InsertAtActive (text : jsstring)
| ReplaceSelection (text : jsstring).

(** ToInt32, and the truth of [flags & mask]. *)
Definition toInt32 (z : Z) : Z := ((z + 2147483648) `mod` 4294967296 - 2147483648)%Z.

Definition hasFlag (flags mask : Z) : bool :=
  negb (Z.land (toInt32 flags) (toInt32 mask) =? 0)%Z.

Section repeatInsert.
(** The values of [CommandFlags] are declared outside the file. *)
Variable SwitchToInsertBefore : Z.
Variable SwitchToNormal : Z.

(** The first loop, from index [i] down to 0. *)
Fixpoint scanDown (recordedCommands : list CommandState) (i : nat) : option nat :=
  match recordedCommands !! i with
  | Some c =>
      if hasFlag (descriptorFlags c) SwitchToInsertBefore then Some i
      else match i with
           | O => None
           | S i' => scanDown recordedCommands i'
           end
  | None =>
      match i with
      | O => None
      | S i' => scanDown recordedCommands i'
      end
  end.

(** The second loop, from index [i] up, over the commands from [i] on. *)
Fixpoint scanUp (i : nat) (rest : list CommandState) : option nat :=
  match rest with
  | [] => None
  | c :: rest' =>
      if hasFlag (descriptorFlags c) SwitchToNormal then Some i
      else scanUp (S i) rest'
  end.

Definition editOf (change : Change) : Edit :=
  if decide (rangeLength change = 0)
  then InsertAtActive (changeText change)
  else ReplaceSelection (changeText change).

(** The builder calls for the command of index [j]. *)
Definition editsAt (recordedCommands : list CommandState) (j : nat) : list Edit :=
  match recordedCommands !! j with
  | Some commandState =>
      match followingChanges commandState with
      | None => []
      | Some changes => editOf <$> changes
      end
  | None => []
  end.

(** One round of the loop over [j], from [start] to [end] included. *)
Definition replayOnce (recordedCommands : list CommandState) (start finish : nat)
    : list Edit :=
  concat (editsAt recordedCommands <$> seq start (S finish - start)).

(** [state.currentCount || 1]. *)
Definition repetitions (currentCount : nat) : nat :=
  match currentCount with
  | O => 1
  | S _ => currentCount
  end.

(** The command: nothing when a loop finds no command; otherwise the
    command given to [CommandDescriptor.execute] and the calls on the edit
    builder, in order.  [recordedCommands] is the array as the loops read it:
    what [CommandDescriptor.execute] does to the editor, and to the array
    before the edit, is outside the file. *)
Definition repeatInsert (currentCount : nat) (recordedCommands : list CommandState)
    : option (CommandState * list Edit) :=
  match length recordedCommands with
  | O => None
  | S last =>
      match scanDown recordedCommands last with
      | None => None
      | Some start =>
          match scanUp (S start) (drop (S start) recordedCommands) with
          | None => None
          | Some finish =>
              match recordedCommands !! start with
              | Some command =>
                  Some (command,
                        concat (replicate (repetitions currentCount)
                                  (replayOnce recordedCommands start finish)))
              | None => None
              end
          end
      end
  end.
End repeatInsert.

(** [start] is the last command that enters insert mode and [finish] the
    first one after it that leaves it. *)
Definition window (SwitchToInsertBefore SwitchToNormal : Z)
    (cmds : list CommandState) (start finish : nat) : Prop :=
  (∃ c, cmds !! start = Some c ∧ hasFlag (descriptorFlags c) SwitchToInsertBefore = true)
  ∧ (∀ j c, start < j → cmds !! j = Some c →
       hasFlag (descriptorFlags c) SwitchToInsertBefore = false)
  ∧ start < finish
  ∧ (∃ c, cmds !! finish = Some c ∧ hasFlag (descriptorFlags c) SwitchToNormal = true)
  ∧ (∀ j c, start < j < finish → cmds !! j = Some c →
       hasFlag (descriptorFlags c) SwitchToNormal = false).

(** The recorded changes of the commands from [start] to [finish], in
    order. *)
Definition changesIn (cmds : list CommandState) (start finish : nat) : list Change :=
  concat ((λ c, default [] (followingChanges c))
            <$> take (S finish - start) (drop start cmds)).

End OldInsert.

(** * Vocabulary of the properties and sample inputs *)

Definition initialTitles (initial : list InitialDocument) : list jsstring :=
  InitialDocument.title <$> initial.

Definition testTitles (tests : list Test) : list jsstring := title <$> tests.

(** The titles known when the test of index [i] is checked. *)
Definition knownAt (initial : list InitialDocument) (tests : list Test) (i : nat)
    : list jsstring :=
  initialTitles initial ++ testTitles (take i tests).

(** Every test comes after an initial document or after a test before
    it. *)
Definition inOrder (initial : list InitialDocument) (tests : list Test) : Prop :=
  ∀ i t, tests !! i = Some t → comesAfter t ∈ knownAt initial tests i.

(** The least number of code units a match of the pattern takes. *)
Fixpoint minLength (r : regex) : nat :=
  match r with
  | Lit s => length s
  | Rep _ min _ => min
  | Cat r1 r2 => minLength r1 + minLength r2
  | Alt r1 r2 => minLength r1 `min` minLength r2
  | Opt _ => 0
  | Grp _ r1 => minLength r1
  | Bol | Eol => 0
  end.

(** [st1] is [st] moved forward over [w]. *)
Definition advance (st : mstate) (w : jsstring) (st1 : mstate) : Prop :=
  rest st = w ++ rest st1 ∧ pos st1 = pos st + length w.

(** The title of the entry a match of [re] stands for. *)
Definition entryTitle (mt : RegExpExecArray) : jsstring :=
  hyphenate (default [] (grp mt 1)).

Definition asInitial (mt : RegExpExecArray) : option InitialDocument :=
  match grp mt 2 with
  | None =>
      Some (InitialDocument.mk (entryTitle mt)
              ((λ m, default [] (grp m 1)) <$> execAll flagre (default [] (grp mt 3)))
              (default [] (grp mt 4)))
  | Some _ => None
  end.

Definition asTest (mt : RegExpExecArray) : option Test :=
  match grp mt 2 with
  | None => None
  | Some comesAfter =>
      let r := foldl addOperation ([], []) (execAll opre (default [] (grp mt 3))) in
      Some (mkTest (entryTitle mt) comesAfter r.1 r.2 (default [] (grp mt 4)))
  end.

(** Lines of a file, each ended by a line feed. *)
Definition unlines (l : list string) : jsstring :=
  concat ((λ x, js x ++ [10%N]) <$> l).

Definition forwardReference : jsstring :=
  unlines ["# A"; ""; "```"; "a"; "```";
           "# B"; "[C](#C)"; "- x"; "```"; "b"; "```";
           "# C"; "[A](#A)"; "- y"; "```"; "c"; "```"].

Definition initialDeclaredLater : jsstring :=
  unlines ["# B"; "[A](#A)"; "- x"; "```"; "b"; "```";
           "# A"; ""; "```"; "a"; "```"].

Definition repeatedTitles : jsstring :=
  unlines ["# A"; ""; "```"; "a"; "```";
           "# B"; "[A](#A)"; "- x"; "```"; "b"; "```";
           "# B"; "[A](#A)"; "- y"; "```"; "c"; "```";
           "# A"; "[B](#B)"; "- z"; "```"; "d"; "```"].

Definition headerText (mt : RegExpExecArray) : jsstring := default [] (grp mt 1).

(** The title as the specification words it, whitespace collapsed to
    hyphens: every maximal run of whitespace gives one hyphen. *)
Fixpoint collapseFrom (inRun : bool) (s : jsstring) : jsstring :=
  match s with
  | [] => []
  | c :: s' =>
      if isSpace c
      then (if inRun then collapseFrom true s' else 45%N :: collapseFrom true s')
      else c :: collapseFrom false s'
  end.

Definition collapsed (s : jsstring) : jsstring := collapseFrom false s.

(** Two header texts of the same length that hold, at every index, the same
    code unit or two whitespace code units. *)
Definition sameButSpaces (h1 h2 : jsstring) : Prop :=
  Forall2 (λ a b, a = b ∨ (isSpace a = true ∧ isSpace b = true)) h1 h2.

Definition tabAndBlank : jsstring :=
  js "# a b" ++ [10%N; 10%N] ++ unlines ["```"; "x"; "```"]
  ++ js "# a" ++ [9%N] ++ js "b" ++ [10%N; 10%N] ++ unlines ["```"; "y"; "```"].

Definition oneAndTwoBlanks : jsstring :=
  unlines ["# a b"; ""; "```"; "x"; "```";
           "# a  b"; ""; "```"; "y"; "```"].

(** A flag of the grammar [<scope>.behavior <- caret|character]: the scope
    is a non-empty word. *)
Definition behaviorFlag (flag scope value : jsstring) : Prop :=
  flag = scope ++ js ".behavior <- " ++ value
  ∧ scope ≠ []
  ∧ Forall (λ c, isWord c = true) scope
  ∧ (value = js "caret" ∨ value = js "character").

Definition recognized (flag : jsstring) : Prop :=
  ∃ scope value, behaviorFlag flag scope value.

(** The code unit before the position once [w] is passed. *)
Definition lastOr (p : option N) (w : jsstring) : option N :=
  match last w with
  | Some c => Some c
  | None => p
  end.

(** The configuration step of the specification for [scope] and [value],
    spelled out: the line
    [await executeCommand("dance.dev.setSelectionBehavior", { mode: "<scope>", value: "<value>" });]
    with its line feed. *)
Definition configurationStep (scope value : jsstring) : jsstring :=
  js "await executeCommand(" ++ (dq ++ js "dance.dev.setSelectionBehavior" ++ dq)
  ++ js ", { mode: " ++ (dq ++ scope ++ dq)
  ++ js ", value: " ++ (dq ++ value ++ dq)
  ++ js " });" ++ [10%N].

(** [step] is the configuration step of [flag]: the one of its scope and
    its value. *)
Definition flagStep (flag step : jsstring) : Prop :=
  ∃ scope value, behaviorFlag flag scope value ∧ step = configurationStep scope value.

(** The text of the steps of the operations. *)
Definition operationSteps (test : Test) : list jsstring :=
  awaitStep <$> operationRounds (operations test).

Definition op (name : string) : TestOperation := mkOperation (js name) None.

Definition caretThenInsert : Test :=
  mkTest (js "B") (js "A") [op ".insert.a"]
         [js "normal.behavior <- caret"; js "insert.behavior <- character"] [].

Definition misspelledFlag : Test :=
  mkTest (js "B") (js "A") [op ".insert.a"]
         [js "normal.behavior <- caret"; js "normal.behavior <- care"] [].

(** The promises the [while] loop pushes for a run of [type:] operations
    when [promises] holds [n] elements. *)
Fixpoint typedMembers (n : nat) (ts : list TestOperation) : list jsstring :=
  match ts with
  | [] => []
  | t :: ts' => typedPromise t (n * 20) :: typedMembers (S n) ts'
  end.

(** The operation that follows is not a [type:] operation, if there is
    one. *)
Definition runEnds (post : list TestOperation) : Prop :=
  match post with
  | [] => True
  | next :: _ => isTyped next = false
  end.

(** An element of the array a joined step awaits. *)
Definition member (x : jsstring) : jsstring := [10%N] ++ js "  " ++ x ++ js ",".

Definition insertThenType : Test :=
  mkTest (js "B") (js "A") [op ".foo"; op "type:a"; op "type:b"; op "bar"] [] [].

(** The invocation of the command as it is written. *)
Definition literalInvocation (o : TestOperation) : jsstring :=
  js "executeCommand(" ++ JSON_stringify (command o) ++ argsString o ++ js ")".

Definition typeFirst : Test :=
  mkTest (js "B") (js "A") [op "type:a"; op ".foo"] [] [].

Definition typeTwice : Test :=
  mkTest (js "B") (js "A") [op "type:a"; op "type:b"] [] [].

Definition helloTransition : jsstring :=
  unlines ["# A"; ""; "```"; "hello|"; "```";
           "# B"; "[A](#A)"; "- insert.a"; "```"; "helloX|"; "```"].

Definition repeatedB : jsstring :=
  unlines ["# A"; ""; "```"; "a"; "```";
           "# B"; "[A](#A)"; "- x"; "```"; "b"; "```";
           "# B"; "[A](#A)"; "- y"; "```"; "c"; "```";
           "# C"; "[B](#B)"; "- z"; "```"; "d"; "```"].

(** The property names of the initial documents and of the tests. *)
Definition initialNames (setups : list InitialDocument) : list jsstring :=
  (λ d, propertyName (InitialDocument.title d)) <$> setups.

Definition testNames (tests : list Test) : list jsstring :=
  (λ t, propertyName (title t)) <$> tests.

(** What the placeholder of a test holds once the test has ended with [o]. *)
Definition settledBy {ExpectedDocument failure : Type}
    (expected : jsstring → ExpectedDocument) (o : @outcome failure) (t : Test)
    : option ExpectedDocument :=
  match o with
  | Passed => Some (expected (code t))
  | _ => None
  end.

(** The end of the [j]-th test when its body runs. *)
Definition bodyOutcome {failure : Type} (attempt : nat → option failure) (j : nat)
    : @outcome failure :=
  match attempt j with
  | None => Passed
  | Some e => Failed e
  end.

(** The test of index [j] comes after the test of index [i], in one step or
    more. *)
Inductive dependsOn (tests : list Test) : nat → nat → Prop :=
| dependsOn_direct i j ti tj :
    tests !! i = Some ti → tests !! j = Some tj → comesAfter tj = title ti →
    dependsOn tests j i
| dependsOn_step i j k tj tk :
    dependsOn tests j i →
    tests !! j = Some tj → tests !! k = Some tk → comesAfter tk = title tj →
    dependsOn tests k i.

(** The state of the suite once the first [k] tests have ended with
    [outs]. *)
Definition runInv {ExpectedDocument failure : Type}
    (expected : jsstring → ExpectedDocument)
    (setups : list InitialDocument) (tests : list Test)
    (k : nat) (outs : list (@outcome failure))
    (σ : @suiteState ExpectedDocument) : Prop :=
  length outs = k
  ∧ documents σ = documents (initialSuite expected setups tests)
  ∧ notifyDependents σ = notifyDependents (initialSuite expected setups tests)
  ∧ length (heap σ) = length setups + length tests
  ∧ (∀ i d, setups !! i = Some d →
       heap σ !! i = Some (Fulfilled (Some (expected (InitialDocument.code d)))))
  ∧ (∀ j t o, tests !! j = Some t → outs !! j = Some o →
       heap σ !! (length setups + j) = Some (Fulfilled (settledBy expected o t)))
  ∧ (∀ j, k ≤ j → j < length tests → heap σ !! (length setups + j) = Some Pending).

(** The end of the [j]-th test, given the ends of the tests before it. *)
Definition verdict {failure : Type} (attempt : nat → option failure)
    (setups : list InitialDocument) (tests : list Test)
    (outs : list (@outcome failure)) (j : nat) (tj : Test)
    (oj : @outcome failure) : Prop :=
  (comesAfter tj ∈ initialTitles setups → oj = bodyOutcome attempt j)
  ∧ (∀ i ti oi, tests !! i = Some ti → title ti = comesAfter tj →
       outs !! i = Some oi →
       oj = match oi with Passed => bodyOutcome attempt j | _ => Skipped end).

(** A line of the text starts at index [i] and begins with [# ]. *)
Definition headerAt (s : jsstring) (i : nat) : bool :=
  match prevAt s i with
  | None => true
  | Some c => isLineTerminator c
  end && startsWith (js "# ") (drop i s).

(** The indices at which the lines that begin with [# ] start. *)
Definition headerLines (s : jsstring) : list nat :=
  filter (λ i, headerAt s i = true) (seq 0 (length s)).

(** The attempt to match the pattern at index [i] of the subject. *)
Definition matchesAt (rx : RegExp) (s : jsstring) (i : nat) : option mstate :=
  rmatch (multiline rx) (pattern rx) Some
    (MState (prevAt s i) i (drop i s) (replicate (S (groups rx)) None)).

Definition unterminatedFence : jsstring :=
  unlines ["# A"; ""; "```"; "a"; "```";
           "# B"; "[A](#A)"; "- x"; "```"; "b"].

(** A recorded history for [repeatInsert], with 2 and 1 as the masks of
    [SwitchToInsertBefore] and [SwitchToNormal]: an insertion that is left at
    once, then one in which "a" is typed and "b" replaces a character before
    insert mode is left, then a command recorded after that. *)
Definition earlierInsertion : list OldInsert.CommandState :=
  [ OldInsert.mkCommand 2 (Some [OldInsert.mkChange 0 (js "x")]);
    OldInsert.mkCommand 1 None ].

Definition lastInsertion : list OldInsert.CommandState :=
  [ OldInsert.mkCommand 2 (Some [OldInsert.mkChange 0 (js "a")]);
    OldInsert.mkCommand 0 None;
    OldInsert.mkCommand 32 (Some [OldInsert.mkChange 1 (js "b")]);
    OldInsert.mkCommand 1 (Some []);
    OldInsert.mkCommand 16 (Some [OldInsert.mkChange 0 (js "c")]) ].

(** The test of index [j] goes back to an initial document through tests
    declared before it. *)
Inductive grounded (setups : list InitialDocument) (tests : list Test) : nat → Prop :=
| grounded_initial j t :
    tests !! j = Some t → comesAfter t ∈ initialTitles setups →
    grounded setups tests j
| grounded_test i j ti tj :
    i < j → tests !! i = Some ti → tests !! j = Some tj →
    comesAfter tj = title ti → grounded setups tests i →
    grounded setups tests j.

Definition spaceFree (s : jsstring) : Prop := Forall (λ c, isSpace c = false) s.

(** An initial document, a transition that comes after an entry that does
    not exist, and the initial document once more. *)
Definition repeatedAfterUnknown : jsstring :=
  unlines ["# A"; ""; "```"; "a"; "```";
           "# B"; "[Z](#Z)"; "- x"; "```"; "b"; "```";
           "# A"; ""; "```"; "c"; "```"].

(** The reference of the transition holds a blank where the title holds a
    hyphen. *)
Definition blankInReference : jsstring :=
  unlines ["# a b"; ""; "```"; "a"; "```";
           "# c"; "[a b](#a b)"; "- x"; "```"; "b"; "```"].

(** Matching [r] against [w] turns the captures [cs] into [cs']. *)
Fixpoint captures (r : regex) (w : jsstring) (cs cs' : list (option jsstring)) : Prop :=
  match r with
  | Lit s => w = s ∧ cs' = cs
  | Rep _ min cls => (min ≤ length w ∧ Forall (λ c, cls c = true) w) ∧ cs' = cs
  | Cat r1 r2 =>
      ∃ w1 w2 cs1, w = w1 ++ w2 ∧ captures r1 w1 cs cs1 ∧ captures r2 w2 cs1 cs'
  | Alt r1 r2 => captures r1 w cs cs' ∨ captures r2 w cs cs'
  | Opt r1 => captures r1 w cs cs' ∨ (w = [] ∧ cs' = cs)
  | Grp n r1 => ∃ cs1, captures r1 w cs cs1 ∧ cs' = <[n := Some w]> cs1
  | Bol | Eol => w = [] ∧ cs' = cs
  end.

(** A text of one line, not empty. *)
Definition oneLine (s : jsstring) : Prop :=
  s ≠ [] ∧ Forall (λ c, isLineTerminator c = false) s.

Definition wellFormedOperation (o : TestOperation) : Prop :=
  command o ≠ []
  ∧ Forall (λ c, isCommandChar c = true) (command o)
  ∧ ∀ a, args o = Some a → oneLine a ∧ a !! 0 = Some 32%N.

Definition wellFormedInitial (d : InitialDocument) : Prop :=
  InitialDocument.title d ≠ [] ∧ spaceFree (InitialDocument.title d)
  ∧ InitialDocument.code d ≠ []
  ∧ Forall oneLine (InitialDocument.flags d).

Definition wellFormedTest (t : Test) : Prop :=
  title t ≠ [] ∧ spaceFree (title t)
  ∧ oneLine (comesAfter t)
  ∧ code t ≠ []
  ∧ Forall wellFormedOperation (operations t)
  ∧ Forall oneLine (flags t).

(** A transition whose operation starts with a dot and takes an
    argument. *)
Definition selectWithArgument : jsstring :=
  unlines ["# A"; ""; "```"; "a"; "```";
           "# B"; "[A](#A)"; "- .select.line { count: 2 }"; "```"; "b"; "```"].

(** A file [build] reads: its name ends with [.md]. *)
Definition isSource (file : jsstring) : Prop := endsWith (js ".md") file = true.

(** In [dir'] the test file of [file] holds the text generated from the
    contents [file] has in [dir]. *)
Definition written (stringifyExpectedDocument : jsstring → nat → nat → jsstring)
    (unindent : nat → jsstring → jsstring)
    (longestStringLength : (Test → jsstring) → list Test → nat)
    (dir dir' : directory) (file : jsstring) : Prop :=
  ∃ contents text,
    readFile dir file = Some contents
    ∧ generate stringifyExpectedDocument unindent longestStringLength file contents
      = Ok text
    ∧ readFile dir' (testFileName file) = Some text.

(** A directory with a file that is accepted, the test file of an earlier
    build and a file of another kind. *)
Definition helloDirectory : directory :=
  [(js "hello.md", helloTransition);
   (js "hello.test.ts", js "// stale");
   (js "README", js "notes")].

(** A directory whose second source is rejected. *)
Definition brokenDirectory : directory :=
  [(js "a.md", helloTransition);
   (js "b.md", unterminatedFence);
   (js "c.md", helloTransition)].

(** An initial document and three transitions with titles of their own:
    B comes after A, C after B and D after A. *)
Definition chainSetups : list InitialDocument :=
  [InitialDocument.mk (js "A") [] (js "a")].

Definition chainTests : list Test :=
  [mkTest (js "B") (js "A") [op "x"] [] (js "b");
   mkTest (js "C") (js "B") [op "y"] [] (js "c");
   mkTest (js "D") (js "A") [op "z"] [] (js "d")].

(** An initial document with a flag outside the grammar, and a transition
    whose second flag is misspelled. *)
Definition misspelledFlagFile : jsstring :=
  unlines ["# A"; "> anything goes"; "```"; "a"; "```";
           "# B"; "[A](#A)"; "> normal.behavior <- caret"; "> normal.behavior <- care";
           "- x"; "```"; "b"; "```"].

(** Every name a test reads is in the tables, and every promise of
    [documents] is in the heap. *)
Definition tabled {ExpectedDocument : Type} (tests : list Test)
    (σ : @suiteState ExpectedDocument) : Prop :=
  (∀ t, t ∈ tests →
     is_Some (documents σ !! propertyName (comesAfter t))
     ∧ is_Some (notifyDependents σ !! propertyName (title t)))
  ∧ ∀ x a, documents σ !! x = Some a → a < length (heap σ).

(** Files whose titles are not plain: the title of the second Transition
    is written with an escape and stands for the name B; a title holds double
    quotes; a Transition takes the title of the InitialState and comes after
    a Transition that comes after that title. *)
Definition escapedTitle : jsstring :=
  unlines ["# A"; ""; "```"; "a"; "```";
           "# B"; "[A](#A)"; "- x"; "```"; "b"; "```"]
  ++ js "# " ++ bsl ++ js "x42" ++ [10%N]
  ++ unlines ["[A](#A)"; "- y"; "```"; "c"; "```";
              "# D"; "[B](#B)"; "- z"; "```"; "d"; "```"].

Definition quotedTitle : jsstring :=
  js "# say " ++ dq ++ js "hi" ++ dq ++ [10%N]
  ++ unlines [""; "```"; "a"; "```"].

Definition titleTakenBack : jsstring :=
  unlines ["# Y"; ""; "```"; "a"; "```";
           "# X"; "[Y](#Y)"; "- x"; "```"; "b"; "```";
           "# Y"; "[X](#X)"; "- y"; "```"; "c"; "```"].

(** * Properties *)

(** ** Sequencing of results *)

Lemma bind_Ok {A B} (x : result A) (f : A → result B) (b : B) :
  x ≫= f = Ok b ↔ ∃ a, x = Ok a ∧ f a = Ok b.
Proof.
  destruct x as [a|e]; simpl; split.
  - eauto.
  - by intros (a' & [= <-] & ?).
  - done.
  - by intros (a' & ? & ?).
Qed.

Lemma assert_Ok cond message : assert cond message = Ok tt ↔ cond = true.
Proof. unfold assert. destruct cond; naive_solver. Qed.

Lemma assert_true message (B : Type) (k : result B) :
  (assert true message ;; k) = k.
Proof. done. Qed.

Lemma assert_false message (B : Type) (k : result B) :
  (assert false message ;; k) = Throw (AssertionError message).
Proof. done. Qed.

(** ** The dependency check *)

Lemma checkInitial_Ok known initial k :
  checkInitial known initial = Ok k ↔
    NoDup (initialTitles initial)
    ∧ (∀ x, x ∈ initialTitles initial → x ∉ known)
    ∧ k = list_to_set (initialTitles initial) ∪ known.
Proof.
  revert known. induction initial as [|d initial IH]; intros known; simpl.
  - split.
    + intros [= <-]. split_and!; [constructor | set_solver | set_solver].
    + intros (_ & _ & ->). f_equal. set_solver.
  - case_bool_decide as Hd; simpl.
    + split; [done|]. intros (_ & Hn & _). exfalso.
      apply (Hn (InitialDocument.title d)); [left | done].
    + rewrite IH. rewrite NoDup_cons. split.
      * intros (Hnd & Hn & ->). split_and!; [set_solver | done | | set_solver].
        intros x [->|Hx]%elem_of_cons; [done|]. specialize (Hn x Hx). set_solver.
      * intros ((Hnotin & Hnd) & Hn & ->). split_and!; [done | | set_solver].
        intros x Hx. specialize (Hn x (list_elem_of_further _ _ _ Hx)). set_solver.
Qed.

(** A title of the known set that comes again is reported. *)
Lemma checkInitial_again known initial x :
  x ∈ known → x ∈ initialTitles initial →
  ∃ y, y ∈ initialTitles initial
       ∧ checkInitial known initial = Throw (AssertionError (duplicateMessage y)).
Proof.
  revert known. induction initial as [|d initial IH]; intros known Hk Hx; simpl.
  - by inversion Hx.
  - case_bool_decide as Hd; simpl.
    + exists (InitialDocument.title d). split; [left | done].
    + apply elem_of_cons in Hx as [->|Hx]; [done|].
      destruct (IH ({[InitialDocument.title d]} ∪ known)) as (y & Hy & Hr);
        [set_solver | done |].
      exists y. split; [by right | done].
Qed.

Lemma checkInitial_duplicate known initial :
  ¬ NoDup (initialTitles initial) →
  ∃ x, x ∈ initialTitles initial
       ∧ checkInitial known initial = Throw (AssertionError (duplicateMessage x)).
Proof.
  revert known. induction initial as [|d initial IH]; intros known Hdup; simpl.
  - destruct Hdup. constructor.
  - case_bool_decide as Hd; simpl.
    + exists (InitialDocument.title d). split; [left | done].
    + destruct (decide (InitialDocument.title d ∈ initialTitles initial)) as [Hin|Hin].
      * destruct (checkInitial_again ({[InitialDocument.title d]} ∪ known) initial
                    (InitialDocument.title d)) as (y & Hy & Hr);
          [set_solver | done |].
        exists y. split; [by right | done].
      * destruct (IH ({[InitialDocument.title d]} ∪ known)) as (x & Hx & Hr).
        { intros Hnd. apply Hdup. by constructor. }
        exists x. split; [by right | done].
Qed.

Lemma checkTests_Ok known tests k :
  checkTests known tests = Ok k ↔
    (∀ i t, tests !! i = Some t →
            comesAfter t ∈ known ∨ comesAfter t ∈ testTitles (take i tests))
    ∧ k = list_to_set (testTitles tests) ∪ known.
Proof.
  revert known. induction tests as [|t tests IH]; intros known; simpl.
  - split.
    + intros [= <-]. split; [done | set_solver].
    + intros (_ & ->). f_equal. set_solver.
  - case_bool_decide as Hd; simpl.
    + rewrite IH. split.
      * intros (Hall & ->). split; [|set_solver].
        intros [|i] t'; simpl; [intros [= <-]; by left|].
        intros Hi. destruct (Hall i t' Hi) as [H|H]; [|right; by right].
        apply elem_of_union in H as [->%elem_of_singleton|H]; [right; left | by left].
      * intros (Hall & ->). split; [|set_solver].
        intros i t' Hi. destruct (Hall (S i) t' Hi) as [H|H]; [left; set_solver|].
        simpl in H. apply elem_of_cons in H as [->|H]; [left; set_solver | by right].
    + split; [done|]. intros (Hall & _). exfalso.
      destruct (Hall 0 t eq_refl) as [H|H]; [done | by inversion H].
Qed.

(** The error names the first test whose dependency is unknown. *)
Lemma checkTests_unknown known pre t post :
  (∀ i t', pre !! i = Some t' →
           comesAfter t' ∈ known ∨ comesAfter t' ∈ testTitles (take i pre)) →
  comesAfter t ∉ known → comesAfter t ∉ testTitles pre →
  checkTests known (pre ++ t :: post)
  = Throw (AssertionError (unknownMessage (title t) (comesAfter t))).
Proof.
  revert known. induction pre as [|t' pre IH]; intros known Hpre Hk Hp; simpl.
  - by rewrite bool_decide_eq_false_2.
  - rewrite bool_decide_eq_true_2; simpl.
    + apply IH.
      * intros i t'' Hi. destruct (Hpre (S i) t'' Hi) as [H|H]; [left; set_solver|].
        simpl in H. apply elem_of_cons in H as [->|H]; [left; set_solver | by right].
      * simpl in Hp. set_solver.
      * simpl in Hp. set_solver.
    + destruct (Hpre 0 t' eq_refl) as [H|H]; [done | by inversion H].
Qed.

(** Either every test of a list comes after a known title, or one does
    not. *)
Lemma classic_unknown (known : gset jsstring) (tests : list Test) :
  (∃ i t, (tests !! i = Some t)
          ∧ (comesAfter t ∉ known) ∧ (comesAfter t ∉ testTitles (take i tests)))
  ∨ (∀ i t, tests !! i = Some t →
            comesAfter t ∈ known ∨ comesAfter t ∈ testTitles (take i tests)).
Proof.
  induction tests as [|t tests IH] using rev_ind; [by right|].
  destruct IH as [(i & t' & Hi & Hk & Hp)|Hall].
  - left. exists i, t'. pose proof (lookup_lt_Some _ _ _ Hi).
    rewrite lookup_app_l, take_app_le by lia. done.
  - destruct (decide (comesAfter t ∈ known)) as [Hk|Hk];
      [|destruct (decide (comesAfter t ∈ testTitles tests)) as [Hp|Hp]].
    3: { left. exists (length tests), t.
         rewrite lookup_app_r, Nat.sub_diag, take_app_length by lia. done. }
    all: right; intros i t' Hi;
      destruct (decide (i < length tests)) as [Hlt|Hge];
      [ rewrite lookup_app_l in Hi by done; rewrite take_app_le by lia; eauto
      | rewrite lookup_app_r in Hi by lia;
        apply list_lookup_singleton_Some in Hi as [Hi <-];
        assert (i = length tests) as -> by lia;
        rewrite take_app_length; eauto ].
Qed.

(** A list of tests with an unknown dependency splits at the first one. *)
Lemma first_unknown (known : gset jsstring) (tests : list Test) :
  (∃ i t, (tests !! i = Some t)
          ∧ (comesAfter t ∉ known) ∧ (comesAfter t ∉ testTitles (take i tests))) →
  ∃ pre t post, (tests = pre ++ t :: post)
    ∧ (∀ i t', pre !! i = Some t' →
               comesAfter t' ∈ known ∨ comesAfter t' ∈ testTitles (take i pre))
    ∧ (comesAfter t ∉ known) ∧ (comesAfter t ∉ testTitles pre).
Proof.
  induction tests as [|t tests IH] using rev_ind; intros (i & t0 & Hi & Hk & Hp).
  - done.
  - destruct (classic_unknown known tests) as [Hex|Hnex].
    + destruct (IH Hex) as (pre & t1 & post & -> & ?).
      exists pre, t1, (post ++ [t]). by rewrite <-app_assoc.
    + rename Hnex into Hall.
      destruct (decide (i < length tests)) as [Hlt|Hge].
      * rewrite lookup_app_l in Hi by done.
        rewrite take_app_le in Hp by lia.
        destruct (Hall i t0 Hi); done.
      * rewrite lookup_app_r in Hi by lia.
        apply list_lookup_singleton_Some in Hi as [Hi <-].
        assert (i = length tests) as -> by lia.
        rewrite take_app_length in Hp.
        exists tests, t, []. done.
Qed.

(** ** The matcher consumes what the pattern describes *)

Lemma advance_refl st : advance st [] st.
Proof. split; [done | simpl; lia]. Qed.

Lemma advance_trans st w1 st1 w2 st2 :
  advance st w1 st1 → advance st1 w2 st2 → advance st (w1 ++ w2) st2.
Proof.
  intros [Hr1 Hp1] [Hr2 Hp2]. split.
  - by rewrite Hr1, Hr2, app_assoc.
  - rewrite Hp2, Hp1, length_app. lia.
Qed.

Lemma matchLit_inv k s p i cs l e :
  matchLit k s p i cs l = Some e →
  ∃ p' l', l = s ++ l' ∧ k (MState p' (i + length s) l' cs) = Some e.
Proof.
  revert p i l. induction s as [|a s IH]; intros p i l; simpl.
  - intros Hk. exists p, l. by rewrite Nat.add_0_r.
  - destruct l as [|c l]; [done|]. destruct (N.eqb_spec a c) as [->|]; [|done].
    intros (p' & l' & -> & Hk)%IH. exists p', l'.
    split; [done|]. by replace (i + S (length s)) with (S i + length s) by lia.
Qed.

Lemma matchRep_inv g cls k min p i cs l e :
  matchRep g cls k min p i cs l = Some e →
  ∃ w p' l', l = w ++ l' ∧ min ≤ length w ∧ Forall (λ c, cls c = true) w
             ∧ k (MState p' (i + length w) l' cs) = Some e.
Proof.
  revert min p i. induction l as [|c l IH]; intros min p i.
  - simpl. destruct g, min; try done.
    all: destruct (k _) eqn:Hk; [|done]; intros [= <-].
    all: exists [], p, []; simpl; rewrite Nat.add_0_r; done.
  - assert (Hmore : (if cls c
                     then matchRep g cls k (Nat.pred min) (Some c) (S i) cs l
                     else None) = Some e →
              ∃ w p' l', c :: l = w ++ l' ∧ min ≤ length w
                         ∧ Forall (λ c, cls c = true) w
                         ∧ k (MState p' (i + length w) l' cs) = Some e).
    { destruct (cls c) eqn:Hc; [|done].
      intros (w & p' & l' & -> & Hmin & Hall & Hk)%IH.
      exists (c :: w), p', l'. simpl. split_and!; [done | lia | by constructor |].
      by replace (i + S (length w)) with (S i + length w) by lia. }
    assert (Hstop : match min with
                    | O => k (MState p i (c :: l) cs)
                    | S _ => None
                    end = Some e →
              ∃ w p' l', c :: l = w ++ l' ∧ min ≤ length w
                         ∧ Forall (λ c, cls c = true) w
                         ∧ k (MState p' (i + length w) l' cs) = Some e).
    { destruct min; [|done]. intros Hk. exists [], p, (c :: l).
      simpl. rewrite Nat.add_0_r. done. }
    simpl. destruct g.
    + destruct (if cls c then _ else _) eqn:Hm; [intros [= ->]; by apply Hmore | apply Hstop].
    + destruct (match min with O => _ | S _ => _ end) eqn:Hs;
        [intros [= ->]; by apply Hstop | apply Hmore].
Qed.

Lemma rmatch_inv ml r k st e :
  rmatch ml r k st = Some e →
  ∃ st1 w, k st1 = Some e ∧ advance st w st1 ∧ minLength r ≤ length w.
Proof.
  revert k st. induction r as [s|g min cls|r1 IH1 r2 IH2|r1 IH1 r2 IH2|r IH|n r IH| |];
    intros k st; simpl.
  - intros (p' & l' & Hl & Hk)%matchLit_inv. eexists _, s. split; [exact Hk|].
    split; [by split | done].
  - intros (w & p' & l' & Hl & Hmin & _ & Hk)%matchRep_inv.
    eexists _, w. split; [exact Hk|]. split; [by split | done].
  - intros (st1 & w1 & (st2 & w2 & Hk & Ha2 & Hm2)%IH2 & Ha1 & Hm1)%IH1.
    exists st2, (w1 ++ w2). split; [done|].
    split; [by eapply advance_trans|]. rewrite length_app. lia.
  - destruct (rmatch ml r1 k st) eqn:H1.
    + intros [= ->]. apply IH1 in H1 as (st1 & w & ? & ? & ?). exists st1, w.
      split_and!; [done..|lia].
    + intros (st1 & w & ? & ? & ?)%IH2. exists st1, w. split_and!; [done..|lia].
  - destruct (rmatch ml r k st) eqn:H1.
    + intros [= ->]. apply IH in H1 as (st1 & w & ? & ? & ?). exists st1, w.
      split_and!; [done..|lia].
    + intros Hk. exists st, []. split_and!; [done | apply advance_refl | lia].
  - intros (st1 & w & Hk & [Hr Hp] & Hm)%IH. eexists _, w. split; [exact Hk|].
    split; [by split | done].
  - destruct (atLineStart ml st); [|done]. intros Hk. exists st, [].
    split_and!; [done | apply advance_refl | lia].
  - destruct (atLineEnd ml st); [|done]. intros Hk. exists st, [].
    split_and!; [done | apply advance_refl | lia].
Qed.

(** A match lies inside the subject and is as long as the pattern
    demands. *)
Lemma search_inv rx p i l mt :
  search rx p i l = Some mt →
  i ≤ index mt ∧ index mt + minLength (pattern rx) ≤ lastIndex mt
  ∧ lastIndex mt ≤ i + length l.
Proof.
  revert p i. induction l as [|c l IH]; intros p i; simpl.
  all: destruct (rmatch _ _ _ _) as [e|] eqn:Hm.
  all: try (intros [= <-]; simpl;
            apply rmatch_inv in Hm as (st1 & w & [= ->] & [Hr Hp] & Hmin);
            simpl in *; apply (f_equal length) in Hr; rewrite length_app in Hr;
            simpl in Hr; lia).
  intros H%IH. lia.
Qed.

Lemma exec_inv rx s from mt :
  exec rx s from = Some mt →
  from ≤ index mt ∧ index mt + minLength (pattern rx) ≤ lastIndex mt
  ∧ lastIndex mt ≤ length s.
Proof.
  unfold exec. case_decide as Hle; [|done]. intros H%search_inv.
  rewrite length_drop in H. lia.
Qed.

(** Where no match is empty every round of [execAll] moves on, and the
    number of rounds allowed is never reached. *)
Lemma execAllFrom_fuel rx s from fuel fuel' :
  0 < minLength (pattern rx) →
  length s - from < fuel → length s - from < fuel' →
  execAllFrom fuel rx s from = execAllFrom fuel' rx s from.
Proof.
  intros Hpos. revert from fuel'.
  induction fuel as [|fuel IH]; intros from fuel' Hf Hf'; [lia|].
  destruct fuel' as [|fuel']; [lia|]. simpl.
  destruct (exec rx s from) as [mt|] eqn:He; [|done].
  apply exec_inv in He. f_equal. apply IH; lia.
Qed.

Lemma patterns_progress :
  Forall (λ rx, 0 < minLength (pattern rx)) [re; opre; flagre; headerre].
Proof. repeat constructor; vm_compute; lia. Qed.

(** ** Entries in file order *)

Lemma addEntry_spec acc mt :
  addEntry acc mt
  = (acc.1 ++ option_list (asInitial mt), acc.2 ++ option_list (asTest mt)).
Proof.
  unfold addEntry, asInitial, asTest, entryTitle.
  destruct (grp mt 2); simpl.
  - destruct (foldl addOperation _ _). by rewrite app_nil_r.
  - by rewrite app_nil_r.
Qed.

Lemma foldl_addEntry ms acc :
  foldl addEntry acc ms = (acc.1 ++ omap asInitial ms, acc.2 ++ omap asTest ms).
Proof.
  revert acc. induction ms as [|mt ms IH]; intros [ini tst]; simpl.
  - by rewrite !app_nil_r.
  - rewrite addEntry_spec, IH. simpl.
    destruct (asInitial mt), (asTest mt); simpl; by rewrite <-?app_assoc, ?app_nil_r.
Qed.

(** [initial] and [tests] hold the entries of each kind in the order of the
    file. *)
Lemma parseEntries_spec contents :
  parseEntries contents
  = (omap asInitial (execAll re contents), omap asTest (execAll re contents)).
Proof. unfold parseEntries. by rewrite foldl_addEntry. Qed.

Lemma asInitial_title mt d : asInitial mt = Some d → InitialDocument.title d = entryTitle mt.
Proof. unfold asInitial. destruct (grp mt 2); [done|]. by intros [= <-]. Qed.

Lemma asTest_title mt t :
  asTest mt = Some t → title t = entryTitle mt ∧ grp mt 2 = Some (comesAfter t).
Proof. unfold asTest. destruct (grp mt 2); [|done]. by intros [= <-]. Qed.

(** Every match is an entry of exactly one kind. *)
Lemma parseEntries_length contents :
  length (parseEntries contents).2 + length (parseEntries contents).1
  = length (execAll re contents).
Proof.
  rewrite parseEntries_spec. simpl.
  induction (execAll re contents) as [|mt ms IH]; [done|]. simpl.
  unfold omap in IH.
  unfold asInitial at 1, asTest at 1. destruct (grp mt 2); simpl; lia.
Qed.

(** ** When parseMarkdownTests returns *)

Lemma parseMarkdownTests_unfold contents :
  parseMarkdownTests contents
  = (assert (bool_decide (headerCount contents
               = length (parseEntries contents).2 + length (parseEntries contents).1))
            (js "not all tests were parsed") ;;
     checkDependencies (parseEntries contents).1 (parseEntries contents).2).
Proof. unfold parseMarkdownTests. by destruct (parseEntries contents). Qed.

Lemma inOrder_alt initial tests :
  inOrder initial tests ↔
  ∀ i t, tests !! i = Some t →
    comesAfter t ∈ (list_to_set (initialTitles initial) ∪ ∅ : gset jsstring)
    ∨ comesAfter t ∈ testTitles (take i tests).
Proof.
  unfold inOrder, knownAt. split; intros H i t Hi; specialize (H i t Hi).
  - apply elem_of_app in H as [H|H]; [left; set_solver | by right].
  - apply elem_of_app. destruct H as [H|H]; [left; set_solver | by right].
Qed.

Lemma checkDependencies_Ok initial tests p :
  checkDependencies initial tests = Ok p ↔
    p = mkParsed initial tests ∧ NoDup (initialTitles initial) ∧ inOrder initial tests.
Proof.
  unfold checkDependencies. rewrite bind_Ok. setoid_rewrite bind_Ok.
  rewrite inOrder_alt. split.
  - intros (k & (Hnd & _ & ->)%checkInitial_Ok & k' & (Hall & _)%checkTests_Ok & [= <-]).
    done.
  - intros (-> & Hnd & Hall). eexists. split.
    { apply checkInitial_Ok. split_and!; [done | set_solver | done]. }
    eexists. split; [|done]. apply checkTests_Ok. done.
Qed.

(** The file is accepted exactly when the headers are all parsed, the
    initial titles are pairwise distinct and the tests are in order. *)
Lemma parseMarkdownTests_Ok contents p :
  parseMarkdownTests contents = Ok p ↔
    p = mkParsed (parseEntries contents).1 (parseEntries contents).2
    ∧ headerCount contents
      = length (parseEntries contents).2 + length (parseEntries contents).1
    ∧ NoDup (initialTitles (parseEntries contents).1)
    ∧ inOrder (parseEntries contents).1 (parseEntries contents).2.
Proof.
  rewrite parseMarkdownTests_unfold, bind_Ok. split.
  - intros ([] & Hc%assert_Ok%bool_decide_eq_true & Hd%checkDependencies_Ok).
    naive_solver.
  - intros (-> & Hc & Hnd & Hord). exists tt. split.
    + by apply assert_Ok, bool_decide_eq_true.
    + by apply checkDependencies_Ok.
Qed.

(** ** Unknown dependencies *)

Lemma inOrder_take initial tests i :
  (∀ j t', j < i → tests !! j = Some t' → comesAfter t' ∈ knownAt initial tests j) →
  ∀ j t', take i tests !! j = Some t' →
    comesAfter t' ∈ (list_to_set (initialTitles initial) ∪ ∅ : gset jsstring)
    ∨ comesAfter t' ∈ testTitles (take j (take i tests)).
Proof.
  intros Hpre j t' Hj. apply lookup_take_Some in Hj as [Hj Hlt].
  specialize (Hpre j t' Hlt Hj). unfold knownAt in Hpre.
  rewrite take_take, Nat.min_l by lia.
  apply elem_of_app in Hpre as [H|H]; [left; set_solver | by right].
Qed.

(** What the dependency loop does reject: a Transition whose [comesAfter] is
    neither the title of an InitialState entry of the file, wherever it is
    declared, nor the title of a Transition declared before it, makes
    [parseMarkdownTests] throw, also when a Transition of that title comes
    later in the file; when the header count and the uniqueness of the initial
    titles hold and the Transition is the first such one, the error is the
    assertion error that names its title and the missing dependency. *)
Theorem unknown_dependency_rejected contents initial tests i t :
  parseEntries contents = (initial, tests) →
  tests !! i = Some t →
  comesAfter t ∉ knownAt initial tests i →
  (∃ e, parseMarkdownTests contents = Throw e)
  ∧ (headerCount contents = length tests + length initial →
     NoDup (initialTitles initial) →
     (∀ j t', j < i → tests !! j = Some t' → comesAfter t' ∈ knownAt initial tests j) →
     parseMarkdownTests contents
     = Throw (AssertionError (unknownMessage (title t) (comesAfter t)))).
Proof.
  intros Hparse Hi Hunknown. split.
  - destruct (parseMarkdownTests contents) as [p|e] eqn:Hr; [|by eexists].
    apply parseMarkdownTests_Ok in Hr as (_ & _ & _ & Hord).
    rewrite Hparse in Hord. simpl in Hord. destruct Hunknown. by eapply Hord.
  - intros Hcount Hnd Hpre.
    rewrite parseMarkdownTests_unfold, Hparse. simpl.
    rewrite bool_decide_eq_true_2 by done. simpl.
    unfold checkDependencies.
    destruct (checkInitial ∅ initial) as [known|e] eqn:Hinit.
    2: { assert (is_Some (Some e)) as [k Hk] by done.
         assert (checkInitial ∅ initial = Ok (list_to_set (initialTitles initial) ∪ ∅)) as Hok.
         { apply checkInitial_Ok. split_and!; [done | set_solver | done]. }
         congruence. }
    apply checkInitial_Ok in Hinit as (_ & _ & ->). simpl.
    rewrite <-(take_drop_middle tests i t Hi).
    unfold knownAt in Hunknown. rewrite elem_of_app in Hunknown.
    rewrite checkTests_unknown; [done | | |].
    + by apply inOrder_take.
    + set_solver.
    + tauto.
Qed.

Lemma unknown_dependency_rejected_witness :
  parseMarkdownTests forwardReference
  = Throw (AssertionError (unknownMessage (js "B") (js "C"))).
Proof.
  refine (proj2 (unknown_dependency_rejected forwardReference
                   (parseEntries forwardReference).1
                   (parseEntries forwardReference).2 0
                   (mkTest (js "B") (js "C") [mkOperation (js "x") None] []
                      (js "b" ++ [10%N])) _ _ _) _ _ _).
  - vm_compute. reflexivity.
  - vm_compute. reflexivity.
  - vm_compute. intros H. inversion H as [|? ? ? H']. inversion H'.
  - vm_compute. reflexivity.
  - vm_compute. repeat constructor. intros H. inversion H.
  - intros j t' Hj. lia.
Defined.

(** C1 does not hold of [parseMarkdownTests]: in this file the Transition
    B is declared first and comes after A, a title no entry declares before
    it; the file is accepted all the same, because the titles of all the
    InitialState entries are known before the first Transition is checked,
    wherever they are declared. *)
Theorem transition_before_its_initial_state_accepted :
  entryTitle <$> execAll re initialDeclaredLater = [js "B"; js "A"]
  ∧ ∃ parsed,
      parseMarkdownTests initialDeclaredLater = Ok parsed
      ∧ InitialDocument.title <$> setups parsed = [js "A"]
      ∧ title <$> tests parsed = [js "B"]
      ∧ comesAfter <$> tests parsed = [js "A"].
Proof.
  split; [vm_compute; reflexivity|].
  eexists. split; [vm_compute; reflexivity|]. split_and!; vm_compute; reflexivity.
Qed.

(** ** Titles of transitions are never compared *)

(** C9: a file in which a Transition has the title of an InitialState entry
    or of a Transition before it is accepted as long as the header count
    holds, the initial titles are pairwise distinct and the tests are in
    order: only initial titles are checked for duplicates. *)
Theorem duplicate_transition_title_accepted contents initial tests i t :
  parseEntries contents = (initial, tests) →
  headerCount contents = length tests + length initial →
  NoDup (initialTitles initial) →
  inOrder initial tests →
  tests !! i = Some t →
  title t ∈ knownAt initial tests i →
  parseMarkdownTests contents = Ok (mkParsed initial tests).
Proof.
  intros Hparse Hcount Hnd Hord _ _. apply parseMarkdownTests_Ok.
  rewrite Hparse. done.
Qed.

Lemma duplicate_transition_title_accepted_witness :
  title <$> (parseEntries repeatedTitles).2 = [js "B"; js "B"; js "A"]
  ∧ InitialDocument.title <$> (parseEntries repeatedTitles).1 = [js "A"]
  ∧ parseMarkdownTests repeatedTitles
    = Ok (mkParsed (parseEntries repeatedTitles).1 (parseEntries repeatedTitles).2).
Proof.
  split; [vm_compute; reflexivity|]. split; [vm_compute; reflexivity|].
  refine (duplicate_transition_title_accepted repeatedTitles _ _ 2
            (mkTest (js "A") (js "B") [mkOperation (js "z") None] []
               (js "d" ++ [10%N])) _ _ _ _ _ _).
  - vm_compute. reflexivity.
  - vm_compute. reflexivity.
  - vm_compute. repeat constructor. intros H. inversion H.
  - intros [|[|[|j]]] t'; vm_compute; intros [= <-]; repeat constructor.
  - vm_compute. reflexivity.
  - vm_compute. repeat constructor.
Defined.

(** ** Titles and whitespace *)

Lemma hyphenate_sameButSpaces h1 h2 :
  sameButSpaces h1 h2 → hyphenate h1 = hyphenate h2.
Proof.
  induction 1 as [|a b h1 h2 Hab _ IH]; [done|].
  unfold hyphenate in *. rewrite !fmap_cons, IH. f_equal.
  destruct Hab as [->|[-> ->]]; done.
Qed.

Lemma hyphenate_length h : length (hyphenate h) = length h.
Proof. unfold hyphenate. by rewrite length_fmap. Qed.

(** Two initial entries of one title, anywhere in the file, break the
    uniqueness of the initial titles. *)
Lemma initialTitles_repeated ms i j m1 m2 :
  i < j → ms !! i = Some m1 → ms !! j = Some m2 →
  grp m1 2 = None → grp m2 2 = None → entryTitle m1 = entryTitle m2 →
  ¬ NoDup (initialTitles (omap asInitial ms)).
Proof.
  intros Hlt Hi Hj H1 H2 Heq Hnd.
  rewrite <-(take_drop_middle ms i m1 Hi) in Hj, Hnd.
  rewrite lookup_app_r in Hj by (rewrite length_take; lia).
  rewrite length_take, Nat.min_l in Hj by (apply lookup_lt_Some in Hi; lia).
  destruct (j - i) as [|n] eqn:Hn; [lia|]. simpl in Hj.
  unfold initialTitles in Hnd. rewrite omap_app, fmap_app in Hnd.
  apply NoDup_app in Hnd as (_ & _ & Hnd). simpl in Hnd.
  unfold asInitial at 1 in Hnd. rewrite H1 in Hnd. simpl in Hnd.
  apply NoDup_cons in Hnd as [Hnotin _]. apply Hnotin.
  apply list_elem_of_fmap. eexists. split; [|apply list_elem_of_omap].
  2: { exists m2. split; [by eapply list_elem_of_lookup_2|].
       unfold asInitial. rewrite H2. done. }
  simpl. done.
Qed.

(** C2, as amended: two entry header texts that agree up to the kind of
    whitespace at each index get the same title, every whitespace code unit
    being replaced by one hyphen; when both entries are InitialState entries
    [parseMarkdownTests] throws, and the error is the duplicate-title
    assertion error whenever every header line was parsed. *)
Theorem whitespace_titles_duplicate contents i j m1 m2 :
  i ≠ j →
  execAll re contents !! i = Some m1 →
  execAll re contents !! j = Some m2 →
  sameButSpaces (headerText m1) (headerText m2) →
  entryTitle m1 = entryTitle m2
  ∧ (grp m1 2 = None → grp m2 2 = None →
     (∃ e, parseMarkdownTests contents = Throw e)
     ∧ (headerCount contents = length (execAll re contents) →
        ∃ x, x ∈ initialTitles (parseEntries contents).1
             ∧ parseMarkdownTests contents
               = Throw (AssertionError (duplicateMessage x)))).
Proof.
  intros Hne Hi Hj Hsame.
  assert (Heq : entryTitle m1 = entryTitle m2).
  { by apply hyphenate_sameButSpaces. }
  split; [done|]. intros H1 H2.
  assert (Hdup : ¬ NoDup (initialTitles (parseEntries contents).1)).
  { rewrite parseEntries_spec. simpl.
    destruct (decide (i < j)).
    - by eapply (initialTitles_repeated _ i j m1 m2).
    - eapply (initialTitles_repeated _ j i m2 m1); [lia | done..]. }
  split.
  - destruct (parseMarkdownTests contents) as [p|e] eqn:Hr; [|by eexists].
    apply parseMarkdownTests_Ok in Hr as (_ & _ & Hnd & _). done.
  - intros Hcount. rewrite parseMarkdownTests_unfold.
    rewrite bool_decide_eq_true_2 by (by rewrite parseEntries_length). simpl.
    destruct (checkInitial_duplicate ∅ _ Hdup) as (x & Hx & Hr).
    exists x. split; [done|]. unfold checkDependencies. by rewrite Hr.
Qed.

Lemma whitespace_titles_duplicate_witness :
  parseMarkdownTests tabAndBlank
  = Throw (AssertionError (duplicateMessage (js "a-b"))).
Proof.
  destruct (whitespace_titles_duplicate tabAndBlank 0 1
              (mkMatch 0 17
                 [Some (take 17 tabAndBlank); Some (js "a b"); None;
                  Some [10%N]; Some (js "x" ++ [10%N])])
              (mkMatch 17 34
                 [Some (drop 17 tabAndBlank); Some (js "a" ++ [9%N] ++ js "b"); None;
                  Some [10%N]; Some (js "y" ++ [10%N])]))
    as [_ Hdup].
  - lia.
  - vm_compute. reflexivity.
  - vm_compute. reflexivity.
  - vm_compute. repeat constructor; (by left) || (right; by vm_compute).
  - destruct (Hdup eq_refl eq_refl) as [_ Hmsg].
    destruct Hmsg as (x & Hx & Hr); [vm_compute; reflexivity|].
    rewrite Hr. vm_compute in Hx.
    apply elem_of_cons in Hx as [->|Hx]; [reflexivity|].
    apply elem_of_cons in Hx as [->|Hx]; [reflexivity|]. inversion Hx.
Defined.

(** The file with the initial documents [a b] and [a  b] is accepted. *)
Lemma oneAndTwoBlanks_accepted :
  ∃ parsed, parseMarkdownTests oneAndTwoBlanks = Ok parsed
            ∧ InitialDocument.title <$> setups parsed = [js "a-b"; js "a--b"].
Proof. eexists. split; [vm_compute; reflexivity|]. by vm_compute. Qed.

(** C2, as stated, fails: the header texts [a b] and [a  b] differ only in
    whitespace, their titles are [a-b] and [a--b], and the file that holds
    both as InitialState entries is accepted. *)
Lemma whitespace_titles_counterexample :
  ¬ (∀ contents i j m1 m2,
       i ≠ j →
       execAll re contents !! i = Some m1 →
       execAll re contents !! j = Some m2 →
       collapsed (headerText m1) = collapsed (headerText m2) →
       entryTitle m1 = entryTitle m2
       ∧ ∃ x, parseMarkdownTests contents = Throw (AssertionError (duplicateMessage x))).
Proof.
  intros H.
  destruct (H oneAndTwoBlanks 0 1
              (mkMatch 0 17
                 [Some (take 17 oneAndTwoBlanks); Some (js "a b"); None;
                  Some [10%N]; Some (js "x" ++ [10%N])])
              (mkMatch 17 35
                 [Some (drop 17 oneAndTwoBlanks); Some (js "a  b"); None;
                  Some [10%N]; Some (js "y" ++ [10%N])]))
    as [Htitle _].
  - lia.
  - vm_compute. reflexivity.
  - vm_compute. reflexivity.
  - vm_compute. reflexivity.
  - vm_compute in Htitle. discriminate Htitle.
Qed.

(** ** The flag grammar *)

Lemma lastOr_cons p c w : lastOr p (c :: w) = lastOr (Some c) w.
Proof.
  unfold lastOr. destruct w as [|d w]; [done|]. rewrite last_cons_cons.
  destruct (last (d :: w)) eqn:E; [done|]. by apply last_None in E.
Qed.

Lemma matchLit_app k s p i cs l :
  matchLit k s p i cs (s ++ l) = k (MState (lastOr p s) (i + length s) l cs).
Proof.
  revert p i. induction s as [|a s IH]; intros p i; simpl.
  - by rewrite Nat.add_0_r.
  - rewrite N.eqb_refl, IH, lastOr_cons. do 2 f_equal. lia.
Qed.

(** A greedy quantifier takes the whole run when the rest of the pattern
    accepts what follows it. *)
Lemma matchRep_greedy cls k min p i cs w l e :
  Forall (λ c, cls c = true) w →
  min ≤ length w →
  match l with c :: _ => cls c = false | [] => True end →
  k (MState (lastOr p w) (i + length w) l cs) = Some e →
  matchRep true cls k min p i cs (w ++ l) = Some e.
Proof.
  intros Hw. revert min p i. induction Hw as [|c w Hc Hw IH]; intros min p i Hmin Hl Hk.
  - simpl in *. destruct min; [|lia]. rewrite Nat.add_0_r in Hk.
    unfold lastOr in Hk. simpl in Hk.
    destruct l as [|c l]; simpl; [by rewrite Hk|]. by rewrite Hl, Hk.
  - simpl. rewrite Hc. erewrite IH; [done | simpl in Hmin; lia | done |].
    rewrite lastOr_cons in Hk. simpl in Hk.
    by replace (S i + length w) with (i + S (length w)) by lia.
Qed.

Lemma search_here rx p i l e :
  rmatch (multiline rx) (pattern rx) Some
    (MState p i l (replicate (S (groups rx)) None)) = Some e →
  search rx p i l
  = Some (mkMatch i (pos e) (<[0 := Some (take (pos e - i) l)]> (caps e))).
Proof. intros H. destruct l; simpl in *; by rewrite H. Qed.

(** A pattern that starts with [^] and has no [m] flag matches at the start
    of the subject only. *)
Lemma search_anchored r n c i l :
  search (mkRegExp (Bol ⋅⋅ r) n false) (Some c) i l = None.
Proof. revert c i. induction l as [|d l IH]; intros c i; simpl; [done|]. apply IH. Qed.

Lemma exec_anchored r n s mt :
  exec (mkRegExp (Bol ⋅⋅ r) n false) s 0 = Some mt →
  ∃ e, rmatch false r Some (MState None 0 s (replicate (S n) None)) = Some e
       ∧ mt = mkMatch 0 (pos e) (<[0 := Some (take (pos e) s)]> (caps e)).
Proof.
  unfold exec. rewrite decide_True by lia. rewrite drop_0.
  destruct s as [|c s]; simpl.
  - destruct (rmatch false r Some _) as [e|]; [|done]. intros [= <-].
    exists e. by rewrite Nat.sub_0_r.
  - destruct (rmatch false r Some _) as [e|] eqn:He.
    + intros [= <-]. exists e. by rewrite Nat.sub_0_r.
    + by rewrite search_anchored.
Qed.

Lemma grp_capture_1 i j (x0 x1 x2 x3 : option jsstring) :
  grp (mkMatch i j (<[0:=x0]> (<[3:=x3]> (<[2:=x2]> (<[1:=x1]> (replicate 4 None))))))
      1 = x1.
Proof. done. Qed.

Lemma grp_capture_3 i j (x0 x1 x2 x3 : option jsstring) :
  grp (mkMatch i j (<[0:=x0]> (<[3:=x3]> (<[2:=x2]> (<[1:=x1]> (replicate 4 None))))))
      3 = x3.
Proof. done. Qed.

Lemma take_matched a (s l : jsstring) : take (a + length s - a) (s ++ l) = s.
Proof. replace (a + length s - a) with (length s) by lia. apply take_app_length. Qed.

Lemma behaviorre_matches flag scope value :
  behaviorFlag flag scope value →
  ∃ mt, exec behaviorre flag 0 = Some mt
        ∧ grp mt 1 = Some scope ∧ grp mt 3 = Some value.
Proof.
  intros (-> & Hne & Hw & Hv).
  assert (∃ e, rmatch false (pattern behaviorre) Some
                 (MState None 0 (scope ++ js ".behavior <- " ++ value)
                    (replicate 4 None)) = Some e
               ∧ caps e !! 1 = Some (Some scope)
               ∧ caps e !! 3 = Some (Some value)) as (e & He & H1 & H3).
  { destruct Hv as [-> | ->].
    - replace (js ".behavior <- " ++ js "caret")
        with (js "." ++ js "behavior" ++ js " <- " ++ js "caret" ++ [])
        by (by vm_compute).
      eexists. split.
      + cbn [behaviorre pattern rmatch atLineStart prev pos rest caps].
        apply matchRep_greedy; [done | destruct scope; [done | simpl; lia] | by vm_compute |].
        cbn [prev pos rest caps]. rewrite matchLit_app. cbn [rmatch prev pos rest caps].
        rewrite matchLit_app. cbn [prev pos rest caps]. rewrite matchLit_app.
        cbn [rmatch prev pos rest caps]. rewrite matchLit_app.
        cbn [atLineEnd prev pos rest caps]. reflexivity.
      + cbn [caps replicate]. simpl.
        split; [by rewrite Nat.sub_0_r, take_app_length|].
        do 2 f_equal. rewrite take_ge; [by vm_compute|]. vm_compute (length _). lia.
    - replace (js ".behavior <- " ++ js "character")
        with (js "." ++ js "behavior" ++ js " <- " ++ js "character" ++ [])
        by (by vm_compute).
      eexists. split.
      + cbn [behaviorre pattern rmatch atLineStart prev pos rest caps].
        apply matchRep_greedy; [done | destruct scope; [done | simpl; lia] | by vm_compute |].
        cbn [prev pos rest caps]. rewrite matchLit_app. cbn [rmatch prev pos rest caps].
        rewrite matchLit_app. cbn [prev pos rest caps]. rewrite matchLit_app.
        cbn [rmatch prev pos rest caps].
        replace (matchLit _ (js "caret") _ _ _ (js "character" ++ [])) with (@None mstate)
          by (by vm_compute).
        rewrite matchLit_app.
        cbn [atLineEnd prev pos rest caps]. reflexivity.
      + cbn [caps replicate]. simpl.
        split; [by rewrite Nat.sub_0_r, take_app_length|].
        do 2 f_equal. rewrite take_ge; [by vm_compute|]. vm_compute (length _). lia. }
  eexists. split.
  - unfold exec. rewrite decide_True by lia. rewrite drop_0.
    apply search_here. exact He.
  - unfold grp. cbn [group]. rewrite !list_lookup_insert_ne by done.
    by rewrite H1, H3.
Qed.

Lemma behaviorre_inv flag mt :
  exec behaviorre flag 0 = Some mt →
  ∃ scope value, behaviorFlag flag scope value
                 ∧ grp mt 1 = Some scope ∧ grp mt 3 = Some value.
Proof.
  intros (e & He & ->)%exec_anchored.
  unfold plus in He. cbn [rmatch prev pos rest caps] in He.
  apply matchRep_inv in He as (w & p1 & l1 & -> & Hmin & Hw & He).
  cbn [prev pos rest caps] in He.
  apply matchLit_inv in He as (p2 & l2 & -> & He). cbn [prev pos rest caps] in He.
  apply matchLit_inv in He as (p3 & l3 & -> & He). cbn [prev pos rest caps] in He.
  apply matchLit_inv in He as (p4 & l4 & -> & He). cbn [prev pos rest caps] in He.
  assert (Hscope : w ≠ []) by (destruct w; [simpl in Hmin; lia | done]).
  assert (Hend : ∀ p i cs l x (e' : mstate),
            (if atLineEnd false (MState p i l (<[3 := x]> cs))
             then Some (MState p i l (<[3 := x]> cs)) else None) = Some e' →
            l = [] ∧ caps e' = <[3 := x]> cs).
  { intros p i cs [|c l] x e'; [|done]. cbn. by intros [= <-]. }
  destruct (matchLit _ (js "caret") _ _ _ _) as [e'|] eqn:He'.
  - injection He as ->.
    apply matchLit_inv in He' as (p5 & l5 & -> & He'). cbn [prev pos rest caps] in He'.
    apply Hend in He' as [-> Hcaps].
    exists w, (js "caret"). split.
    + split_and!; [by vm_compute (js _ ++ js _) | done | done | by left].
    + rewrite Hcaps, grp_capture_1, grp_capture_3.
      rewrite Nat.sub_0_r, Nat.add_0_l, take_app_length, take_matched. done.
  - apply matchLit_inv in He as (p5 & l5 & -> & He). cbn [prev pos rest caps] in He.
    apply Hend in He as [-> Hcaps].
    exists w, (js "character"). split.
    + split_and!; [by vm_compute (js _ ++ js _) | done | done | by right].
    + rewrite Hcaps, grp_capture_1, grp_capture_3.
      rewrite Nat.sub_0_r, Nat.add_0_l, take_app_length, take_matched. done.
Qed.

Lemma recognized_exec flag : recognized flag ↔ is_Some (exec behaviorre flag 0).
Proof.
  split.
  - intros (scope & value & (mt & -> & _)%behaviorre_matches). by eexists.
  - intros [mt (scope & value & ? & _)%behaviorre_inv]. by exists scope, value.
Qed.

(** The scope and the value of a flag of the grammar are determined. *)
Lemma behaviorFlag_unique flag scope value scope' value' :
  behaviorFlag flag scope value → behaviorFlag flag scope' value' →
  scope = scope' ∧ value = value'.
Proof.
  intros (mt & He & H1 & H3)%behaviorre_matches (mt' & He' & H1' & H3')%behaviorre_matches.
  rewrite He in He'. injection He' as <-. split; congruence.
Qed.

(** ** Flags become configuration steps *)

Lemma behaviorStep_configurationStep mode value :
  behaviorStep mode value = configurationStep mode value.
Proof. reflexivity. Qed.

Lemma stringifyFlags_recognized text flags :
  Forall recognized flags →
  ∃ steps, Forall2 flagStep flags steps
           ∧ stringifyFlags text flags = Ok (text ++ concat steps).
Proof.
  intros Hall. revert text. induction Hall as [|flag flags Hflag _ IH]; intros text.
  - exists []. split; [constructor | simpl; by rewrite app_nil_r].
  - destruct Hflag as (scope & value & Hflag).
    destruct (behaviorre_matches _ _ _ Hflag) as (mt & He & H1 & H3).
    destruct (IH (text ++ behaviorStep scope value)) as (steps & Hsteps & Hr).
    exists (configurationStep scope value :: steps). split.
    + constructor; [by exists scope, value | done].
    + simpl. rewrite He, H1, H3. simpl. rewrite Hr.
      by rewrite behaviorStep_configurationStep, <-app_assoc.
Qed.

Lemma stringifyFlags_unrecognized text pre flag post :
  Forall recognized pre → ¬ recognized flag →
  stringifyFlags text (pre ++ flag :: post) = Throw (unrecognized flag).
Proof.
  intros Hpre Hflag. revert text. induction Hpre as [|f pre Hf _ IH]; intros text; simpl.
  - destruct (exec behaviorre flag 0) as [mt|] eqn:He; [|done].
    destruct Hflag. apply recognized_exec. by eexists.
  - apply recognized_exec in Hf as [mt ->]. apply IH.
Qed.

Lemma stringifyFlags_Ok text flags text' :
  stringifyFlags text flags = Ok text' → Forall recognized flags.
Proof.
  revert text. induction flags as [|flag flags IH]; intros text; simpl; [done|].
  destruct (exec behaviorre flag 0) as [mt|] eqn:He; [|done].
  intros Hr%IH. constructor; [|done]. apply recognized_exec. by eexists.
Qed.

Lemma foldl_awaitStep text rs :
  foldl (λ text promises, text ++ awaitStep promises) text rs
  = text ++ concat (awaitStep <$> rs).
Proof.
  revert text. induction rs as [|r rs IH]; intros text; simpl.
  - by rewrite app_nil_r.
  - by rewrite IH, <-app_assoc.
Qed.

Lemma stringifyOperations_Ok test text :
  stringifyOperations test = Ok text ↔
  ∃ config, Forall2 flagStep (flags test) config
            ∧ text = concat config ++ concat (operationSteps test).
Proof.
  unfold stringifyOperations. rewrite bind_Ok. split.
  - intros (cfg & Hflags & [= <-]).
    pose proof (stringifyFlags_Ok _ _ _ Hflags) as Hall.
    destruct (stringifyFlags_recognized [] _ Hall) as (steps & Hsteps & Hr).
    rewrite Hr in Hflags. injection Hflags as <-.
    exists steps. split; [done|]. by rewrite foldl_awaitStep.
  - intros (config & Hsteps & ->).
    assert (Forall recognized (flags test)) as Hall.
    { clear -Hsteps. induction Hsteps as [|f s fs ss (sc & v & Hf & _) _ IH];
        constructor; [by exists sc, v | done]. }
    destruct (stringifyFlags_recognized [] _ Hall) as (steps & Hsteps' & Hr).
    assert (steps = config) as ->.
    { clear -Hsteps Hsteps'. revert steps Hsteps'.
      induction Hsteps as [|f s fs ss (sc & v & Hf & ->) _ IH]; intros steps Hsteps'.
      - by inversion Hsteps'.
      - inversion Hsteps' as [|? s' ? ss' (sc' & v' & Hf' & ->) Hrest]; subst.
        destruct (behaviorFlag_unique _ _ _ _ _ Hf Hf') as [-> ->].
        f_equal. by apply IH. }
    eexists. split; [exact Hr|]. simpl. by rewrite foldl_awaitStep.
Qed.

(** C4: when every flag of the transition is of the grammar
    [<scope>.behavior <- caret|character], [stringifyOperations] emits one
    selection-behavior configuration step for each flag, in order, and then
    the steps of the operations: the step of a flag is the line
    [await executeCommand("dance.dev.setSelectionBehavior", { mode: "<scope>", value: "<value>" });]
    with the scope and the value of that flag; when a flag is not of the
    grammar it throws the "unrecognized flag" error for the first such flag;
    it returns a text only when every flag is of the grammar, so that no flag
    is left out. *)
Theorem flags_configure_or_throw test :
  (Forall recognized (flags test) →
   ∃ config,
     length config = length (flags test)
     ∧ (∀ i flag, flags test !! i = Some flag →
          ∃ scope value,
            flag = scope ++ js ".behavior <- " ++ value
            ∧ scope ≠ [] ∧ Forall (λ c, isWord c = true) scope
            ∧ (value = js "caret" ∨ value = js "character")
            ∧ config !! i
              = Some (js "await executeCommand("
                      ++ (dq ++ js "dance.dev.setSelectionBehavior" ++ dq)
                      ++ js ", { mode: " ++ (dq ++ scope ++ dq)
                      ++ js ", value: " ++ (dq ++ value ++ dq)
                      ++ js " });" ++ [10%N]))
     ∧ stringifyOperations test
       = Ok (concat config ++ concat (operationSteps test)))
  ∧ (∀ pre flag post,
       flags test = pre ++ flag :: post → Forall recognized pre → ¬ recognized flag →
       stringifyOperations test
       = Throw (Error (js "unrecognized flag " ++ JSON_stringify flag)))
  ∧ (∀ text, stringifyOperations test = Ok text → Forall recognized (flags test)).
Proof.
  split_and!.
  - intros Hall. destruct (stringifyFlags_recognized [] _ Hall) as (steps & Hsteps & Hr).
    exists steps. split_and!.
    + symmetry. by eapply Forall2_length.
    + intros i flag Hi.
      destruct (Forall2_lookup_l _ _ _ _ _ Hsteps Hi)
        as (step & Hstep & scope & value & (Hflag & Hscope & Hword & Hvalue) & ->).
      by exists scope, value.
    + apply stringifyOperations_Ok. by exists steps.
  - intros pre flag post Hflags Hpre Hflag. unfold stringifyOperations.
    rewrite Hflags, stringifyFlags_unrecognized by done. done.
  - intros text (config & Hsteps & _)%stringifyOperations_Ok.
    induction Hsteps as [|f s fs ss (sc & v & Hf & _) _ IH];
      constructor; [by exists sc, v | done].
Qed.

Lemma recognized_caret : recognized (js "normal.behavior <- caret").
Proof.
  exists (js "normal"), (js "caret").
  split_and!; [by vm_compute | by vm_compute | | by left].
  vm_compute. repeat constructor.
Qed.

Lemma recognized_character : recognized (js "insert.behavior <- character").
Proof.
  exists (js "insert"), (js "character").
  split_and!; [by vm_compute | by vm_compute | | by right].
  vm_compute. repeat constructor.
Qed.

Lemma flags_configure_or_throw_witness :
  stringifyOperations caretThenInsert
  = Ok (js "await executeCommand(" ++ (dq ++ js "dance.dev.setSelectionBehavior" ++ dq)
        ++ js ", { mode: " ++ (dq ++ js "normal" ++ dq)
        ++ js ", value: " ++ (dq ++ js "caret" ++ dq) ++ js " });" ++ [10%N]
        ++ js "await executeCommand(" ++ (dq ++ js "dance.dev.setSelectionBehavior" ++ dq)
        ++ js ", { mode: " ++ (dq ++ js "insert" ++ dq)
        ++ js ", value: " ++ (dq ++ js "character" ++ dq) ++ js " });" ++ [10%N]
        ++ js "await executeCommand(" ++ (dq ++ js "dance.insert.a" ++ dq) ++ js ");"
        ++ [10%N])
  ∧ stringifyOperations misspelledFlag
    = Throw (Error (js "unrecognized flag " ++ dq ++ js "normal.behavior <- care" ++ dq)).
Proof.
  split.
  - destruct (proj1 (flags_configure_or_throw caretThenInsert))
      as (config & Hlen & Hsteps & ->).
    { repeat constructor; [apply recognized_caret | apply recognized_character]. }
    destruct config as [|s0 [|s1 [|s2 config]]]; try discriminate Hlen.
    destruct (Hsteps 0 (js "normal.behavior <- caret") eq_refl)
      as (scope0 & value0 & Hflag0 & Hne0 & Hword0 & Hvalue0 & [= ->]).
    destruct (Hsteps 1 (js "insert.behavior <- character") eq_refl)
      as (scope1 & value1 & Hflag1 & Hne1 & Hword1 & Hvalue1 & [= ->]).
    assert (behaviorFlag (js "normal.behavior <- caret") (js "normal") (js "caret")) as H0.
    { split_and!; [reflexivity | discriminate | vm_compute; repeat constructor | by left]. }
    assert (behaviorFlag (js "insert.behavior <- character") (js "insert") (js "character"))
      as H1.
    { split_and!; [reflexivity | discriminate | vm_compute; repeat constructor | by right]. }
    destruct (behaviorFlag_unique _ _ _ _ _ H0 (conj Hflag0 (conj Hne0 (conj Hword0 Hvalue0))))
      as [<- <-].
    destruct (behaviorFlag_unique _ _ _ _ _ H1 (conj Hflag1 (conj Hne1 (conj Hword1 Hvalue1))))
      as [<- <-].
    reflexivity.
  - transitivity (Throw (A:=jsstring)
                    (Error (js "unrecognized flag "
                            ++ JSON_stringify (js "normal.behavior <- care"))));
      [|reflexivity].
    apply (proj1 (proj2 (flags_configure_or_throw misspelledFlag))
             [js "normal.behavior <- caret"] (js "normal.behavior <- care") []).
    + reflexivity.
    + repeat constructor. apply recognized_caret.
    + intros [mt Hmt]%recognized_exec. vm_compute in Hmt. discriminate Hmt.
Defined.

(** ** Configuration steps come first *)

(** C5: in the text [stringifyOperations] returns, the steps are those of
    the flags, in order, followed by those of the operations, and nothing
    else: there are as many steps as flags and rounds of operations, the step
    of the [i]-th flag is the [i]-th step, and the step of the [j]-th round of
    the operations comes [j] places after the last configuration step, so
    that no configuration step comes after the step of an operation. *)
Theorem configuration_steps_first test text :
  stringifyOperations test = Ok text →
  ∃ steps,
    text = concat steps
    ∧ length steps = length (flags test) + length (operationRounds (operations test))
    ∧ (∀ i flag, flags test !! i = Some flag →
         ∃ step, steps !! i = Some step ∧ flagStep flag step)
    ∧ (∀ j promises, operationRounds (operations test) !! j = Some promises →
         steps !! (length (flags test) + j) = Some (awaitStep promises)).
Proof.
  intros (config & Hsteps & ->)%stringifyOperations_Ok.
  exists (config ++ operationSteps test). split_and!.
  - by rewrite concat_app.
  - unfold operationSteps.
    by rewrite length_app, length_fmap, (Forall2_length _ _ _ Hsteps).
  - intros i flag Hi.
    destruct (Forall2_lookup_l _ _ _ _ _ Hsteps Hi) as (step & Hstep & Hfs).
    exists step. split; [|done]. by apply lookup_app_l_Some.
  - intros j promises Hj. rewrite (Forall2_length _ _ _ Hsteps).
    rewrite lookup_app_r by lia. replace (length config + j - length config) with j by lia.
    unfold operationSteps. by rewrite list_lookup_fmap, Hj.
Qed.

Lemma configuration_steps_first_witness :
  ∃ steps,
    js "await executeCommand(" ++ quoted (js "dance.dev.setSelectionBehavior")
    ++ js ", { mode: " ++ quoted (js "normal") ++ js ", value: " ++ quoted (js "caret")
    ++ js " });" ++ [10%N]
    ++ js "await executeCommand(" ++ quoted (js "dance.dev.setSelectionBehavior")
    ++ js ", { mode: " ++ quoted (js "insert") ++ js ", value: " ++ quoted (js "character")
    ++ js " });" ++ [10%N]
    ++ js "await executeCommand(" ++ quoted (js "dance.insert.a") ++ js ");" ++ [10%N]
    = concat steps
    ∧ length steps
      = length (flags caretThenInsert)
        + length (operationRounds (operations caretThenInsert))
    ∧ (∀ i flag, flags caretThenInsert !! i = Some flag →
         ∃ step, steps !! i = Some step ∧ flagStep flag step)
    ∧ (∀ j promises, operationRounds (operations caretThenInsert) !! j = Some promises →
         steps !! (length (flags caretThenInsert) + j) = Some (awaitStep promises)).
Proof.
  apply (configuration_steps_first caretThenInsert). vm_compute. reflexivity.
Defined.

(** ** Rounds of the operation loop *)

Lemma typedMembers_length n ts : length (typedMembers n ts) = length ts.
Proof. revert n. induction ts as [|t ts IH]; intros n; simpl; [done|]. by rewrite IH. Qed.

Lemma typedMembers_lookup n ts k t :
  ts !! k = Some t → typedMembers n ts !! k = Some (typedPromise t ((n + k) * 20)).
Proof.
  revert n k. induction ts as [|t' ts IH]; intros n [|k]; simpl; try done.
  - intros [= ->]. by rewrite Nat.add_0_r.
  - intros Hk. rewrite (IH (S n) k Hk). do 3 f_equal. lia.
Qed.

Lemma rounds_typed promises ts post :
  Forall (λ t, isTyped t = true) ts →
  rounds promises (ts ++ post)
  = rounds (promises ++ typedMembers (length promises) ts) post.
Proof.
  intros Hts. revert promises. induction Hts as [|t ts Ht _ IH]; intros promises; simpl.
  - by rewrite app_nil_r.
  - rewrite Ht, IH, length_app, <-app_assoc. simpl.
    by replace (length promises + 1) with (S (length promises)) by lia.
Qed.

Lemma rounds_ended promises post :
  runEnds post → rounds promises post = promises :: operationRounds post.
Proof. destruct post as [|next post]; simpl; [done|]. by intros ->. Qed.

Lemma rounds_next promises pre o rest :
  isTyped o = false →
  rounds promises (pre ++ o :: rest)
  = rounds promises pre ++ rounds [invocation o] rest.
Proof.
  intros Ho. revert promises. induction pre as [|n pre IH]; intros promises; simpl.
  - by rewrite Ho.
  - destruct (isTyped n); by rewrite IH.
Qed.

(** The rounds before an operation the [for] loop stands on, its own round
    and the rounds after its run of [type:] operations. *)
Lemma operationRounds_run pre o ts post :
  pre = [] ∨ isTyped o = false →
  Forall (λ t, isTyped t = true) ts →
  runEnds post →
  operationRounds (pre ++ o :: ts ++ post)
  = operationRounds pre ++ (invocation o :: typedMembers 1 ts) :: operationRounds post.
Proof.
  intros Ho Hts Hpost.
  assert (rounds [invocation o] (ts ++ post)
          = (invocation o :: typedMembers 1 ts) :: operationRounds post) as Hrun.
  { rewrite rounds_typed by done. by rewrite rounds_ended. }
  destruct pre as [|first pre]; simpl; [done|].
  destruct Ho as [?|Ho]; [done|]. by rewrite rounds_next, Hrun.
Qed.

(** C6: an operation the loop stands on (the first operation, or one that
    is not a [type:] operation) with the maximal run [ts] of [type:]
    operations that follow it gives one step of the text, after the steps of
    the operations before it and before those of the operations after it.
    With no [type:] operation it is the awaited invocation alone; otherwise it
    is one awaited [Promise.all] over the invocation and one typed-text
    promise for each operation of the run, the [k]-th of which is delayed by
    [20 * k] milliseconds, a delay that grows strictly along the run. *)
Theorem typed_run_joined test text pre o ts post :
  stringifyOperations test = Ok text →
  operations test = pre ++ o :: ts ++ post →
  pre = [] ∨ isTyped o = false →
  Forall (λ t, isTyped t = true) ts →
  runEnds post →
  let group := invocation o :: typedMembers 1 ts in
  (∃ config, Forall2 flagStep (flags test) config
     ∧ text = (concat config ++ concat (awaitStep <$> operationRounds pre))
              ++ awaitStep group
              ++ concat (awaitStep <$> operationRounds post))
  ∧ length group = 1 + length ts
  ∧ (ts = [] → awaitStep group = js "await " ++ invocation o ++ js ";" ++ [10%N])
  ∧ (ts ≠ [] →
     awaitStep group
     = js "await Promise.all([" ++ join (js ",") (member <$> group) ++ js "]);")
  ∧ (∀ k t, ts !! k = Some t →
       group !! (S k) = Some (typedPromise t ((k + 1) * 20)))
  ∧ (∀ k k', k < k' → 0 < (k + 1) * 20 < (k' + 1) * 20).
Proof.
  intros (config & Hsteps & ->)%stringifyOperations_Ok Hops Ho Hts Hpost group.
  split_and!.
  - exists config. split; [done|]. unfold operationSteps.
    rewrite Hops, operationRounds_run by done.
    rewrite fmap_app, concat_app. simpl. by rewrite <-!app_assoc.
  - unfold group. simpl. by rewrite typedMembers_length.
  - intros ->. done.
  - intros Hne. unfold group. destruct ts as [|t ts]; done.
  - intros k t Hk. unfold group. simpl.
    rewrite (typedMembers_lookup 1 ts k t Hk). do 3 f_equal. lia.
  - intros k k' Hlt. lia.
Qed.

Lemma typed_run_joined_witness :
  ∃ config, Forall2 flagStep (flags insertThenType) config
    ∧ js "await Promise.all([" ++ [10%N]
      ++ js "  executeCommand(" ++ quoted (js "dance.foo") ++ js "),," ++ [10%N]
      ++ js "  new Promise((resolve) => setTimeout(() => executeCommand("
      ++ quoted (js "type") ++ js ", { text: " ++ quoted (js "a")
      ++ js " }).then(resolve), 20)),," ++ [10%N]
      ++ js "  new Promise((resolve) => setTimeout(() => executeCommand("
      ++ quoted (js "type") ++ js ", { text: " ++ quoted (js "b")
      ++ js " }).then(resolve), 40)),]);"
      ++ js "await executeCommand(" ++ quoted (js "bar") ++ js ");" ++ [10%N]
      = (concat config ++ concat (awaitStep <$> operationRounds []))
        ++ awaitStep (invocation (op ".foo") :: typedMembers 1 [op "type:a"; op "type:b"])
        ++ concat (awaitStep <$> operationRounds [op "bar"]).
Proof.
  refine (proj1 (typed_run_joined insertThenType _ [] (op ".foo")
                   [op "type:a"; op "type:b"] [op "bar"] _ _ _ _ _)).
  - vm_compute. reflexivity.
  - reflexivity.
  - by left.
  - repeat constructor.
  - reflexivity.
Defined.

(** ** A [type:] operation in first place *)

Lemma namespaced_typed o : isTyped o = true → namespaced (command o) = command o.
Proof.
  unfold isTyped, namespaced. destruct (command o) as [|c cmd]; [done|].
  change (js "type:") with (116%N :: js "ype:"). cbn [startsWith].
  intros [<-%N.eqb_eq _]%andb_prop. done.
Qed.

(** C10, as amended: a [type:] operation in first place is not rejected and
    is not merged into the step of another operation; it is emitted as an
    invocation of the command name as written, awaited on its own when no
    [type:] operation follows it, and otherwise as the invoking member of the
    joined step it forms with the [type:] operations that follow it. *)
Theorem leading_type_operation test o ts post :
  operations test = o :: ts ++ post →
  isTyped o = true →
  Forall (λ t, isTyped t = true) ts →
  runEnds post →
  Forall recognized (flags test) →
  ∃ config, Forall2 flagStep (flags test) config
    ∧ stringifyOperations test
      = Ok (concat config
            ++ awaitStep (literalInvocation o :: typedMembers 1 ts)
            ++ concat (awaitStep <$> operationRounds post))
    ∧ (ts = [] →
       awaitStep (literalInvocation o :: typedMembers 1 ts)
       = js "await " ++ literalInvocation o ++ js ";" ++ [10%N])
    ∧ (ts ≠ [] →
       awaitStep (literalInvocation o :: typedMembers 1 ts)
       = js "await Promise.all(["
         ++ join (js ",") (member <$> literalInvocation o :: typedMembers 1 ts)
         ++ js "]);").
Proof.
  intros Hops Ho Hts Hpost Hflags.
  destruct (stringifyFlags_recognized [] _ Hflags) as (config & Hsteps & _).
  assert (stringifyOperations test
          = Ok (concat config ++ concat (operationSteps test))) as Hr.
  { apply stringifyOperations_Ok. by exists config. }
  exists config. split; [done|]. split_and!.
  - rewrite Hr. do 2 f_equal. unfold operationSteps.
    rewrite Hops. change (o :: ts ++ post) with ([] ++ o :: ts ++ post).
    rewrite (operationRounds_run [] o ts post) by auto.
    cbn [operationRounds app fmap list_fmap concat].
    unfold invocation, literalInvocation. by rewrite namespaced_typed.
  - intros ->. done.
  - intros Hne. destruct ts as [|t ts]; done.
Qed.

Lemma leading_type_operation_witness :
  ∃ config, Forall2 flagStep (flags typeFirst) config
    ∧ stringifyOperations typeFirst
      = Ok (concat config
            ++ awaitStep (literalInvocation (op "type:a") :: typedMembers 1 [])
            ++ concat (awaitStep <$> operationRounds [op ".foo"]))
    ∧ (@nil TestOperation = [] →
       awaitStep (literalInvocation (op "type:a") :: typedMembers 1 [])
       = js "await " ++ literalInvocation (op "type:a") ++ js ";" ++ [10%N])
    ∧ (@nil TestOperation ≠ [] →
       awaitStep (literalInvocation (op "type:a") :: typedMembers 1 [])
       = js "await Promise.all(["
         ++ join (js ",") (member <$> literalInvocation (op "type:a") :: typedMembers 1 [])
         ++ js "]);").
Proof.
  apply (leading_type_operation typeFirst (op "type:a") [] [op ".foo"]).
  - reflexivity.
  - vm_compute. reflexivity.
  - constructor.
  - vm_compute. reflexivity.
  - constructor.
Defined.

(** C10, as stated, fails: [type:a] in first place and followed by [type:b]
    is not awaited on its own, the text is one [Promise.all] step over the
    invocation of [type:a] and the typed text [b]. *)
Lemma leading_type_operation_counterexample :
  ¬ (∀ test o rest text,
       operations test = o :: rest →
       isTyped o = true →
       stringifyOperations test = Ok text →
       ∃ config after,
         Forall2 flagStep (flags test) config
         ∧ text = concat config
                  ++ (js "await " ++ literalInvocation o ++ js ";" ++ [10%N])
                  ++ after).
Proof.
  intros H.
  destruct (H typeTwice (op "type:a") [op "type:b"] _ eq_refl eq_refl eq_refl)
    as (config & after & Hconfig & Htext).
  inversion Hconfig; subst. vm_compute in Htext. discriminate Htext.
Qed.

(** ** An error of the parser ends the build *)

Lemma generate_Throw sED unindent lsl file contents e :
  parseMarkdownTests contents = Throw e →
  generate sED unindent lsl file contents = Throw e.
Proof. unfold generate. by intros ->. Qed.

(** ** What the suite holds *)

Lemma testBlocks_Ok sED unindent cp tp tests blocks :
  testBlocks sED unindent cp tp tests = Ok blocks →
  Forall2 (λ t block, testBlock sED unindent cp tp t = Ok block) tests blocks.
Proof.
  revert blocks. induction tests as [|t tests IH]; intros blocks; simpl.
  - intros [= <-]. constructor.
  - intros (block & Hb & (blocks' & Hbs & [= <-])%bind_Ok)%bind_Ok.
    constructor; [done | by apply IH].
Qed.

(** The text written for an accepted file holds one [test(...)] block for
    each Transition, in order, and its [documents] literal lists one property
    resolved at once, [Promise.resolve] of the encoded document, for each
    InitialState and one placeholder property, a promise whose [resolve] is
    stored in [notifyDependents] under the title, for each Transition. *)
Theorem one_test_per_transition sED unindent lsl file contents text :
  generate sED unindent lsl file contents = Ok text →
  ∃ parsed seeds placeholders blocks,
    parseMarkdownTests contents = Ok parsed
    ∧ text = unindent 6 (suiteText file seeds placeholders blocks)
    ∧ length blocks = length (tests parsed)
    ∧ (∀ i t, tests parsed !! i = Some t →
         ∃ block, blocks !! i = Some block
           ∧ testBlock sED unindent (lsl comesAfter (tests parsed))
               (lsl title (tests parsed)) t = Ok block)
    ∧ length seeds = length (setups parsed)
    ∧ (∀ i d, setups parsed !! i = Some d → seeds !! i = Some (seedEntry sED d))
    ∧ length placeholders = length (tests parsed)
    ∧ (∀ i t, tests parsed !! i = Some t →
         placeholders !! i = Some (placeholderEntry t)).
Proof.
  unfold generate.
  intros (parsed & Hparsed & (blocks & Hblocks%testBlocks_Ok & [= <-])%bind_Ok)%bind_Ok.
  exists parsed, (seedEntry sED <$> setups parsed),
    (placeholderEntry <$> tests parsed), blocks.
  split_and!; [done | done | | | | | |].
  - symmetry. by eapply Forall2_length.
  - intros i t Hi. destruct (Forall2_lookup_l _ _ _ _ _ Hblocks Hi) as (b & ? & ?).
    by exists b.
  - by rewrite length_fmap.
  - intros i d Hi. by rewrite list_lookup_fmap, Hi.
  - by rewrite length_fmap.
  - intros i t Hi. by rewrite list_lookup_fmap, Hi.
Qed.

Lemma one_test_per_transition_witness :
  ∃ text parsed seeds placeholders blocks,
    generate (λ code _ _, code) (λ _ text, text) (λ _ _, 0) (js "hello.md")
      helloTransition = Ok text
    ∧ parseMarkdownTests helloTransition = Ok parsed
    ∧ text = suiteText (js "hello.md") seeds placeholders blocks
    ∧ length (setups parsed) = 1 ∧ length (tests parsed) = 1
    ∧ length seeds = 1 ∧ length placeholders = 1 ∧ length blocks = 1.
Proof.
  destruct (generate (λ code _ _, code) (λ _ text, text) (λ _ _, 0) (js "hello.md")
              helloTransition) as [text|e] eqn:Hgen;
    [|vm_compute in Hgen; discriminate Hgen].
  destruct (one_test_per_transition (λ code _ _, code) (λ _ text, text) (λ _ _, 0)
              (js "hello.md") helloTransition text Hgen)
    as (parsed & seeds & placeholders & blocks & Hparsed & Htext & Hblocks & _
        & Hseeds & _ & Hplaceholders & _).
  clear Hgen.
  assert (Some (length (setups parsed), length (tests parsed)) = Some (1, 1)) as Hlen.
  { transitivity (match parseMarkdownTests helloTransition with
                  | Ok q => Some (length (setups q), length (tests q))
                  | Throw _ => None
                  end); [rewrite Hparsed; reflexivity | vm_compute; reflexivity]. }
  injection Hlen as Hs Ht.
  exists text, parsed, seeds, placeholders, blocks.
  split; [reflexivity|]. split; [exact Hparsed|]. split; [exact Htext|].
  clear Hparsed Htext. repeat split; lia.
Defined.

(** ** The table of a file with a repeated title *)

(** C7 does not hold of the suite of a file that is accepted with two
    Transitions of one title: the file has one InitialState and three
    Transitions and its suite loads, but the two properties named B of the
    literal are one property of the table, so [documents] holds three
    promises for four entries and [notifyDependents] two resolvers for three
    Transitions; both tables hold under B the promise of the second
    Transition B, and the promise made for the first one is in neither. *)
Theorem repeated_title_one_table_entry :
  ∃ parsed,
    parseMarkdownTests repeatedB = Ok parsed
    ∧ length (setups parsed) = 1 ∧ length (tests parsed) = 3
    ∧ title <$> tests parsed = [js "B"; js "B"; js "C"]
    ∧ loads parsed = true
    ∧ let σ := initialSuite (λ code, code) (setups parsed) (tests parsed) in
      heap σ = [Fulfilled (Some (js "a" ++ [10%N])); Pending; Pending; Pending]
      ∧ size (documents σ) = 3
      ∧ size (notifyDependents σ) = 2
      ∧ documents σ !! js "B" = Some 2
      ∧ notifyDependents σ !! js "B" = Some 2
      ∧ map_Forall (λ _ address, address ≠ 1) (documents σ)
      ∧ map_Forall (λ _ address, address ≠ 1) (notifyDependents σ).
Proof.
  eexists. split; [vm_compute; reflexivity|].
  split_and!; try (vm_compute; reflexivity).
  intros σ. split_and!; try (vm_compute; reflexivity).
  - apply (bool_decide_unpack _). vm_compute. exact I.
  - apply (bool_decide_unpack _). vm_compute. exact I.
Qed.

(** ** Titles that are not plain *)

(** Two titles that stand for one property name share a promise as two
    equal titles do: the test written [\x42] fails, and the test D, which
    comes after B, runs all the same. *)
Example escaped_title_shares_promise :
  ∃ parsed,
    parseMarkdownTests escapedTitle = Ok parsed
    ∧ title <$> tests parsed = [js "B"; bsl ++ js "x42"; js "D"]
    ∧ propertyName <$> (title <$> tests parsed) = [js "B"; js "B"; js "D"]
    ∧ runSuite (λ code, code) (λ i, if decide (i = 1) then Some tt else None) parsed
      = [Passed; Failed tt; Passed].
Proof.
  eexists. split; [vm_compute; reflexivity|]. split_and!; vm_compute; reflexivity.
Qed.

(** A title with a double quote is accepted by the parser, and the file
    written for it does not load. *)
Example quoted_title_does_not_load :
  ∃ parsed,
    parseMarkdownTests quotedTitle = Ok parsed
    ∧ InitialDocument.title <$> setups parsed = [js "say-" ++ dq ++ js "hi" ++ dq]
    ∧ loads parsed = false.
Proof.
  eexists. split; [vm_compute; reflexivity|]. split_and!; vm_compute; reflexivity.
Qed.

(** A Transition that takes the title of the InitialState replaces its
    promise in [documents]: the first test awaits a promise that only the
    last test settles. *)
Example title_taken_back_stalls :
  ∃ parsed,
    parseMarkdownTests titleTakenBack = Ok parsed
    ∧ runSuite (λ code, code) (λ _ : nat, @None unit) parsed = [Stalled].
Proof.
  eexists. split; [vm_compute; reflexivity|]. vm_compute. reflexivity.
Qed.

(** ** A failed test and its dependents *)

(** C8 does not hold of the suite generated for a file that is accepted with
    two Transitions of one title: both tests named B call the [resolve]
    stored last under B, the first settles that promise with its document,
    the second fails and its call changes nothing, and the test C, which
    comes after B, runs and passes instead of being skipped. *)
Theorem dependent_of_failed_test_runs :
  ∃ parsed,
    parseMarkdownTests repeatedB = Ok parsed
    ∧ title <$> tests parsed = [js "B"; js "B"; js "C"]
    ∧ comesAfter <$> tests parsed = [js "A"; js "A"; js "B"]
    ∧ runSuite (λ code, code) (λ i, if decide (i = 1) then Some tt else None) parsed
      = [Passed; Failed tt; Passed].
Proof. eexists. split; [vm_compute; reflexivity|]. by vm_compute. Qed.

(** ** The suite of a file with pairwise distinct property names *)

Section cascade.
Context {ExpectedDocument failure : Type}.
Variable expected : jsstring → ExpectedDocument.
Variable attempt : nat → option failure.

Local Notation seedPromise :=
  (λ d, Fulfilled (Some (expected (InitialDocument.code d)))).

Lemma foldl_seed (σ : @suiteState ExpectedDocument) setups :
  heap (foldl (seed expected) σ setups) = heap σ ++ (seedPromise <$> setups)
  ∧ notifyDependents (foldl (seed expected) σ setups) = notifyDependents σ
  ∧ (∀ x, x ∉ initialNames setups →
       documents (foldl (seed expected) σ setups) !! x = documents σ !! x)
  ∧ (NoDup (initialNames setups) → ∀ i d, setups !! i = Some d →
       documents (foldl (seed expected) σ setups)
         !! propertyName (InitialDocument.title d)
       = Some (length (heap σ) + i)).
Proof.
  revert σ. induction setups as [|d setups IH]; intros σ.
  - simpl. rewrite app_nil_r. split_and!; done.
  - destruct (IH (seed expected σ d)) as (Hheap & Hnotify & Hother & Hmine).
    simpl. split_and!.
    + rewrite Hheap. simpl. by rewrite <-app_assoc.
    + by rewrite Hnotify.
    + intros x Hx. rewrite Hother by set_solver. simpl.
      apply lookup_insert_ne. set_solver.
    + intros [Hd Hnd]%NoDup_cons [|i] d'; simpl.
      * intros [= <-]. rewrite Hother by done. simpl.
        rewrite lookup_insert_eq. f_equal. lia.
      * intros Hi. rewrite (Hmine Hnd i d' Hi). simpl. rewrite length_app. simpl.
        f_equal. lia.
Qed.

Lemma foldl_placeholder (σ : @suiteState ExpectedDocument) tests :
  heap (foldl placeholder σ tests) = heap σ ++ replicate (length tests) Pending
  ∧ (∀ x, x ∉ testNames tests →
       documents (foldl placeholder σ tests) !! x = documents σ !! x
       ∧ notifyDependents (foldl placeholder σ tests) !! x = notifyDependents σ !! x)
  ∧ (NoDup (testNames tests) → ∀ j t, tests !! j = Some t →
       documents (foldl placeholder σ tests) !! propertyName (title t)
       = Some (length (heap σ) + j)
       ∧ notifyDependents (foldl placeholder σ tests) !! propertyName (title t)
         = Some (length (heap σ) + j)).
Proof.
  revert σ. induction tests as [|t tests IH]; intros σ.
  - simpl. rewrite app_nil_r. split_and!; done.
  - destruct (IH (placeholder σ t)) as (Hheap & Hother & Hmine).
    simpl. split_and!.
    + rewrite Hheap. simpl. by rewrite <-app_assoc.
    + intros x Hx. destruct (Hother x) as [-> ->]; [set_solver|]. simpl.
      rewrite !lookup_insert_ne by set_solver. done.
    + intros [Ht Hnd]%NoDup_cons [|j] t'; simpl.
      * intros [= <-]. destruct (Hother (propertyName (title t))) as [-> ->]; [done|].
        simpl.
        rewrite !lookup_insert_eq, Nat.add_0_r. done.
      * intros Hj. destruct (Hmine Hnd j t' Hj) as [-> ->]. simpl.
        rewrite length_app. simpl. split; f_equal; lia.
Qed.

(** The tables of a suite whose property names are pairwise distinct: every
    name has its own promise, resolved for an initial document and pending
    for a test, and every test has the [resolve] of its own promise. *)
Lemma initialSuite_spec setups tests :
  NoDup (initialNames setups ++ testNames tests) →
  let σ := initialSuite expected setups tests in
  heap σ = (seedPromise <$> setups) ++ replicate (length tests) Pending
  ∧ (∀ i d, setups !! i = Some d →
       documents σ !! propertyName (InitialDocument.title d) = Some i)
  ∧ (∀ j t, tests !! j = Some t →
       documents σ !! propertyName (title t) = Some (length setups + j)
       ∧ notifyDependents σ !! propertyName (title t) = Some (length setups + j)).
Proof.
  intros (Hsetups & Hdisjoint & Htests)%NoDup_app σ. unfold σ, initialSuite.
  destruct (foldl_seed (mkSuite [] ∅ ∅) setups) as (Hheap0 & _ & _ & Hseed).
  destruct (foldl_placeholder (foldl (seed expected) (mkSuite [] ∅ ∅) setups) tests)
    as (Hheap & Hother & Hmine).
  simpl in Hheap0. rewrite Hheap, Hheap0. split_and!; [done | |].
  - intros i d Hi. destruct (Hother (propertyName (InitialDocument.title d))) as [-> _].
    + apply Hdisjoint, list_elem_of_fmap. exists d. split; [done|].
      by eapply list_elem_of_lookup_2.
    + by rewrite (Hseed Hsetups i d Hi).
  - intros j t Hj. destruct (Hmine Htests j t Hj) as [-> ->].
    by rewrite Hheap0, length_fmap.
Qed.
Variable setups : list InitialDocument.
Variable tests : list Test.
Hypothesis loaded : loads (mkParsed setups tests) = true.
Hypothesis distinct : NoDup (initialNames setups ++ testNames tests).
Hypothesis ordered : inOrder setups tests.

Local Notation runInv := (@runInv ExpectedDocument failure expected setups tests).
Local Notation verdict := (@verdict failure attempt setups tests).

(** A test comes after one entry only, an initial document or a test
    before it. *)
Lemma distinct_titles : NoDup (initialTitles setups ++ testTitles tests).
Proof.
  apply (NoDup_fmap_1 propertyName).
  unfold initialNames, testNames, initialTitles, testTitles in *.
  by rewrite fmap_app, <-!list_fmap_compose.
Qed.

Lemma predecessor j tj :
  tests !! j = Some tj →
  (∃ p d, setups !! p = Some d ∧ InitialDocument.title d = comesAfter tj
          ∧ ∀ i ti, tests !! i = Some ti → title ti ≠ comesAfter tj)
  ∨ (∃ i ti, (i < j) ∧ tests !! i = Some ti ∧ title ti = comesAfter tj
             ∧ (comesAfter tj ∉ initialTitles setups)
             ∧ ∀ i' ti', tests !! i' = Some ti' → title ti' = comesAfter tj → i' = i).
Proof.
  intros Hj. pose proof (ordered j tj Hj) as Hknown.
  pose proof distinct_titles as (Hsetups & Hdisjoint & Htests)%NoDup_app.
  unfold knownAt in Hknown. apply elem_of_app in Hknown as [Hin|Hin].
  - left. apply list_elem_of_fmap in Hin as (d & Hd & [p Hp]%list_elem_of_lookup).
    exists p, d. split_and!; [done..|].
    intros i ti Hi Heq. apply (Hdisjoint (comesAfter tj)).
    + apply list_elem_of_fmap. exists d. split; [done|]. by eapply list_elem_of_lookup_2.
    + rewrite <-Heq. apply list_elem_of_fmap. exists ti. split; [done|].
      by eapply list_elem_of_lookup_2.
  - right. apply list_elem_of_fmap in Hin as (ti & Hti & [i Hi]%list_elem_of_lookup).
    apply lookup_take_Some in Hi as [Hi Hlt].
    exists i, ti. split_and!; [done..| |].
    + intros Hinit. apply (Hdisjoint _ Hinit). rewrite Hti.
      apply list_elem_of_fmap. exists ti. split; [done|]. by eapply list_elem_of_lookup_2.
    + intros i' ti' Hi' Heq. eapply (NoDup_lookup _ i' i (comesAfter tj) Htests).
      * unfold testTitles. rewrite list_lookup_fmap, Hi'. simpl. by rewrite Heq.
      * unfold testTitles. rewrite list_lookup_fmap, Hi. simpl. by rewrite Hti.
Qed.

Lemma runInv_initial : runInv 0 [] (initialSuite expected setups tests).
Proof.
  destruct (initialSuite_spec setups tests distinct) as (Hheap & Hdocs & Hnotify).
  unfold runInv. rewrite Hheap. split_and!; try done.
  - rewrite length_app, length_fmap, length_replicate. done.
  - intros i d Hi. rewrite lookup_app_l by (rewrite length_fmap; by eapply lookup_lt_Some).
    by rewrite list_lookup_fmap, Hi.
  - intros j _ Hj. rewrite lookup_app_r by (rewrite length_fmap; lia).
    rewrite length_fmap. replace (length setups + j - length setups) with j by lia.
    by apply lookup_replicate_2.
Qed.

Lemma resolve_pending (σ : @suiteState ExpectedDocument) address v :
  heap σ !! address = Some Pending →
  resolve σ address v
  = mkSuite (<[address := Fulfilled v]> (heap σ)) (documents σ) (notifyDependents σ).
Proof. unfold resolve. by intros ->. Qed.

(** A test whose predecessor is settled ends by settling its own
    placeholder. *)
Lemma notify_own k outs σ t v o :
  runInv k outs σ → tests !! k = Some t →
  v = settledBy expected o t →
  ∃ σ', notify σ (title t) v o = (σ', o) ∧ runInv (S k) (outs ++ [o]) σ'.
Proof.
  intros (Hlen & Hdocs & Hnotify & Hheap & Hseeds & Hdone & Hpending) Hk ->.
  destruct (initialSuite_spec setups tests distinct) as (_ & _ & Htables).
  destruct (Htables k t Hk) as [_ Hmine].
  pose proof (lookup_lt_Some _ _ _ Hk) as Hlt.
  unfold notify. rewrite Hnotify, Hmine.
  rewrite resolve_pending by (apply Hpending; lia).
  eexists. split; [done|]. unfold runInv. simpl. split_and!.
  - rewrite length_app. simpl. lia.
  - done.
  - done.
  - by rewrite length_insert.
  - intros i d Hi. pose proof (lookup_lt_Some _ _ _ Hi).
    rewrite list_lookup_insert_ne by lia. by apply Hseeds.
  - intros j t' o' Hj Ho'. destruct (decide (j = k)) as [->|Hne].
    + rewrite lookup_app_r in Ho' by lia.
      replace (k - length outs) with 0 in Ho' by lia. simpl in Ho'.
      injection Ho' as <-. rewrite Hk in Hj. injection Hj as <-.
      apply list_lookup_insert_eq. lia.
    + rewrite list_lookup_insert_ne by lia. apply Hdone; [done|].
      assert (j < length (outs ++ [o])) as Hjlt by (by eapply lookup_lt_Some).
      rewrite length_app in Hjlt. simpl in Hjlt.
      rewrite lookup_app_l in Ho' by lia. done.
  - intros j Hge Hjlt. rewrite list_lookup_insert_ne by lia. apply Hpending; lia.
Qed.

Lemma runTest_step k outs σ t :
  runInv k outs σ → tests !! k = Some t →
  ∃ σ' o, runTest expected attempt σ k t = (σ', o)
          ∧ runInv (S k) (outs ++ [o]) σ'
          ∧ verdict outs k t o.
Proof.
  intros Hinv Hk.
  pose proof Hinv as (Hlen & Hdocs & Hnotify & Hheap & Hseeds & Hdone & Hpending).
  destruct (initialSuite_spec setups tests distinct) as (_ & Hinitial & Htables).
  unfold runTest. rewrite Hdocs.
  destruct (predecessor k t Hk)
    as [(p & d & Hp & Hd & Hnone)|(i & ti & Hlt & Hi & Hti & Hnotinit & Honly)].
  - rewrite <-Hd, (Hinitial p d Hp), (Hseeds p d Hp).
    destruct (notify_own k outs σ t (settledBy expected (bodyOutcome attempt k) t)
                (bodyOutcome attempt k) Hinv Hk eq_refl) as (σ' & Hn & Hinv').
    exists σ', (bodyOutcome attempt k). split_and!; [|done|].
    + unfold bodyOutcome in *. destruct (attempt k); exact Hn.
    + unfold verdict. split; [done|].
      intros i ti oi Hi Hti _. by destruct (Hnone i ti Hi).
  - destruct (Htables i ti Hi) as [Hdoc _]. rewrite <-Hti, Hdoc.
    assert (is_Some (outs !! i)) as [oi Hoi] by (apply lookup_lt_is_Some; lia).
    rewrite (Hdone i ti oi Hi Hoi).
    set (o := match oi with Passed => bodyOutcome attempt k | _ => Skipped end).
    destruct (notify_own k outs σ t (settledBy expected o t) o Hinv Hk eq_refl)
      as (σ' & Hn & Hinv').
    exists σ', o. split_and!; [|done|].
    + unfold o, bodyOutcome in *. destruct oi; simpl; try exact Hn.
      destruct (attempt k); exact Hn.
    + unfold verdict. split; [intros Hin; by destruct Hnotinit|].
      intros i' ti' oi' Hi' Hti' Hoi'.
      rewrite (Honly i' ti' Hi') in Hoi' by congruence.
      rewrite Hoi in Hoi'. injection Hoi' as <-. done.
Qed.

Lemma verdict_settled outs j tj oj :
  tests !! j = Some tj → verdict outs j tj oj → length outs = j →
  oj = bodyOutcome attempt j ∨ oj = Skipped.
Proof.
  intros Hj [Hinit Hpred] Hlen.
  destruct (predecessor j tj Hj)
    as [(p & d & Hp & Hd & _)|(i & ti & Hlt & Hi & Hti & _ & _)].
  - left. apply Hinit. rewrite <-Hd. apply list_elem_of_fmap. exists d.
    split; [done|]. by eapply list_elem_of_lookup_2.
  - assert (is_Some (outs !! i)) as [oi Hoi] by (apply lookup_lt_is_Some; lia).
    rewrite (Hpred i ti oi Hi Hti Hoi). destruct oi; auto.
Qed.

Lemma verdict_extend outs more j tj oj :
  tests !! j = Some tj → length outs = j →
  verdict outs j tj oj → verdict (outs ++ more) j tj oj.
Proof.
  intros Hj Hlen [Hinit Hpred]. split; [done|].
  intros i ti oi Hi Hti Hoi.
  destruct (predecessor j tj Hj)
    as [(p & d & Hp & Hd & Hnone)|(i0 & ti0 & Hlt & Hi0 & Hti0 & _ & Honly)].
  - by destruct (Hnone i ti Hi).
  - pose proof (Honly i ti Hi Hti) as ->. rewrite lookup_app_l in Hoi by lia.
    by eapply Hpred.
Qed.

Lemma runTests_spec rest k outs σ :
  runInv k outs σ → k ≤ length tests → drop k tests = rest →
  let all := outs ++ runTests expected attempt σ k rest in
  length all = length tests
  ∧ ∀ j tj, k ≤ j → tests !! j = Some tj →
      ∃ oj, all !! j = Some oj ∧ verdict all j tj oj
            ∧ (oj = bodyOutcome attempt j ∨ oj = Skipped).
Proof.
  revert k outs σ. induction rest as [|t rest IH]; intros k outs σ Hinv Hle Hdrop all.
  - unfold all. simpl. rewrite app_nil_r.
    assert (length tests ≤ k) as Hge.
    { apply (f_equal length) in Hdrop. rewrite length_drop in Hdrop. simpl in Hdrop. lia. }
    split; [destruct Hinv as [-> _]; lia|].
    intros j tj Hj Hlook. apply lookup_lt_Some in Hlook. lia.
  - assert (tests !! k = Some t) as Hk.
    { rewrite <-(Nat.add_0_r k), <-lookup_drop, Hdrop. done. }
    assert (drop (S k) tests = rest) as Hdrop'.
    { rewrite <-(Nat.add_1_l k), Nat.add_comm, <-drop_drop, Hdrop. done. }
    destruct (runTest_step k outs σ t Hinv Hk) as (σ' & o & Hrun & Hinv' & Hv).
    pose proof (lookup_lt_Some _ _ _ Hk) as Hlt.
    destruct (IH (S k) (outs ++ [o]) σ' Hinv' Hlt Hdrop') as [Hlen Hrest].
    assert (all = (outs ++ [o]) ++ runTests expected attempt σ' (S k) rest) as Hall.
    { unfold all. simpl. rewrite Hrun. simpl. rewrite <-app_assoc. f_equal.
      destruct Hinv as [Hlenouts _].
      destruct (verdict_settled outs k t o Hk Hv Hlenouts) as [->| ->]; [|done].
      unfold bodyOutcome. by destruct (attempt k). }
    rewrite Hall. split; [done|]. intros j tj Hj Hlook.
    destruct (decide (j = k)) as [->|Hne]; [|apply Hrest; [lia | done]].
    rewrite Hk in Hlook. injection Hlook as <-.
    destruct Hinv as [Hlenouts _].
    exists o. split_and!.
    + rewrite <-app_assoc. rewrite lookup_app_r by lia.
      by replace (k - length outs) with 0 by lia.
    + rewrite <-app_assoc. by apply verdict_extend.
    + by eapply verdict_settled.
Qed.


End cascade.

Lemma chain_loaded : loads (mkParsed chainSetups chainTests) = true.
Proof. vm_compute. reflexivity. Qed.

Lemma chain_distinct : NoDup (initialNames chainSetups ++ testNames chainTests).
Proof. apply (bool_decide_unpack _). vm_compute. exact I. Qed.

Lemma chain_ordered : inOrder chainSetups chainTests.
Proof.
  intros [|[|[|i]]] t; simpl; intros [= <-]; apply (bool_decide_unpack _);
    vm_compute; exact I.
Qed.



(** ** Header lines and parsed entries *)

Lemma search_drop rx s i :
  i ≤ length s →
  search rx (prevAt s i) i (drop i s)
  = match matchesAt rx s i with
    | Some e =>
        Some (mkMatch i (pos e) (<[0 := Some (take (pos e - i) (drop i s))]> (caps e)))
    | None =>
        if decide (i < length s)
        then search rx (prevAt s (S i)) (S i) (drop (S i) s)
        else None
    end.
Proof.
  intros Hle. unfold matchesAt. destruct (drop i s) as [|c l] eqn:Hdrop.
  - simpl. destruct (rmatch _ _ _ _); [done|].
    apply (f_equal length) in Hdrop. rewrite length_drop in Hdrop. simpl in Hdrop.
    by rewrite decide_False by lia.
  - assert (s !! i = Some c) as Hc.
    { rewrite <-(Nat.add_0_r i), <-lookup_drop, Hdrop. done. }
    pose proof (lookup_lt_Some _ _ _ Hc).
    rewrite (drop_S s c i Hc) in Hdrop. injection Hdrop as <-.
    simpl. destruct (rmatch _ _ _ _); [done|].
    rewrite decide_True by done. by rewrite Hc.
Qed.

(** [exec] returns the first match at or after [lastIndex]. *)
Lemma exec_first rx s from :
  match exec rx s from with
  | Some mt =>
      from ≤ index mt ≤ length s
      ∧ (∃ e, matchesAt rx s (index mt) = Some e ∧ lastIndex mt = pos e)
      ∧ ∀ j, from ≤ j < index mt → matchesAt rx s j = None
  | None => ∀ j, from ≤ j ≤ length s → matchesAt rx s j = None
  end.
Proof.
  unfold exec. case_decide as Hle; [|intros j; lia].
  remember (length s - from) as n eqn:Hn. revert from Hle Hn.
  induction n as [|n IH]; intros from Hle Hn; rewrite search_drop by done.
  - destruct (matchesAt rx s from) as [e|] eqn:He; cbn [index lastIndex].
    + split_and!; [lia | lia | by exists e | intros j; lia].
    + rewrite decide_False by lia. intros j Hj. by replace j with from by lia.
  - destruct (matchesAt rx s from) as [e|] eqn:He; cbn [index lastIndex].
    + split_and!; [lia | lia | by exists e | intros j; lia].
    + rewrite decide_True by lia.
      specialize (IH (S from) ltac:(lia) ltac:(lia)).
      destruct (search rx (prevAt s (S from)) (S from) (drop (S from) s)) as [mt|].
      * destruct IH as (Hidx & Hm & Hnone). split_and!; [lia | lia | done |].
        intros j Hj. destruct (decide (j = from)) as [->|]; [done|]. apply Hnone. lia.
      * intros j Hj. destruct (decide (j = from)) as [->|]; [done|]. apply IH. lia.
Qed.

Lemma matchLit_startsWith k s p i cs l :
  startsWith s l = false → matchLit k s p i cs l = None.
Proof.
  revert p i l. induction s as [|a s IH]; intros p i [|c l]; simpl; try done.
  destruct (a =? c)%N; simpl; [apply IH | done].
Qed.

Lemma startsWith_app s l : startsWith s (s ++ l) = true.
Proof. induction s as [|a s IH]; simpl; [done|]. by rewrite N.eqb_refl. Qed.

Lemma startsWith_inv s l : startsWith s l = true → ∃ l', l = s ++ l'.
Proof.
  revert l. induction s as [|a s IH]; intros l; simpl; [by exists l|].
  destruct l as [|c l]; [done|].
  intros [->%N.eqb_eq [l' ->]%IH]%andb_prop. by exists l'.
Qed.

(** The header pattern matches exactly where a header line starts, and
    takes two code units. *)
Lemma matchesAt_headerre s i :
  match matchesAt headerre s i with
  | Some e => headerAt s i = true ∧ pos e = i + 2
  | None => headerAt s i = false
  end.
Proof.
  unfold matchesAt, headerAt. cbn [headerre pattern multiline groups rmatch].
  unfold atLineStart. cbn [prev pos rest caps].
  destruct (prevAt s i) as [c|]; [destruct (isLineTerminator c)|]; cbn [andb].
  2: done.
  all: destruct (startsWith (js "# ") (drop i s)) eqn:Hs;
    [ apply startsWith_inv in Hs as [l' ->]; rewrite matchLit_app; done
    | by rewrite matchLit_startsWith ].
Qed.

(** An entry starts where a header line starts. *)
Lemma matchesAt_re s i e : matchesAt re s i = Some e → headerAt s i = true.
Proof.
  unfold matchesAt, headerAt. cbn [re pattern multiline groups rmatch].
  unfold atLineStart. cbn [prev pos rest caps].
  destruct (prevAt s i) as [c|]; [destruct (isLineTerminator c)|]; cbn [andb].
  2: done.
  all: intros (p' & l' & -> & _)%matchLit_inv; apply startsWith_app.
Qed.

Lemma headerAt_bound s i : headerAt s i = true → i < length s.
Proof.
  unfold headerAt. intros [_ [l' Hl]%startsWith_inv]%andb_prop.
  apply (f_equal length) in Hl. rewrite length_drop, length_app in Hl.
  change (length (js "# ")) with 2 in Hl. lia.
Qed.

(** No line starts right after the [#] of a header line. *)
Lemma headerAt_next s i : headerAt s i = true → headerAt s (S i) = false.
Proof.
  unfold headerAt. intros [_ [l' Hl]%startsWith_inv]%andb_prop.
  assert (s !! i = Some 35%N) as Hc.
  { rewrite <-(Nat.add_0_r i), <-lookup_drop, Hl. done. }
  simpl. by rewrite Hc.
Qed.

Lemma seq_split from n j :
  from ≤ j → j < from + n →
  seq from n = seq from (j - from) ++ j :: seq (S j) (from + n - S j).
Proof.
  intros Hle Hlt. replace n with ((j - from) + S (from + n - S j)) at 1 by lia.
  rewrite seq_app. simpl. by replace (from + (j - from)) with j by lia.
Qed.

Lemma filter_seq_nil (P : nat → Prop) `{!∀ i, Decision (P i)} from n :
  (∀ j, from ≤ j < from + n → ¬ P j) → filter P (seq from n) = [].
Proof.
  revert from. induction n as [|n IH]; intros from Hnone; simpl; [done|].
  rewrite filter_cons_False by (apply Hnone; lia). apply IH. intros j Hj. apply Hnone. lia.
Qed.

Lemma sublist_same_length {A} (l k : list A) :
  l `sublist_of` k → length k ≤ length l → l = k.
Proof.
  induction 1 as [|x l k _ IH|x l k Hsub _]; simpl; intros Hlen.
  - done.
  - f_equal. apply IH. lia.
  - apply sublist_length in Hsub. lia.
Qed.

(** The matches of the header pattern are the header lines. *)
Lemma execAllFrom_headerre s fuel from :
  from ≤ length s → length s - from < fuel →
  index <$> execAllFrom fuel headerre s from
  = filter (λ i, headerAt s i = true) (seq from (length s - from)).
Proof.
  revert from. induction fuel as [|fuel IH]; intros from Hle Hfuel; [lia|]. simpl.
  pose proof (exec_first headerre s from) as Hfirst.
  destruct (exec headerre s from) as [mt|].
  - destruct Hfirst as (Hidx & (e & He & Hlast) & Hnone).
    pose proof (matchesAt_headerre s (index mt)) as Hm. rewrite He in Hm.
    destruct Hm as [Hheader Hpos]. pose proof (headerAt_bound _ _ Hheader) as Hlt.
    rewrite (seq_split from (length s - from) (index mt)) by lia.
    rewrite filter_app, filter_cons_True by done.
    rewrite filter_seq_nil.
    2: { intros j Hj. pose proof (matchesAt_headerre s j) as Hj'.
         rewrite Hnone in Hj' by lia. by rewrite Hj'. }
    simpl. f_equal.
    assert (lastIndex mt ≤ length s) as Hend.
    { rewrite Hlast, Hpos. apply headerAt_bound in Hheader as Hb.
      unfold headerAt in Hheader. apply andb_prop in Hheader as [_ [l' Hl]%startsWith_inv].
      apply (f_equal length) in Hl. rewrite length_drop, length_app in Hl.
      change (length (js "# ")) with 2 in Hl. lia. }
    rewrite IH by lia. rewrite Hlast, Hpos.
    replace (from + (length s - from) - S (index mt))
      with (S (length s - (index mt + 2))) by lia.
    simpl. rewrite filter_cons_False by (by rewrite (headerAt_next _ _ Hheader)).
    by replace (S (S (index mt))) with (index mt + 2) by lia.
  - simpl. rewrite filter_seq_nil; [done|]. intros j Hj.
    pose proof (matchesAt_headerre s j) as Hj'. rewrite Hfirst in Hj' by lia.
    by rewrite Hj'.
Qed.

(** The entries start at header lines, in the order of the text. *)
Lemma execAllFrom_re_sublist s fuel from :
  from ≤ length s →
  index <$> execAllFrom fuel re s from
  `sublist_of` filter (λ i, headerAt s i = true) (seq from (length s - from)).
Proof.
  revert from. induction fuel as [|fuel IH]; intros from Hle; [apply sublist_nil_l|].
  simpl. pose proof (exec_first re s from) as Hfirst.
  pose proof (exec_inv re s from) as Hinv.
  destruct (exec re s from) as [mt|]; [|apply sublist_nil_l].
  destruct Hfirst as (Hidx & (e & He & Hlast) & _).
  destruct (Hinv mt eq_refl) as (_ & Hmin & Hend).
  assert (0 < minLength (pattern re)) as Hpos by (vm_compute; lia).
  pose proof (matchesAt_re s _ e He) as Hheader.
  pose proof (headerAt_bound _ _ Hheader) as Hlt.
  rewrite (seq_split from (length s - from) (index mt)) by lia.
  rewrite filter_app, filter_cons_True by done.
  apply sublist_inserts_l. simpl. apply sublist_skip.
  replace (from + (length s - from) - S (index mt))
    with ((lastIndex mt - S (index mt)) + (length s - lastIndex mt)) by lia.
  rewrite seq_app, filter_app. apply sublist_inserts_l.
  replace (S (index mt) + (lastIndex mt - S (index mt))) with (lastIndex mt) by lia.
  by apply IH.
Qed.

(** In an accepted file every line that begins with [# ] is the first line
    of a parsed entry. *)
Lemma accepted_headers_parsed contents parsed :
  parseMarkdownTests contents = Ok parsed →
  index <$> execAll re contents = headerLines contents.
Proof.
  intros (_ & Hcount & _)%parseMarkdownTests_Ok.
  rewrite parseEntries_length in Hcount. unfold headerCount in Hcount.
  pose proof (execAllFrom_headerre contents (S (length contents)) 0
                (Nat.le_0_l _) ltac:(lia)) as Hheaders.
  pose proof (execAllFrom_re_sublist contents (S (length contents)) 0
                (Nat.le_0_l _)) as Hsub.
  rewrite Nat.sub_0_r in Hheaders, Hsub. fold (headerLines contents) in Hheaders, Hsub.
  fold (execAll headerre contents) in Hheaders. fold (execAll re contents) in Hsub.
  apply sublist_same_length; [done|].
  rewrite <-Hheaders, !length_fmap. lia.
Qed.

Lemma headerCount_lines contents : headerCount contents = length (headerLines contents).
Proof.
  unfold headerCount, execAll, headerLines.
  rewrite <-(length_fmap index), execAllFrom_headerre by lia.
  by rewrite Nat.sub_0_r.
Qed.

(** C3: the header count is the number of lines of the text that begin with
    [# ].  When it differs from the number of parsed entries,
    [parseMarkdownTests] throws the assertion error "not all tests were
    parsed", and [build], on reaching the file, stops with that error and
    leaves the directory as it was: nothing is written for the file.  A file
    that is accepted has as many parsed entries as header lines, and every
    header line is the first line of a parsed entry: none is left out. *)
Theorem header_count_checked contents :
  headerCount contents = length (headerLines contents)
  ∧ (headerCount contents
     ≠ length (parseEntries contents).2 + length (parseEntries contents).1 →
     parseMarkdownTests contents
     = Throw (AssertionError (js "not all tests were parsed"))
     ∧ ∀ sED unindent lsl dir file fileNames,
         readFile dir file = Some contents →
         buildFiles sED unindent lsl dir (file :: fileNames)
         = (dir, Some (AssertionError (js "not all tests were parsed"))))
  ∧ (∀ parsed, parseMarkdownTests contents = Ok parsed →
       length (tests parsed) + length (setups parsed) = length (headerLines contents)
       ∧ index <$> execAll re contents = headerLines contents).
Proof.
  split_and!.
  - apply headerCount_lines.
  - intros Hcount.
    assert (parseMarkdownTests contents
            = Throw (AssertionError (js "not all tests were parsed"))) as Hr.
    { rewrite parseMarkdownTests_unfold. by rewrite bool_decide_eq_false_2. }
    split; [done|]. intros sED unindent lsl dir file fileNames Hread. simpl.
    by rewrite Hread, (generate_Throw _ _ _ _ _ _ Hr).
  - intros parsed Hparsed. split; [|by eapply accepted_headers_parsed].
    apply parseMarkdownTests_Ok in Hparsed as (-> & Hcount & _). simpl.
    by rewrite <-headerCount_lines.
Qed.

Lemma header_count_checked_witness :
  headerLines unterminatedFence = [0; 15]
  ∧ parseMarkdownTests unterminatedFence
    = Throw (AssertionError (js "not all tests were parsed"))
  ∧ buildFiles (λ code _ _, code) (λ _ text, text) (λ _ _, 0)
      [(js "a.md", unterminatedFence); (js "b.md", repeatedTitles)]
      [js "a.md"; js "b.md"]
    = ([(js "a.md", unterminatedFence); (js "b.md", repeatedTitles)],
       Some (AssertionError (js "not all tests were parsed"))).
Proof.
  split; [vm_compute; reflexivity|].
  destruct (proj1 (proj2 (header_count_checked unterminatedFence))) as [Hr Hb].
  - vm_compute. lia.
  - split; [exact Hr|]. apply Hb. vm_compute. reflexivity.
Defined.

(** ** repeatInsert: the commands it replays *)

Module OldInsertFacts.
Import OldInsert.

Section facts.
Variable SwitchToInsertBefore : Z.
Variable SwitchToNormal : Z.

Local Notation entersInsert c := (hasFlag (descriptorFlags c) SwitchToInsertBefore).
Local Notation leavesInsert c := (hasFlag (descriptorFlags c) SwitchToNormal).
Local Notation window := (OldInsert.window SwitchToInsertBefore SwitchToNormal).

Lemma scanDown_Some cmds i s :
  scanDown SwitchToInsertBefore cmds i = Some s →
  s ≤ i
  ∧ (∃ c, cmds !! s = Some c ∧ entersInsert c = true)
  ∧ ∀ j c, s < j ≤ i → cmds !! j = Some c → entersInsert c = false.
Proof.
  induction i as [|i IH]; simpl.
  - destruct (cmds !! 0) as [c|] eqn:Hc; [|done].
    destruct (entersInsert c) eqn:Hf; [|done]. intros [= <-].
    split_and!; [lia | by exists c | intros j c'; lia].
  - destruct (cmds !! S i) as [c|] eqn:Hc.
    + destruct (entersInsert c) eqn:Hf.
      * intros [= <-]. split_and!; [lia | by exists c | intros j c'; lia].
      * intros (Hle & Hs & Habove)%IH. split_and!; [lia | done |].
        intros j c' Hj Hc'. destruct (decide (j = S i)) as [->|]; [congruence|].
        eapply Habove; [|done]. lia.
    + intros (Hle & Hs & Habove)%IH. split_and!; [lia | done |].
      intros j c' Hj Hc'. destruct (decide (j = S i)) as [->|]; [congruence|].
      eapply Habove; [|done]. lia.
Qed.

Lemma scanDown_None cmds i :
  scanDown SwitchToInsertBefore cmds i = None →
  ∀ j c, j ≤ i → cmds !! j = Some c → entersInsert c = false.
Proof.
  induction i as [|i IH]; simpl.
  - destruct (cmds !! 0) as [c|] eqn:Hc.
    + destruct (entersInsert c) eqn:Hf; [done|]. intros _ j c' Hj.
      replace j with 0 by lia. congruence.
    + intros _ j c' Hj. replace j with 0 by lia. congruence.
  - destruct (cmds !! S i) as [c|] eqn:Hc.
    + destruct (entersInsert c) eqn:Hf; [done|]. intros Hnone j c' Hj Hc'.
      destruct (decide (j = S i)) as [->|]; [congruence|]. eapply IH; [done| |done]. lia.
    + intros Hnone j c' Hj Hc'.
      destruct (decide (j = S i)) as [->|]; [congruence|]. eapply IH; [done| |done]. lia.
Qed.

Lemma scanUp_Some i rest e :
  scanUp SwitchToNormal i rest = Some e →
  ∃ k c, e = i + k ∧ rest !! k = Some c ∧ leavesInsert c = true
         ∧ ∀ k' c', k' < k → rest !! k' = Some c' → leavesInsert c' = false.
Proof.
  revert i. induction rest as [|c rest IH]; intros i; simpl; [done|].
  destruct (leavesInsert c) eqn:Hf.
  - intros [= <-]. exists 0, c. split_and!; [lia | done | done | intros k' c'; lia].
  - intros (k & c0 & -> & Hk & Hc0 & Hbefore)%IH. exists (S k), c0.
    split_and!; [lia | done | done |].
    intros [|k'] c' Hlt; simpl; [congruence|]. apply Hbefore. lia.
Qed.

Lemma scanUp_None i rest :
  scanUp SwitchToNormal i rest = None →
  ∀ k c, rest !! k = Some c → leavesInsert c = false.
Proof.
  revert i. induction rest as [|c rest IH]; intros i; simpl; [done|].
  destruct (leavesInsert c) eqn:Hf; [done|].
  intros Hnone [|k] c'; simpl; [congruence | by eapply IH].
Qed.

Lemma window_unique cmds start finish start' finish' :
  window cmds start finish → window cmds start' finish' →
  start = start' ∧ finish = finish'.
Proof.
  intros ((c & Hc & Hf) & Hlast & Hlt & (d & Hd & Hg) & Hfirst)
         ((c' & Hc' & Hf') & Hlast' & Hlt' & (d' & Hd' & Hg') & Hfirst').
  assert (start = start') as <-.
  { destruct (Nat.lt_trichotomy start start') as [H|[H|H]]; [|done|].
    - rewrite (Hlast start' c' H Hc') in Hf'. done.
    - rewrite (Hlast' start c H Hc) in Hf. done. }
  split; [done|].
  destruct (Nat.lt_trichotomy finish finish') as [H|[H|H]]; [|done|].
  - rewrite (Hfirst' finish d ltac:(lia) Hd) in Hg. done.
  - rewrite (Hfirst finish' d' ltac:(lia) Hd') in Hg'. done.
Qed.

Lemma repeatInsert_window n cmds command edits :
  repeatInsert SwitchToInsertBefore SwitchToNormal n cmds = Some (command, edits) →
  ∃ start finish,
    window cmds start finish ∧ cmds !! start = Some command
    ∧ edits = concat (replicate (repetitions n) (replayOnce cmds start finish)).
Proof.
  unfold repeatInsert. destruct (length cmds) as [|last] eqn:Hlen; [done|].
  destruct (scanDown _ cmds last) as [start|] eqn:Hdown; [|done].
  destruct (scanUp _ _ _) as [finish|] eqn:Hup; [|done].
  destruct (cmds !! start) as [c|] eqn:Hc; [|done]. intros [= <- <-].
  apply scanDown_Some in Hdown as (Hle & (c' & Hc' & Hf) & Habove).
  apply scanUp_Some in Hup as (k & d & -> & Hk & Hd & Hbefore).
  rewrite lookup_drop in Hk.
  exists start, (S start + k). split; [|done]. split_and!.
  - by exists c'.
  - intros j cj Hj Hcj. apply (Habove j cj); [|done].
    apply lookup_lt_Some in Hcj. lia.
  - lia.
  - by exists d.
  - intros j cj Hj Hcj. apply (Hbefore (j - S start) cj); [lia|].
    rewrite lookup_drop. by replace (S start + (j - S start)) with j by lia.
Qed.

Lemma window_repeatInsert n cmds start finish :
  window cmds start finish →
  ∃ command, cmds !! start = Some command
    ∧ repeatInsert SwitchToInsertBefore SwitchToNormal n cmds
      = Some (command, concat (replicate (repetitions n) (replayOnce cmds start finish))).
Proof.
  intros Hw. pose proof Hw as ((c & Hc & Hf) & Hlast & Hlt & (d & Hd & Hg) & Hfirst).
  exists c. split; [done|].
  destruct (repeatInsert _ _ n cmds) as [[command edits]|] eqn:Hr.
  - apply repeatInsert_window in Hr as (s & e & Hw' & Hs & ->).
    destruct (window_unique _ _ _ _ _ Hw Hw') as [<- <-]. congruence.
  - exfalso. unfold repeatInsert in Hr.
    pose proof (lookup_lt_Some _ _ _ Hc) as Hsl. pose proof (lookup_lt_Some _ _ _ Hd) as Hfl.
    destruct (length cmds) as [|last] eqn:Hlen; [lia|].
    destruct (scanDown _ cmds last) as [s|] eqn:Hdown.
    + apply scanDown_Some in Hdown as (Hle & (c' & Hc' & Hf') & Habove).
      assert (s = start) as ->.
      { destruct (Nat.lt_trichotomy s start) as [H|[H|H]]; [|done|].
        - rewrite (Habove start c ltac:(lia) Hc) in Hf. done.
        - rewrite (Hlast s c' H Hc') in Hf'. done. }
      destruct (scanUp _ _ _) as [e|] eqn:Hup.
      * by rewrite Hc in Hr.
      * pose proof (scanUp_None _ _ Hup (finish - S start) d) as Hno.
        rewrite lookup_drop in Hno.
        replace (S start + (finish - S start)) with finish in Hno by lia.
        rewrite Hno in Hg by done. done.
    + rewrite (scanDown_None _ _ Hdown start c ltac:(lia) Hc) in Hf. done.
Qed.
(** X14: [repeatInsert] does nothing, neither executing a command nor
    editing, exactly when no recorded command enters insert mode or no
    command recorded after the last one that does leaves it. *)
Theorem nothing_without_window n cmds :
  repeatInsert SwitchToInsertBefore SwitchToNormal n cmds = None ↔
  (∀ j c, cmds !! j = Some c → entersInsert c = false)
  ∨ (∃ start c, cmds !! start = Some c ∧ entersInsert c = true
       ∧ ∀ j c', start < j → cmds !! j = Some c' →
           entersInsert c' = false ∧ leavesInsert c' = false).
Proof.
  split.
  - unfold repeatInsert. destruct (length cmds) as [|last] eqn:Hlen.
    { intros _. left. intros j c Hj%lookup_lt_Some. lia. }
    destruct (scanDown _ cmds last) as [start|] eqn:Hdown.
    + apply scanDown_Some in Hdown as (Hle & (c & Hc & Hf) & Habove).
      destruct (scanUp _ _ _) as [finish|] eqn:Hup; [by rewrite Hc|].
      intros _. right. exists start, c. split_and!; [done..|].
      intros j c' Hj Hc'. split.
      * apply (Habove j c'); [|done]. apply lookup_lt_Some in Hc'. lia.
      * apply (scanUp_None _ _ Hup (j - S start) c'). rewrite lookup_drop.
        by replace (S start + (j - S start)) with j by lia.
    + intros _. left. intros j c Hc. apply (scanDown_None _ _ Hdown j c); [|done].
      apply lookup_lt_Some in Hc. lia.
  - intros Hno. destruct (repeatInsert _ _ n cmds) as [[command edits]|] eqn:Hr; [|done].
    exfalso. apply repeatInsert_window in Hr
      as (s & e & ((c & Hc & Hf) & Hlast & Hlt & (d & Hd & Hg) & Hfirst) & _).
    destruct Hno as [Hnone|(start & c0 & Hc0 & Hf0 & Hafter)].
    + rewrite (Hnone s c Hc) in Hf. done.
    + destruct (Nat.lt_trichotomy s start) as [H|[->|H]].
      * rewrite (Hlast start c0 H Hc0) in Hf0. done.
      * destruct (Hafter e d Hlt Hd) as [_ Hg']. rewrite Hg' in Hg. done.
      * destruct (Hafter s c H Hc) as [Hf' _]. rewrite Hf' in Hf. done.
Qed.

Lemma editsAt_changes cmds j c :
  cmds !! j = Some c → editsAt cmds j = editOf <$> default [] (followingChanges c).
Proof. unfold editsAt. intros ->. by destruct (followingChanges c). Qed.

Lemma replayOnce_changes cmds start finish :
  start ≤ finish → finish < length cmds →
  replayOnce cmds start finish = editOf <$> changesIn cmds start finish.
Proof.
  intros Hle Hlt. unfold replayOnce, changesIn.
  remember (S finish - start) as n eqn:Hn.
  assert (start + n ≤ length cmds) as Hbound by lia. clear Hn Hle Hlt finish.
  revert start Hbound. induction n as [|n IH]; intros start Hbound; [done|].
  destruct (cmds !! start) as [c|] eqn:Hc;
    [|apply lookup_ge_None in Hc; lia].
  rewrite (drop_S cmds c start Hc). simpl.
  rewrite (editsAt_changes _ _ _ Hc), IH by lia.
  by rewrite fmap_app.
Qed.

(** X13: [repeatInsert] replays exactly one stretch of the history: it
    executes the last recorded command that enters insert mode, and the calls
    on the edit builder are those of the recorded changes of the commands from
    that one to the first later command that leaves insert mode, in order, the
    whole repeated [currentCount] times, or once when the count is 0. *)
Theorem replays_last_insertion n cmds command edits :
  repeatInsert SwitchToInsertBefore SwitchToNormal n cmds = Some (command, edits) ↔
  ∃ start finish,
    window cmds start finish ∧ cmds !! start = Some command
    ∧ edits = concat (replicate (repetitions n) (editOf <$> changesIn cmds start finish)).
Proof.
  split.
  - intros (start & finish & Hw & Hc & ->)%repeatInsert_window.
    exists start, finish. split_and!; [done..|].
    pose proof Hw as (_ & _ & Hlt & (d & Hd%lookup_lt_Some & _) & _).
    by rewrite replayOnce_changes by lia.
  - intros (start & finish & Hw & Hc & ->).
    destruct (window_repeatInsert n cmds start finish Hw) as (c & Hc' & ->).
    pose proof Hw as (_ & _ & Hlt & (d & Hd%lookup_lt_Some & _) & _).
    rewrite replayOnce_changes by lia. congruence.
Qed.

Lemma concat_replicate_length {A} n (l : list A) :
  length (concat (replicate n l)) = n * length l.
Proof. induction n as [|n IH]; simpl; [done|]. rewrite length_app, IH. lia. Qed.

(** X15: the number of calls on the edit builder is the number of recorded
    changes in the replayed stretch times the count, a count of 0 standing for
    1; a change of range length 0 gives an insertion at the active position
    and any other change a replacement of the selection, with the text of the
    change. *)
Theorem one_edit_per_change n cmds command edits :
  repeatInsert SwitchToInsertBefore SwitchToNormal n cmds = Some (command, edits) →
  ∃ start finish,
    window cmds start finish
    ∧ length edits = (if decide (n = 0) then 1 else n) * length (changesIn cmds start finish)
    ∧ ∀ i edit, edits !! i = Some edit →
        ∃ change,
          changesIn cmds start finish !! (i `mod` length (changesIn cmds start finish))
          = Some change
          ∧ edit = (if decide (rangeLength change = 0)
                    then InsertAtActive (changeText change)
                    else ReplaceSelection (changeText change)).
Proof.
  intros (start & finish & Hw & Hc & ->)%repeatInsert_window.
  exists start, finish. split; [done|].
  pose proof Hw as (_ & _ & Hlt & (d & Hd%lookup_lt_Some & _) & _).
  rewrite replayOnce_changes by lia.
  set (changes := changesIn cmds start finish).
  split.
  - rewrite concat_replicate_length, length_fmap. unfold repetitions.
    destruct n; simpl; done.
  - generalize (repetitions n). intros m.
    induction m as [|m IH]; intros i edit; simpl; [done|].
    destruct (decide (i < length changes)) as [Hi|Hi].
    + rewrite lookup_app_l by (by rewrite length_fmap).
      rewrite list_lookup_fmap, Nat.mod_small by done.
      destruct (changes !! i) as [change|]; [|done]. simpl. intros [= <-].
      by exists change.
    + rewrite lookup_app_r by (rewrite length_fmap; lia). rewrite length_fmap.
      intros (change & Hchange & ->)%IH. exists change. split; [|done].
      rewrite <-Hchange. f_equal.
      replace i with ((i - length changes) + 1 * length changes) at 1 by lia.
      by rewrite Nat.Div0.mod_add.
Qed.

Lemma window_shift pre cmds start finish :
  window (pre ++ cmds) (length pre + start) (length pre + finish)
  ↔ window cmds start finish.
Proof.
  unfold OldInsert.window. rewrite !lookup_app_r by lia.
  replace (length pre + start - length pre) with start by lia.
  replace (length pre + finish - length pre) with finish by lia.
  split; intros (Hs & Hlast & Hlt & Hf & Hfirst); split_and!; try done; try lia.
  - intros j c Hj Hc. apply (Hlast (length pre + j) c); [lia|].
    rewrite lookup_app_r by lia. by replace (length pre + j - length pre) with j by lia.
  - intros j c Hj Hc. apply (Hfirst (length pre + j) c); [lia|].
    rewrite lookup_app_r by lia. by replace (length pre + j - length pre) with j by lia.
  - intros j c Hj Hc. rewrite lookup_app_r in Hc by lia.
    apply (Hlast (j - length pre) c); [lia | done].
  - intros j c Hj Hc. rewrite lookup_app_r in Hc by lia.
    apply (Hfirst (j - length pre) c); [lia | done].
Qed.

Lemma replayOnce_shift pre cmds start finish :
  replayOnce (pre ++ cmds) (length pre + start) (length pre + finish)
  = replayOnce cmds start finish.
Proof.
  unfold replayOnce.
  replace (S (length pre + finish) - (length pre + start)) with (S finish - start) by lia.
  generalize (S finish - start). intros n. revert start.
  induction n as [|n IH]; intros start; simpl; [done|].
  f_equal.
  - unfold editsAt. rewrite lookup_app_r by lia.
    by replace (length pre + start - length pre) with start by lia.
  - rewrite <-IH. by replace (S (length pre + start)) with (length pre + S start) by lia.
Qed.

(** X16: what was recorded before the last command that enters insert mode
    does not matter: with such a command in [cmds], any history [pre] put
    before [cmds] leaves the result as it is. *)
Theorem earlier_history_ignored n pre cmds :
  (∃ j c, cmds !! j = Some c ∧ entersInsert c = true) →
  repeatInsert SwitchToInsertBefore SwitchToNormal n (pre ++ cmds)
  = repeatInsert SwitchToInsertBefore SwitchToNormal n cmds.
Proof.
  intros (e & ce & Hce & Hfe).
  destruct (repeatInsert _ _ n cmds) as [[command edits]|] eqn:Hr.
  - apply repeatInsert_window in Hr as (start & finish & Hw & Hc & ->).
    apply (window_shift pre) in Hw as Hw'.
    destruct (window_repeatInsert n _ _ _ Hw') as (c & Hc' & ->).
    rewrite lookup_app_r in Hc' by lia.
    replace (length pre + start - length pre) with start in Hc' by lia.
    rewrite replayOnce_shift. congruence.
  - destruct (repeatInsert _ _ n (pre ++ cmds)) as [[command edits]|] eqn:Hr'; [|done].
    exfalso. apply repeatInsert_window in Hr' as (start & finish & Hw & _).
    assert (length pre ≤ start) as Hge.
    { destruct Hw as (_ & Hlast & _).
      destruct (decide (length pre ≤ start)) as [|Hlt]; [done|].
      rewrite (Hlast (length pre + e) ce) in Hfe; [done | lia |].
      rewrite lookup_app_r by lia. by replace (length pre + e - length pre) with e by lia. }
    assert (start < finish) as Hlt by (by destruct Hw as (_ & _ & ? & _)).
    replace start with (length pre + (start - length pre)) in Hw by lia.
    replace finish with (length pre + (finish - length pre)) in Hw by lia.
    apply window_shift in Hw.
    destruct (window_repeatInsert n _ _ _ Hw) as (c & _ & Hsome). congruence.
Qed.
End facts.

Lemma one_edit_per_change_witness :
  repeatInsert 2 1 2 lastInsertion
  = Some (mkCommand 2 (Some [mkChange 0 (js "a")]),
          [InsertAtActive (js "a"); ReplaceSelection (js "b");
           InsertAtActive (js "a"); ReplaceSelection (js "b")])
  ∧ ∃ start finish,
      OldInsert.window 2 1 lastInsertion start finish
      ∧ length [InsertAtActive (js "a"); ReplaceSelection (js "b");
                InsertAtActive (js "a"); ReplaceSelection (js "b")]
        = (if decide (2 = 0) then 1 else 2) * length (changesIn lastInsertion start finish)
      ∧ ∀ i edit,
          [InsertAtActive (js "a"); ReplaceSelection (js "b");
           InsertAtActive (js "a"); ReplaceSelection (js "b")] !! i = Some edit →
          ∃ change,
            changesIn lastInsertion start finish
              !! (i `mod` length (changesIn lastInsertion start finish))
            = Some change
            ∧ edit = (if decide (rangeLength change = 0)
                      then InsertAtActive (changeText change)
                      else ReplaceSelection (changeText change)).
Proof.
  split; [reflexivity|].
  apply (one_edit_per_change 2 1 2 lastInsertion
           (mkCommand 2 (Some [mkChange 0 (js "a")]))).
  reflexivity.
Defined.

Lemma earlier_history_ignored_witness :
  (∃ j c, lastInsertion !! j = Some c ∧ hasFlag (descriptorFlags c) 2 = true)
  ∧ repeatInsert 2 1 0 (earlierInsertion ++ lastInsertion)
    = repeatInsert 2 1 0 lastInsertion.
Proof.
  assert (∃ j c, lastInsertion !! j = Some c ∧ hasFlag (descriptorFlags c) 2 = true)
    as Henters.
  { exists 0, (mkCommand 2 (Some [mkChange 0 (js "a")])). split; reflexivity. }
  split; [exact Henters|].
  exact (earlier_history_ignored 2 1 0 earlierInsertion lastInsertion Henters).
Defined.

End OldInsertFacts.

(** * Further properties of the parser *)

Lemma checkInitial_app known pre rest :
  checkInitial known (pre ++ rest)
  = (known' ← checkInitial known pre; checkInitial known' rest).
Proof.
  revert known. induction pre as [|d pre IH]; intros known; simpl; [done|].
  destruct (negb (bool_decide (InitialDocument.title d ∈ known))); simpl; [apply IH | done].
Qed.

(** X1: when the header count holds, an initial document whose title
    repeats that of an earlier initial document is reported by the error that
    names this title, the first such document being the one reported,
    whatever the transitions of the file are: the duplicate check comes before
    the dependency check. *)
Theorem first_repeated_title_reported contents pre d post :
  headerCount contents
  = length (parseEntries contents).2 + length (parseEntries contents).1 →
  (parseEntries contents).1 = pre ++ d :: post →
  NoDup (initialTitles pre) →
  InitialDocument.title d ∈ initialTitles pre →
  parseMarkdownTests contents
  = Throw (AssertionError (duplicateMessage (InitialDocument.title d))).
Proof.
  intros Hcount Hsplit Hpre Hd.
  rewrite parseMarkdownTests_unfold, bool_decide_true by done.
  rewrite assert_true. unfold checkDependencies.
  rewrite Hsplit, checkInitial_app.
  assert (checkInitial ∅ pre = Ok (list_to_set (initialTitles pre) ∪ ∅)) as ->.
  { apply checkInitial_Ok. split_and!; [done | set_solver | done]. }
  simpl. rewrite bool_decide_true by set_solver. done.
Qed.

Lemma first_repeated_title_reported_witness :
  parseMarkdownTests repeatedAfterUnknown
  = Throw (AssertionError (duplicateMessage (js "A"))).
Proof.
  assert (∃ d0 d1, (parseEntries repeatedAfterUnknown).1 = [d0] ++ d1 :: []
                   ∧ InitialDocument.title d0 = js "A"
                   ∧ InitialDocument.title d1 = js "A")
    as (d0 & d1 & Hsplit & H0 & H1).
  { eexists _, _. split_and!; vm_compute; reflexivity. }
  rewrite <-H1.
  apply (first_repeated_title_reported repeatedAfterUnknown [d0] d1 []).
  - vm_compute. reflexivity.
  - exact Hsplit.
  - unfold initialTitles. simpl. apply NoDup_singleton.
  - unfold initialTitles. simpl. rewrite H0, H1. apply list_elem_of_here.
Defined.

(** X2: in an accepted file every transition goes back to an initial
    document through a chain of transitions, each declared before the next
    and each coming after the title of the one before it. *)
Theorem accepted_tests_grounded contents parsed j :
  parseMarkdownTests contents = Ok parsed →
  j < length (tests parsed) →
  grounded (setups parsed) (tests parsed) j.
Proof.
  intros (-> & _ & _ & Horder)%parseMarkdownTests_Ok. simpl.
  set (initial := (parseEntries contents).1) in *.
  set (ts := (parseEntries contents).2) in *. clearbody initial ts.
  induction (lt_wf j) as [j _ IH]. intros Hj.
  destruct (lookup_lt_is_Some_2 ts j Hj) as [tj Htj].
  apply Horder in Htj as Hknown. unfold knownAt in Hknown.
  apply elem_of_app in Hknown as [Hinit|Hbefore].
  - by eapply grounded_initial.
  - unfold testTitles in Hbefore.
    apply list_elem_of_fmap in Hbefore as (ti & Hti & Hin).
    apply list_elem_of_lookup in Hin as (i & Hi).
    apply lookup_take_Some in Hi as [Hi Hlt].
    eapply (grounded_test _ _ i j ti tj); [done..|].
    apply IH; [done|]. by eapply lookup_lt_Some.
Qed.

Lemma accepted_tests_grounded_witness :
  ∃ parsed, parseMarkdownTests repeatedB = Ok parsed
            ∧ grounded (setups parsed) (tests parsed) 2.
Proof.
  destruct (parseMarkdownTests repeatedB) as [parsed|e] eqn:Hparsed.
  - exists parsed. split; [reflexivity|].
    apply (accepted_tests_grounded repeatedB parsed 2 Hparsed).
    revert Hparsed. vm_compute. intros [= <-]. simpl. lia.
  - exfalso. revert Hparsed. vm_compute. discriminate.
Defined.

Lemma hyphenate_spaceFree badTitle : spaceFree (hyphenate badTitle).
Proof.
  unfold spaceFree, hyphenate. apply Forall_fmap, Forall_forall. intros c _. simpl.
  destruct (isSpace c) eqn:Hc; [done | exact Hc].
Qed.

Lemma parseEntries_titles contents x :
  x ∈ initialTitles (parseEntries contents).1 ++ testTitles (parseEntries contents).2 →
  spaceFree x.
Proof.
  rewrite parseEntries_spec. simpl. unfold initialTitles, testTitles.
  intros [H|H]%elem_of_app;
    apply list_elem_of_fmap in H as (y & -> & (mt & _ & Hmt)%list_elem_of_omap).
  - rewrite (asInitial_title _ _ Hmt). apply hyphenate_spaceFree.
  - destruct (asTest_title _ _ Hmt) as [-> _]. apply hyphenate_spaceFree.
Qed.

(** X3: no title holds a whitespace code unit, each being replaced by a
    hyphen; so a file with a transition whose reference holds one is
    rejected, also when the reference is the header text of an entry as it is
    written. *)
Theorem whitespace_reference_rejected contents i t :
  (parseEntries contents).2 !! i = Some t →
  ¬ spaceFree (comesAfter t) →
  (∀ x, x ∈ initialTitles (parseEntries contents).1
            ++ testTitles (parseEntries contents).2 → spaceFree x)
  ∧ ∃ e, parseMarkdownTests contents = Throw e.
Proof.
  intros Ht Hspace. split; [apply parseEntries_titles|].
  destruct (parseMarkdownTests contents) as [parsed|e] eqn:Hparsed; [|by exists e].
  exfalso. apply parseMarkdownTests_Ok in Hparsed as (_ & _ & _ & Horder).
  apply Hspace, (parseEntries_titles contents).
  specialize (Horder i t Ht). unfold knownAt in Horder.
  apply elem_of_app in Horder as [Hinit|Hbefore]; apply elem_of_app; [by left|right].
  unfold testTitles in *.
  apply list_elem_of_fmap in Hbefore as (ti & -> & Hin).
  apply list_elem_of_fmap. exists ti. split; [done|].
  apply elem_of_take in Hin as (k & Hk & _). by eapply list_elem_of_lookup_2.
Qed.

Lemma whitespace_reference_rejected_witness :
  (∀ x, x ∈ initialTitles (parseEntries blankInReference).1
            ++ testTitles (parseEntries blankInReference).2 → spaceFree x)
  ∧ ∃ e, parseMarkdownTests blankInReference = Throw e.
Proof.
  destruct ((parseEntries blankInReference).2 !! 0) as [t|] eqn:Ht.
  - apply (whitespace_reference_rejected blankInReference 0 t Ht).
    revert Ht. vm_compute. intros [= <-] H.
    apply Forall_cons in H as [_ H]. apply Forall_cons in H as [H _]. discriminate H.
  - exfalso. revert Ht. vm_compute. discriminate.
Defined.

(** X4: a file without a line that begins with [# ] is accepted and holds
    no entry. *)
Theorem no_header_no_entry contents :
  headerLines contents = [] →
  parseMarkdownTests contents = Ok (mkParsed [] []).
Proof.
  intros Hnone.
  assert (execAll re contents = []) as Hre.
  { pose proof (execAllFrom_re_sublist contents (S (length contents)) 0 (Nat.le_0_l _))
      as Hsub.
    rewrite Nat.sub_0_r in Hsub. fold (headerLines contents) in Hsub.
    rewrite Hnone in Hsub. apply sublist_nil_r in Hsub.
    by apply fmap_nil_inv in Hsub. }
  apply parseMarkdownTests_Ok. rewrite parseEntries_spec, Hre. simpl.
  split_and!; [done | | apply NoDup_nil_2 | by intros i t].
  by rewrite headerCount_lines, Hnone.
Qed.

Lemma no_header_no_entry_witness :
  parseMarkdownTests (unlines ["#A"; "```"; "a"; "```"; " # B"]) = Ok (mkParsed [] []).
Proof.
  apply (no_header_no_entry (unlines ["#A"; "```"; "a"; "```"; " # B"])).
  vm_compute. reflexivity.
Defined.

(** ** What the patterns capture *)

Lemma rmatch_captures ml r k st e :
  rmatch ml r k st = Some e →
  ∃ st1 w, k st1 = Some e ∧ advance st w st1 ∧ captures r w (caps st) (caps st1).
Proof.
  revert k st. induction r as [s|g min cls|r1 IH1 r2 IH2|r1 IH1 r2 IH2|r IH|n r IH| |];
    intros k st; simpl.
  - intros (p' & l' & Hl & Hk)%matchLit_inv. eexists _, s. split; [exact Hk|].
    split; [by split | done].
  - intros (w & p' & l' & Hl & Hmin & Hall & Hk)%matchRep_inv.
    eexists _, w. split; [exact Hk|]. split; [by split | done].
  - intros (st1 & w1 & (st2 & w2 & Hk & Ha2 & Hc2)%IH2 & Ha1 & Hc1)%IH1.
    exists st2, (w1 ++ w2). split; [done|].
    split; [by eapply advance_trans|]. by exists w1, w2, (caps st1).
  - destruct (rmatch ml r1 k st) eqn:H1.
    + intros [= ->]. apply IH1 in H1 as (st1 & w & ? & ? & ?). exists st1, w.
      split_and!; [done..|by left].
    + intros (st1 & w & ? & ? & ?)%IH2. exists st1, w. split_and!; [done..|by right].
  - destruct (rmatch ml r k st) eqn:H1.
    + intros [= ->]. apply IH in H1 as (st1 & w & ? & ? & ?). exists st1, w.
      split_and!; [done..|by left].
    + intros Hk. exists st, []. split_and!; [done | apply advance_refl | by right].
  - intros (st1 & w & Hk & [Hr Hp] & Hc)%IH.
    rewrite Hr, Hp in Hk.
    replace (pos st + length w - pos st) with (length w) in Hk by lia.
    rewrite take_app_length in Hk.
    eexists _, w. split; [exact Hk|]. split; [by split|]. simpl. by exists (caps st1).
  - destruct (atLineStart ml st); [|done]. intros Hk. exists st, [].
    split; [done|]. split; [apply advance_refl | done].
  - destruct (atLineEnd ml st); [|done]. intros Hk. exists st, [].
    split; [done|]. split; [apply advance_refl | done].
Qed.

Lemma search_captures rx p i l mt :
  search rx p i l = Some mt →
  ∃ w cs, captures (pattern rx) w (replicate (S (groups rx)) None) cs
          ∧ group mt = <[0 := Some w]> cs.
Proof.
  revert p i. induction l as [|c l IH]; intros p i; simpl.
  all: destruct (rmatch _ _ _ _) as [e|] eqn:Hm.
  all: try (intros [= <-]; simpl;
            apply rmatch_captures in Hm as (st1 & w & [= ->] & [Hr Hp] & Hc);
            simpl in Hr, Hp, Hc; exists w, (caps e); split; [exact Hc|];
            rewrite Hr, Hp;
            replace (i + length w - i) with (length w) by lia;
            by rewrite take_app_length).
  - done.
  - apply IH.
Qed.

Lemma execAllFrom_captures rx s fuel from :
  Forall (λ mt, ∃ w cs, captures (pattern rx) w (replicate (S (groups rx)) None) cs
                        ∧ group mt = <[0 := Some w]> cs)
         (execAllFrom fuel rx s from).
Proof.
  revert from. induction fuel as [|fuel IH]; intros from; simpl; [constructor|].
  destruct (exec rx s from) as [mt|] eqn:He; [|constructor].
  constructor; [|apply IH].
  unfold exec in He. case_decide; [|done]. by eapply search_captures.
Qed.

Lemma isDot_oneLine a : a ≠ [] → Forall (λ c, isDot c = true) a → oneLine a.
Proof.
  intros Ha Hall. split; [done|]. eapply Forall_impl; [exact Hall|].
  intros c. unfold isDot. by destruct (isLineTerminator c).
Qed.

Lemma min_nonempty {A} (w : list A) : 1 ≤ length w → w ≠ [].
Proof. by destruct w; simpl; [lia|]. Qed.

Lemma opre_shape w cs :
  captures (pattern opre) w (replicate 4 None) cs →
  (∃ cmd, cs !! 1 = Some (Some cmd) ∧ cmd ≠ [] ∧ Forall (λ c, isCommandChar c = true) cmd
     ∧ cs !! 3 = Some None
     ∧ (cs !! 2 = Some None
        ∨ ∃ a, cs !! 2 = Some (Some a) ∧ oneLine a ∧ a !! 0 = Some 32%N))
  ∨ (∃ flag, cs !! 3 = Some (Some flag) ∧ oneLine flag ∧ cs !! 1 = Some None).
Proof.
  cbn [captures pattern opre plus star plusLazy].
  intros [H|H].
  - left. destruct H as (? & ? & ? & -> & [-> ->] & H).
    destruct H as (? & ? & ? & -> & [-> ->] & H).
    destruct H as (? & ? & ? & -> & [_ ->] & H).
    destruct H as (? & ? & ? & -> & (? & [[Hmin Hall] ->] & ->) & H).
    destruct H as (? & ? & ? & -> & H & [-> ->]).
    eexists. split; [|split; [by apply min_nonempty|split; [exact Hall|]]].
    + destruct H as [(? & H & ->)|[-> ->]]; [|reflexivity].
      destruct H as (? & ? & ? & -> & [_ ->] & [_ ->]). reflexivity.
    + destruct H as [(? & H & ->)|[-> ->]]; [|split; [reflexivity | left; reflexivity]].
      destruct H as (b & d & ? & -> & [[Hb Hblank] ->] & [[Hd Hdot] ->]).
      split; [reflexivity|]. right. eexists. split; [reflexivity|]. split.
      * apply isDot_oneLine; [destruct b; [simpl in Hb; lia | done]|]. apply Forall_app. split; [|done].
        eapply Forall_impl; [exact Hblank|]. intros c Hc. unfold isBlank in Hc.
        apply N.eqb_eq in Hc as ->. done.
      * destruct b as [|c b]; [simpl in Hb; lia|]. simpl.
        apply Forall_cons in Hblank as [Hc%N.eqb_eq _]. by rewrite Hc.
  - right. destruct H as (? & ? & ? & -> & [-> ->] & H).
    destruct H as (? & ? & ? & -> & [-> ->] & H).
    destruct H as (? & ? & ? & -> & [_ ->] & H).
    destruct H as (? & ? & ? & -> & (? & [[Hmin Hall] ->] & ->) & [-> ->]).
    eexists. split; [reflexivity|]. split; [|reflexivity].
    apply isDot_oneLine; [by apply min_nonempty | done].
Qed.

Lemma flagre_shape w cs :
  captures (pattern flagre) w (replicate 2 None) cs →
  ∃ flag, cs !! 1 = Some (Some flag) ∧ oneLine flag.
Proof.
  cbn [captures pattern flagre plus star plusLazy].
  intros H. destruct H as (? & ? & ? & -> & [-> ->] & H).
  destruct H as (? & ? & ? & -> & [-> ->] & H).
  destruct H as (? & ? & ? & -> & [_ ->] & H).
  destruct H as (? & ? & ? & -> & (? & [[Hmin Hall] ->] & ->) & [-> ->]).
  eexists. split; [reflexivity|].
  apply isDot_oneLine; [by apply min_nonempty | done].
Qed.

Lemma re_shape w cs :
  captures (pattern re) w (replicate 5 None) cs →
  ∃ badTitle operationsText after,
    cs !! 1 = Some (Some badTitle) ∧ oneLine badTitle
    ∧ (cs !! 2 = Some None ∨ ∃ comesAfter, cs !! 2 = Some (Some comesAfter) ∧ oneLine comesAfter)
    ∧ cs !! 3 = Some (Some operationsText) ∧ operationsText ≠ []
    ∧ cs !! 4 = Some (Some after) ∧ after ≠ [].
Proof.
  cbn [captures pattern re plus star plusLazy].
  intros H. destruct H as (? & ? & ? & -> & [-> ->] & H).
  destruct H as (? & ? & ? & -> & [-> ->] & H).
  destruct H as (? & ? & ? & -> & (? & [[Hmin1 Hall1] ->] & ->) & H).
  destruct H as (? & ? & ? & -> & [-> ->] & H).
  destruct H as (? & ? & ? & -> & Hopt & H).
  destruct H as (? & ? & ? & -> & (? & [[Hmin3 _] ->] & ->) & H).
  destruct H as (? & ? & ? & -> & [-> ->] & H).
  destruct H as (? & ? & ? & -> & [-> ->] & H).
  destruct H as (? & ? & ? & -> & [-> ->] & H).
  destruct H as (? & ? & ? & -> & (? & [[Hmin4 _] ->] & ->) & H).
  destruct H as (? & ? & ? & -> & [-> ->] & H).
  destruct H as (? & ? & ? & -> & [-> ->] & [-> ->]).
  eexists _, _, _.
  destruct Hopt as [H|[-> ->]].
  - destruct H as (? & ? & ? & -> & [-> ->] & H).
    destruct H as (? & ? & ? & -> & [_ ->] & H).
    destruct H as (? & ? & ? & -> & [-> ->] & H).
    destruct H as (? & ? & ? & -> & (? & [[Hmin2 Hall2] ->] & ->) & H).
    destruct H as (? & ? & ? & -> & [-> ->] & [-> ->]).
    split; [reflexivity|]. split; [apply isDot_oneLine; [by apply min_nonempty | done]|].
    split; [right; eexists; split; [reflexivity|];
            apply isDot_oneLine; [by apply min_nonempty | done]|].
    split; [reflexivity|]. split; [by apply min_nonempty|].
    split; [reflexivity|]. by apply min_nonempty.
  - split; [reflexivity|]. split; [apply isDot_oneLine; [by apply min_nonempty | done]|].
    split; [by left|].
    split; [reflexivity|]. split; [by apply min_nonempty|].
    split; [reflexivity|]. by apply min_nonempty.
Qed.

Lemma grp_group mt w cs n :
  group mt = <[0 := Some w]> cs → grp mt (S n) = mjoin (cs !! S n).
Proof. unfold grp. intros ->. by rewrite list_lookup_insert_ne. Qed.

Lemma hyphenate_nonempty s : s ≠ [] → hyphenate s ≠ [].
Proof. by destruct s. Qed.

Lemma flags_oneLine text :
  Forall oneLine ((λ m, default [] (grp m 1)) <$> execAll flagre text).
Proof.
  apply Forall_fmap. unfold execAll.
  eapply Forall_impl; [apply execAllFrom_captures|].
  intros mt (w & cs & (flag & Hflag & Hline)%flagre_shape & Hgroup). simpl.
  by rewrite (grp_group mt w cs 0 Hgroup), Hflag.
Qed.

Lemma foldl_addOperation text acc :
  Forall wellFormedOperation acc.1 → Forall oneLine acc.2 →
  let r := foldl addOperation acc (execAll opre text) in
  Forall wellFormedOperation r.1 ∧ Forall oneLine r.2.
Proof.
  unfold execAll. generalize (execAllFrom_captures opre text (S (length text)) 0).
  generalize (execAllFrom (S (length text)) opre text 0). intros ms Hms.
  revert acc. induction Hms as [|mt ms Hmt _ IH]; intros acc Hops Hflags; simpl.
  - done.
  - apply IH; unfold addOperation;
      destruct Hmt as (w & cs & Hshape%opre_shape & Hgroup);
      rewrite ?(grp_group mt w cs 0 Hgroup), ?(grp_group mt w cs 1 Hgroup),
        ?(grp_group mt w cs 2 Hgroup);
      destruct Hshape as [(cmd & -> & Hcmd & Hchars & -> & Hargs)|(flag & -> & Hline & _)];
      simpl.
    + apply Forall_app. split; [done|]. apply Forall_singleton.
      split; [done|]. split; [done|]. simpl.
      destruct Hargs as [->|(a & -> & Ha & Hblank)]; simpl; [done|]. by intros ? [= <-].
    + destruct Hline as [Hne _]. destruct flag; done.
    + done.
    + destruct Hline as [Hne ?]. destruct flag; [done|]. simpl.
      apply Forall_app. split; [done|]. by apply Forall_singleton.
Qed.

Lemma entries_captured contents mt :
  mt ∈ execAll re contents →
  ∃ w cs, captures (pattern re) w (replicate 5 None) cs ∧ group mt = <[0 := Some w]> cs.
Proof.
  intros Hin.
  pose proof (execAllFrom_captures re contents (S (length contents)) 0) as Hall.
  rewrite Forall_forall in Hall. by apply Hall.
Qed.

Lemma asInitial_wellFormed mt w cs d :
  captures (pattern re) w (replicate 5 None) cs → group mt = <[0 := Some w]> cs →
  asInitial mt = Some d → wellFormedInitial d.
Proof.
  intros (badTitle & operationsText & after & H1 & Hline & H2 & H3 & _
          & H4 & Hafter)%re_shape Hgroup Hd.
  unfold asInitial, entryTitle in Hd.
  rewrite (grp_group mt w cs 0 Hgroup), (grp_group mt w cs 1 Hgroup),
    (grp_group mt w cs 2 Hgroup), (grp_group mt w cs 3 Hgroup), H1, H3, H4 in Hd.
  simpl in Hd. destruct (mjoin (cs !! 2)); [done|]. injection Hd as <-.
  split_and!; simpl; [apply hyphenate_nonempty, Hline | apply hyphenate_spaceFree
                      | done | apply flags_oneLine].
Qed.

Lemma asTest_wellFormed mt w cs t :
  captures (pattern re) w (replicate 5 None) cs → group mt = <[0 := Some w]> cs →
  asTest mt = Some t → wellFormedTest t.
Proof.
  intros (badTitle & operationsText & after & H1 & Hline & H2 & H3 & _
          & H4 & Hafter)%re_shape Hgroup Ht.
  unfold asTest, entryTitle in Ht.
  rewrite (grp_group mt w cs 0 Hgroup), (grp_group mt w cs 1 Hgroup),
    (grp_group mt w cs 2 Hgroup), (grp_group mt w cs 3 Hgroup), H1, H3, H4 in Ht.
  simpl in Ht. destruct H2 as [H2|(comesAfter & H2 & Hafterline)]; rewrite H2 in Ht;
    simpl in Ht; [done|]. injection Ht as <-.
  destruct (foldl_addOperation operationsText ([], [])) as [Hops Hflags]; [done..|].
  split_and!; simpl; [apply hyphenate_nonempty, Hline | apply hyphenate_spaceFree
                      | done | done | done | done].
Qed.

(** X5: whatever the file, every parsed entry has a title that is not empty
    and holds no whitespace, and a code block that is not empty; its flags
    are texts of one line, not empty; a transition comes after a reference of
    one line, not empty, and each of its operations has a command that is not
    empty and made of word characters, dots and colons, with arguments, if
    any, of one line that start with a blank. *)
Theorem parsed_entries_wellformed contents :
  Forall wellFormedInitial (parseEntries contents).1
  ∧ Forall wellFormedTest (parseEntries contents).2.
Proof.
  rewrite parseEntries_spec. simpl.
  split; apply Forall_forall; intros x (mt & Hin & Hx)%list_elem_of_omap.
  - destruct (entries_captured contents mt Hin) as (w & cs & Hcaptures & Hgroup).
    by eapply asInitial_wellFormed.
  - destruct (entries_captured contents mt Hin) as (w & cs & Hcaptures & Hgroup).
    by eapply asTest_wellFormed.
Qed.

(** ** Parsed operations in the emitted text *)

Lemma isCommandChar_range c : isCommandChar c = true → (46 ≤ c ≤ 122)%N ∧ c ≠ 92%N.
Proof.
  intros Hc. split.
  - revert Hc. unfold isCommandChar, isWord, inRange.
    rewrite !orb_true_iff, !andb_true_iff, !N.leb_le, !N.eqb_eq. lia.
  - intros ->. discriminate Hc.
Qed.

Lemma quoteJSON_plain s :
  Forall (λ c, isCommandChar c = true) s → quoteJSON s = s.
Proof.
  induction 1 as [|c s [Hrange Hbsl]%isCommandChar_range _ IH]; [done|].
  cbn [quoteJSON].
  destruct (N.eqb_spec c 8); [lia|]. destruct (N.eqb_spec c 9); [lia|].
  destruct (N.eqb_spec c 10); [lia|]. destruct (N.eqb_spec c 12); [lia|].
  destruct (N.eqb_spec c 13); [lia|]. destruct (N.eqb_spec c 34); [lia|].
  destruct (N.eqb_spec c 92); [done|]. destruct (N.ltb_spec c 32); [lia|].
  unfold isHighSurrogate, isLowSurrogate, inRange.
  destruct (N.leb_spec 55296 c); [lia|]. destruct (N.leb_spec 56320 c); [lia|].
  simpl. by rewrite IH.
Qed.

Lemma namespaced_chars command :
  Forall (λ c, isCommandChar c = true) command →
  Forall (λ c, isCommandChar c = true) (namespaced command).
Proof.
  intros H. unfold namespaced. case_bool_decide; [|done].
  apply Forall_app. split; [|done]. by repeat constructor.
Qed.

(** X6: the invocation emitted for an operation of a parsed transition
    holds the command as it is written, after [dance] when it starts with a
    dot, between double quotes and without any escape, then the arguments, if
    any, after a comma and a blank. *)
Theorem parsed_invocation_unescaped contents t o :
  t ∈ (parseEntries contents).2 → o ∈ operations t →
  invocation o
  = js "executeCommand(" ++ quoted (namespaced (command o))
    ++ match args o with Some a => js ", " ++ a | None => [] end ++ js ")".
Proof.
  rewrite parseEntries_spec. simpl. intros (mt & Hin & Ht)%list_elem_of_omap Ho.
  destruct (entries_captured contents mt Hin) as (w & cs & Hcaptures & Hgroup).
  destruct (asTest_wellFormed mt w cs t Hcaptures Hgroup Ht) as (_ & _ & _ & _ & Hops & _).
  rewrite Forall_forall in Hops.
  destruct (Hops o Ho) as (_ & Hchars & Hargs).
  unfold invocation, JSON_stringify, quoted.
  rewrite quoteJSON_plain by (by apply namespaced_chars).
  do 3 f_equal. unfold argsString.
  destruct (args o) as [a|]; [|done].
  destruct (Hargs a eq_refl) as [[Hne _] _]. by destruct a.
Qed.

Lemma parsed_invocation_unescaped_witness :
  ∃ t o, t ∈ (parseEntries selectWithArgument).2 ∧ o ∈ operations t
    ∧ invocation o
      = js "executeCommand(" ++ quoted (js "dance.select.line")
        ++ js ",  { count: 2 })".
Proof.
  assert (∃ t o, (parseEntries selectWithArgument).2 = [t] ∧ operations t = [o]
                 ∧ command o = js ".select.line" ∧ args o = Some (js " { count: 2 }"))
    as (t & o & Ht & Ho & Hcommand & Hargs).
  { eexists _, _. split_and!; vm_compute; reflexivity. }
  assert (t ∈ (parseEntries selectWithArgument).2) as Hin
    by (rewrite Ht; apply list_elem_of_here).
  assert (o ∈ operations t) as Hop by (rewrite Ho; apply list_elem_of_here).
  exists t, o. split; [exact Hin|]. split; [exact Hop|].
  rewrite (parsed_invocation_unescaped selectWithArgument t o Hin Hop).
  rewrite Hcommand, Hargs. vm_compute. reflexivity.
Defined.

Lemma rounds_count promises ops :
  length (concat (rounds promises ops)) = length promises + length ops
  ∧ (promises ≠ [] → Forall (λ ps, ps ≠ []) (rounds promises ops))
  ∧ length (rounds promises ops) = S (length (filter (λ o, isTyped o = false) ops)).
Proof.
  revert promises. induction ops as [|o ops IH]; intros promises; simpl.
  - rewrite app_nil_r. split_and!; [lia | by constructor | done].
  - rewrite filter_cons. destruct (isTyped o) eqn:Ho.
    + destruct (IH (promises ++ [typedPromise o (length promises * 20)])) as (H1 & H2 & H3).
      rewrite length_app in H1. simpl in H1.
      rewrite decide_False by done.
      split_and!; [lia | | done]. intros _. apply H2. by destruct promises.
    + destruct (IH [invocation o]) as (H1 & H2 & H3).
      rewrite decide_True by done. simpl. rewrite length_app, H1, H3. simpl.
      split_and!; [lia | | done]. intros Hne. constructor; [done|]. by apply H2.
Qed.

(** X7: every operation gives exactly one promise, in a step that is never
    empty, and the steps are one more than the operations after the first
    that are not [type:] operations. *)
Theorem one_promise_per_operation o ops :
  length (concat (operationRounds (o :: ops))) = S (length ops)
  ∧ Forall (λ promises, promises ≠ []) (operationRounds (o :: ops))
  ∧ length (operationRounds (o :: ops))
    = S (length (filter (λ o', isTyped o' = false) ops)).
Proof.
  simpl. destruct (rounds_count [invocation o] ops) as (H1 & H2 & H3).
  split_and!; [exact H1 | by apply H2 | exact H3].
Qed.

(** * The files [build] reads and writes *)

Lemma endsWith_inv p s : endsWith p s = true → ∃ x, s = x ++ p.
Proof.
  unfold endsWith. intros (l & Hl)%startsWith_inv. exists (reverse l).
  apply (inj reverse). by rewrite reverse_app, reverse_involutive.
Qed.

Lemma testFileName_source file :
  isSource file →
  ∃ x, file = x ++ js ".md" ∧ testFileName file = x ++ js ".test.ts".
Proof.
  intros Hmd. unfold testFileName. rewrite Hmd.
  apply endsWith_inv in Hmd as (x & ->). exists x. split; [done|].
  rewrite length_app. replace (length x + length (js ".md") - 3) with (length x)
    by (change (length (js ".md")) with 3; lia).
  by rewrite take_app_length.
Qed.

Lemma testFileName_not_source file : isSource file → ¬ isSource (testFileName file).
Proof.
  intros (x & _ & ->)%testFileName_source. unfold isSource, endsWith.
  rewrite reverse_app. done.
Qed.

Lemma testFileName_inj f g :
  isSource f → isSource g → testFileName f = testFileName g → f = g.
Proof.
  intros (x & -> & ->)%testFileName_source (y & -> & ->)%testFileName_source.
  by intros ->%(inj (.++ _)).
Qed.

Lemma readFile_writeFile dir name data other :
  readFile (writeFile dir name data) other
  = if decide (name = other) then Some data else readFile dir other.
Proof.
  induction dir as [|[n old] dir IH]; simpl.
  - by destruct (decide (name = other)).
  - destruct (decide (n = name)) as [->|Hn]; simpl.
    + by destruct (decide (name = other)).
    + destruct (decide (n = other)) as [->|]; [by rewrite decide_False|done].
Qed.

Lemma readFile_readdir dir name : name ∈ readdir dir → is_Some (readFile dir name).
Proof.
  unfold readdir. induction dir as [|[n data] dir IH]; simpl.
  - by intros ?%elem_of_nil.
  - destruct (decide (n = name)); [done|]. intros [?|?]%elem_of_cons; [done|by apply IH].
Qed.

Section files.
Variable stringifyExpectedDocument : jsstring → nat → nat → jsstring.
Variable unindent : nat → jsstring → jsstring.
Variable longestStringLength : (Test → jsstring) → list Test → nat.

Local Notation generate :=
  (generate stringifyExpectedDocument unindent longestStringLength).
Local Notation buildFiles :=
  (buildFiles stringifyExpectedDocument unindent longestStringLength).
Local Notation build := (build stringifyExpectedDocument unindent longestStringLength).
Local Notation written :=
  (written stringifyExpectedDocument unindent longestStringLength).

Lemma buildFiles_spec fileNames dir dir' err :
  Forall isSource fileNames →
  (∀ f, f ∈ fileNames → is_Some (readFile dir f)) →
  buildFiles dir fileNames = (dir', err) →
  ∃ pre rest,
    fileNames = pre ++ rest
    ∧ (∀ f, f ∈ pre → written dir dir' f)
    ∧ (∀ name, name ∉ testFileName <$> pre → readFile dir' name = readFile dir name)
    ∧ match err with
      | None => rest = []
      | Some e =>
          ∃ f rest' contents, rest = f :: rest' ∧ readFile dir f = Some contents
                              ∧ generate f contents = Throw e
      end.
Proof.
  intros Hmd. revert dir. induction Hmd as [|file fileNames Hfile Hmd IH]; intros dir Hread; simpl.
  - intros [= <- <-]. exists [], []. split_and!; [done | by intros ? ?%elem_of_nil | done..].
  - destruct (Hread file) as [contents Hcontents]; [by left|]. rewrite Hcontents.
    destruct (generate file contents) as [text|e] eqn:Hgen.
    + intros Hrest.
      assert (∀ f, isSource f →
                readFile (writeFile dir (testFileName file) text) f = readFile dir f)
        as Hkept.
      { intros f Hf. rewrite readFile_writeFile, decide_False; [done|].
        intros <-. by apply (testFileName_not_source file). }
      apply IH in Hrest as (pre & rest & -> & Hpre & Hframe & Herr).
      * exists (file :: pre), rest. split; [done|]. split_and!.
        -- intros f [->|Hf]%elem_of_cons.
           ++ exists contents, text. split_and!; [done..|].
              destruct (decide (testFileName file ∈ testFileName <$> pre)) as [Hin|Hout].
              ** apply list_elem_of_fmap in Hin as (g & Heq & Hg).
                 assert (isSource g) as Hgmd.
                 { rewrite Forall_forall in Hmd. apply Hmd, elem_of_app. by left. }
                 apply testFileName_inj in Heq as ->; [|done..].
                 destruct (Hpre g Hg) as (contents' & text' & Hc' & Hg' & Hw').
                 rewrite Hkept in Hc' by done. congruence.
              ** rewrite (Hframe _ Hout), readFile_writeFile. by rewrite decide_True.
           ++ destruct (Hpre f Hf) as (contents' & text' & Hc' & Hg' & Hw').
              exists contents', text'. split_and!; [|done..].
              rewrite <-Hc'. symmetry. apply Hkept.
              rewrite Forall_forall in Hmd. apply Hmd, elem_of_app. by left.
        -- intros name Hname. rewrite fmap_cons, not_elem_of_cons in Hname.
           destruct Hname as [Hne Hname].
           rewrite (Hframe _ Hname), readFile_writeFile. by rewrite decide_False.
        -- destruct err as [e|]; [|done].
           destruct Herr as (f & rest' & contents' & -> & Hc' & Hg').
           exists f, rest', contents'. split_and!; [done| |done].
           rewrite <-Hc'. symmetry. apply Hkept.
           rewrite Forall_forall in Hmd. apply Hmd, elem_of_app. right. by left.
      * intros f Hf. rewrite Hkept; [apply Hread; by right|].
        rewrite Forall_forall in Hmd. by apply Hmd.
    + intros [= <- <-]. exists [], (file :: fileNames).
      split_and!; [done | by intros ? ?%elem_of_nil | done |].
      by exists file, fileNames, contents.
Qed.

Lemma build_spec dir dir' err :
  build dir = (dir', err) →
  ∃ pre rest,
    filter isSource (readdir dir) = pre ++ rest
    ∧ (∀ f, f ∈ pre → written dir dir' f)
    ∧ (∀ name, name ∉ testFileName <$> pre → readFile dir' name = readFile dir name)
    ∧ match err with
      | None => rest = []
      | Some e =>
          ∃ f rest' contents, rest = f :: rest' ∧ readFile dir f = Some contents
                              ∧ generate f contents = Throw e
      end.
Proof.
  apply buildFiles_spec.
  - apply Forall_forall. by intros f [Hf _]%list_elem_of_filter.
  - intros f [_ Hf]%list_elem_of_filter. by apply readFile_readdir.
Qed.

(** X8: [build] leaves every file as it is, but for the test files of the
    sources of the directory: a source is never written, nor is a file whose
    name is not that of a source with [.test.ts] in the place of [.md]. *)
Theorem build_keeps_other_files dir name :
  isSource name
  ∨ (∀ file, file ∈ readdir dir → isSource file → name ≠ testFileName file) →
  readFile (build dir).1 name = readFile dir name.
Proof.
  intros Hname. destruct (build dir) as [dir' err] eqn:Hbuild. simpl.
  apply build_spec in Hbuild as (pre & rest & Hsplit & _ & Hframe & _).
  apply Hframe. intros (f & -> & Hf)%list_elem_of_fmap.
  assert (f ∈ filter isSource (readdir dir)) as [Hmd Hin]%list_elem_of_filter.
  { rewrite Hsplit. apply elem_of_app. by left. }
  destruct Hname as [Hsource|Hother].
  - by apply (testFileName_not_source f).
  - by apply (Hother f).
Qed.

(** X9: when [build] ends without an error, the test file of every source
    of the directory holds the text generated from that source. *)
Theorem build_writes_every_test dir dir' file :
  build dir = (dir', None) →
  file ∈ readdir dir → isSource file →
  written dir dir' file.
Proof.
  intros (pre & rest & Hsplit & Hpre & _ & ->)%build_spec Hin Hmd.
  apply Hpre. rewrite app_nil_r in Hsplit. rewrite <-Hsplit.
  by apply list_elem_of_filter.
Qed.

(** X10: when [build] ends with an error, the error is the one the
    generation of a source gave; the test files of the sources listed before
    it are written, and no other file of the directory is changed: the
    sources listed after it are not generated. *)
Theorem build_stops_at_first_error dir dir' e :
  build dir = (dir', Some e) →
  ∃ pre file rest contents,
    filter isSource (readdir dir) = pre ++ file :: rest
    ∧ (∀ f, f ∈ pre → written dir dir' f)
    ∧ readFile dir file = Some contents
    ∧ generate file contents = Throw e
    ∧ ∀ name, name ∉ testFileName <$> pre → readFile dir' name = readFile dir name.
Proof.
  intros (pre & rest & Hsplit & Hpre & Hframe & Herr)%build_spec.
  destruct Herr as (file & rest' & contents & -> & Hread & Hgen).
  by exists pre, file, rest', contents.
Qed.
End files.

Lemma build_keeps_other_files_witness :
  readFile (build (λ code _ _, code) (λ _ text, text) (λ _ _, 0) helloDirectory).1
    (js "README")
  = Some (js "notes").
Proof.
  transitivity (readFile helloDirectory (js "README")); [|reflexivity].
  apply (build_keeps_other_files (λ code _ _, code) (λ _ text, text) (λ _ _, 0)
           helloDirectory (js "README")).
  right. intros file Hfile Hmd Hname.
  assert (isSource (js "hello.md")) as Hhello by reflexivity.
  unfold helloDirectory, readdir in Hfile. simpl in Hfile.
  apply elem_of_cons in Hfile as [->|Hfile]; [discriminate Hname|].
  apply elem_of_cons in Hfile as [->|Hfile]; [discriminate Hmd|].
  apply elem_of_cons in Hfile as [->|Hfile]; [discriminate Hmd|].
  by apply elem_of_nil in Hfile.
Defined.

Lemma build_writes_every_test_witness :
  written (λ code _ _, code) (λ _ text, text) (λ _ _, 0) helloDirectory
    (build (λ code _ _, code) (λ _ text, text) (λ _ _, 0) helloDirectory).1
    (js "hello.md").
Proof.
  apply (build_writes_every_test (λ code _ _, code) (λ _ text, text) (λ _ _, 0)
           helloDirectory
           (build (λ code _ _, code) (λ _ text, text) (λ _ _, 0) helloDirectory).1
           (js "hello.md")).
  - vm_compute. reflexivity.
  - apply list_elem_of_here.
  - reflexivity.
Defined.

Lemma build_stops_at_first_error_witness :
  ∃ pre file rest contents,
    filter isSource (readdir brokenDirectory) = pre ++ file :: rest
    ∧ (∀ f, f ∈ pre →
         written (λ code _ _, code) (λ _ text, text) (λ _ _, 0) brokenDirectory
           (build (λ code _ _, code) (λ _ text, text) (λ _ _, 0) brokenDirectory).1 f)
    ∧ readFile brokenDirectory file = Some contents
    ∧ generate (λ code _ _, code) (λ _ text, text) (λ _ _, 0) file contents
      = Throw (AssertionError (js "not all tests were parsed"))
    ∧ ∀ name, name ∉ testFileName <$> pre →
        readFile (build (λ code _ _, code) (λ _ text, text) (λ _ _, 0) brokenDirectory).1
          name
        = readFile brokenDirectory name.
Proof.
  apply (build_stops_at_first_error (λ code _ _, code) (λ _ text, text) (λ _ _, 0)
           brokenDirectory).
  vm_compute. reflexivity.
Defined.

(** * The files that are generated *)

Lemma stringifyOperations_accepts t :
  (∃ text, stringifyOperations t = Ok text) ↔ Forall recognized (flags t).
Proof.
  unfold stringifyOperations. split.
  - intros [text Htext]. destruct (stringifyFlags [] (flags t)) as [config|e] eqn:Hflags;
      [|done]. by eapply stringifyFlags_Ok.
  - intros (steps & _ & ->)%(stringifyFlags_recognized []). simpl. by eexists.
Qed.

Lemma stringifyOperations_unrecognized t pre flag post :
  flags t = pre ++ flag :: post → Forall recognized pre → ¬ recognized flag →
  stringifyOperations t = Throw (unrecognized flag).
Proof.
  intros Hflags Hpre Hflag. unfold stringifyOperations.
  by rewrite Hflags, (stringifyFlags_unrecognized [] pre flag post).
Qed.

Section generated.
Variable stringifyExpectedDocument : jsstring → nat → nat → jsstring.
Variable unindent : nat → jsstring → jsstring.
Variable longestStringLength : (Test → jsstring) → list Test → nat.

Local Notation generateFile :=
  (generate stringifyExpectedDocument unindent longestStringLength).
Local Notation blockOf := (testBlock stringifyExpectedDocument unindent).
Local Notation blocksOf := (testBlocks stringifyExpectedDocument unindent).

Lemma testBlock_accepts cp tp t :
  (∃ block, blockOf cp tp t = Ok block) ↔ Forall recognized (flags t).
Proof.
  rewrite <-stringifyOperations_accepts. unfold testBlock.
  destruct (stringifyOperations t) as [text|e]; simpl; split; intros [? ?]; by eexists.
Qed.

Lemma testBlocks_accepts cp tp tests :
  (∃ blocks, blocksOf cp tp tests = Ok blocks)
  ↔ Forall (λ t, Forall recognized (flags t)) tests.
Proof.
  induction tests as [|t tests IH]; simpl.
  - split; [constructor | by eexists].
  - rewrite Forall_cons, <-IH, <-(testBlock_accepts cp tp t).
    destruct (blockOf cp tp t) as [block|e]; simpl.
    + destruct (blocksOf cp tp tests) as [blocks|e]; simpl.
      * split; [intros _; split; by eexists | by eexists].
      * split; [by intros [? ?] | by intros [_ [? ?]]].
    + split; [by intros [? ?] | by intros [[? ?] _]].
Qed.

Lemma testBlocks_unrecognized cp tp before t after pre flag post :
  Forall (λ t', Forall recognized (flags t')) before →
  flags t = pre ++ flag :: post → Forall recognized pre → ¬ recognized flag →
  blocksOf cp tp (before ++ t :: after) = Throw (unrecognized flag).
Proof.
  intros Hbefore Hflags Hpre Hflag.
  induction Hbefore as [|t' before Ht' _ IH]; simpl.
  - unfold testBlock.
    by rewrite (stringifyOperations_unrecognized t pre flag post).
  - apply (testBlock_accepts cp tp) in Ht' as [block ->]. simpl. by rewrite IH.
Qed.

(** X17: a file is generated exactly when the parser accepts it and every
    flag of every transition is in the grammar; the flags of the initial
    documents are not looked at. *)
Theorem generate_accepts file contents :
  (∃ text, generateFile file contents = Ok text) ↔
  ∃ parsed, parseMarkdownTests contents = Ok parsed
            ∧ Forall (λ t, Forall recognized (flags t)) (tests parsed).
Proof.
  unfold generate. destruct (parseMarkdownTests contents) as [parsed|e]; simpl.
  - split.
    + intros [text Htext]. exists parsed. split; [done|].
      apply (testBlocks_accepts (longestStringLength comesAfter (tests parsed))
               (longestStringLength title (tests parsed))).
      destruct (blocksOf _ _ _) as [blocks|e]; [by eexists | done].
    + intros (? & [= <-] & H).
      apply (testBlocks_accepts (longestStringLength comesAfter (tests parsed))
               (longestStringLength title (tests parsed))) in H as [blocks ->].
      simpl. by eexists.
  - split; [by intros [? ?] | by intros (? & ? & _)].
Qed.

(** X18: in an accepted file, the first flag outside the grammar, in the
    first transition that has one, is the one the error of the generation
    names. *)
Theorem first_unrecognized_flag_reported file contents parsed before t after pre flag post :
  parseMarkdownTests contents = Ok parsed →
  tests parsed = before ++ t :: after →
  Forall (λ t', Forall recognized (flags t')) before →
  flags t = pre ++ flag :: post → Forall recognized pre → ¬ recognized flag →
  generateFile file contents = Throw (unrecognized flag).
Proof.
  intros Hparsed Htests Hbefore Hflags Hpre Hflag. unfold generate.
  rewrite Hparsed. simpl.
  by rewrite Htests, (testBlocks_unrecognized _ _ before t after pre flag post).
Qed.
End generated.

Lemma first_unrecognized_flag_reported_witness :
  (∃ parsed, parseMarkdownTests misspelledFlagFile = Ok parsed
             ∧ InitialDocument.flags <$> setups parsed = [[js "anything goes"]])
  ∧ generate (λ code _ _, code) (λ _ text, text) (λ _ _, 0) (js "flags.md")
      misspelledFlagFile
    = Throw (unrecognized (js "normal.behavior <- care")).
Proof.
  destruct (parseMarkdownTests misspelledFlagFile) as [parsed|e] eqn:Hparsed.
  - assert (∃ t, tests parsed = [] ++ t :: []
                 ∧ flags t = [js "normal.behavior <- caret"]
                             ++ js "normal.behavior <- care" :: []
                 ∧ InitialDocument.flags <$> setups parsed = [[js "anything goes"]])
      as (t & Htests & Hflags & Hinitial).
    { revert Hparsed. vm_compute. intros [= <-]. eexists. split_and!; reflexivity. }
    split; [exists parsed; split; [reflexivity | exact Hinitial]|].
    apply (first_unrecognized_flag_reported (λ code _ _, code) (λ _ text, text)
             (λ _ _, 0) (js "flags.md") misspelledFlagFile parsed [] t []
             [js "normal.behavior <- caret"] (js "normal.behavior <- care") []
             Hparsed Htests).
    + constructor.
    + exact Hflags.
    + repeat constructor. apply recognized_caret.
    + intros [mt Hmt]%recognized_exec. vm_compute in Hmt. discriminate Hmt.
  - exfalso. revert Hparsed. vm_compute. discriminate.
Defined.

(** * The names the suite reads *)

Lemma escaped_title_same_name : propertyName (bsl ++ js "x42") = propertyName (js "B").
Proof. reflexivity. Qed.

Section names.
Context {ExpectedDocument failure : Type}.
Variable expected : jsstring → ExpectedDocument.
Variable attempt : nat → option failure.

Lemma foldl_seed_names (σ : @suiteState ExpectedDocument) setups :
  length (heap (foldl (seed expected) σ setups)) = length (heap σ) + length setups
  ∧ notifyDependents (foldl (seed expected) σ setups) = notifyDependents σ
  ∧ (∀ x, x ∈ initialNames setups ∨ is_Some (documents σ !! x) →
       is_Some (documents (foldl (seed expected) σ setups) !! x))
  ∧ ((∀ x a, documents σ !! x = Some a → a < length (heap σ)) →
     ∀ x a, documents (foldl (seed expected) σ setups) !! x = Some a →
       a < length (heap σ) + length setups).
Proof.
  revert σ. induction setups as [|d setups IH]; intros σ; simpl.
  - split_and!; [lia | done | | ].
    + by intros x [?%elem_of_nil|?].
    + intros Hσ x a Hx. specialize (Hσ x a Hx). lia.
  - destruct (IH (seed expected σ d)) as (Hlen & Hnotify & Hdocs & Hbound).
    simpl in Hlen. rewrite length_app in Hlen. simpl in Hlen.
    split_and!; [lia | done | |].
    + intros x Hx. apply Hdocs. simpl.
      destruct (decide (x = propertyName (InitialDocument.title d))) as [->|Hne].
      * right. by rewrite lookup_insert_eq.
      * rewrite lookup_insert_ne by done.
        destruct Hx as [[?|?]%elem_of_cons|?]; [done | by left | by right].
    + intros Hσ x a Hx. assert (a < length (heap (seed expected σ d)) + length setups).
      { apply (Hbound) with x; [|done]. simpl. intros y b.
        destruct (decide (propertyName (InitialDocument.title d) = y)) as [<-|Hne].
        - rewrite lookup_insert_eq. intros [= <-]. rewrite length_app. simpl. lia.
        - rewrite lookup_insert_ne by done. intros Hy%Hσ. rewrite length_app. simpl. lia. }
      simpl in *. rewrite length_app in *. simpl in *. lia.
Qed.

Lemma foldl_placeholder_names (σ : @suiteState ExpectedDocument) tests :
  length (heap (foldl placeholder σ tests)) = length (heap σ) + length tests
  ∧ (∀ x, x ∈ testNames tests ∨ is_Some (documents σ !! x) →
       is_Some (documents (foldl placeholder σ tests) !! x))
  ∧ (∀ x, x ∈ testNames tests ∨ is_Some (notifyDependents σ !! x) →
       is_Some (notifyDependents (foldl placeholder σ tests) !! x))
  ∧ ((∀ x a, documents σ !! x = Some a → a < length (heap σ)) →
     ∀ x a, documents (foldl placeholder σ tests) !! x = Some a →
       a < length (heap σ) + length tests).
Proof.
  revert σ. induction tests as [|t tests IH]; intros σ; simpl.
  - split_and!; [lia | | |].
    + by intros x [?%elem_of_nil|?].
    + by intros x [?%elem_of_nil|?].
    + intros Hσ x a Hx. specialize (Hσ x a Hx). lia.
  - destruct (IH (placeholder σ t)) as (Hlen & Hdocs & Hnotify & Hbound).
    simpl in Hlen. rewrite length_app in Hlen. simpl in Hlen.
    split_and!; [lia | | |].
    + intros x Hx. apply Hdocs. simpl.
      destruct (decide (x = propertyName (title t))) as [->|Hne].
      * right. by rewrite lookup_insert_eq.
      * rewrite lookup_insert_ne by done.
        destruct Hx as [[?|?]%elem_of_cons|?]; [done | by left | by right].
    + intros x Hx. apply Hnotify. simpl.
      destruct (decide (x = propertyName (title t))) as [->|Hne].
      * right. by rewrite lookup_insert_eq.
      * rewrite lookup_insert_ne by done.
        destruct Hx as [[?|?]%elem_of_cons|?]; [done | by left | by right].
    + intros Hσ x a Hx. assert (a < length (heap (placeholder σ t)) + length tests).
      { apply (Hbound) with x; [|done]. simpl. intros y b.
        destruct (decide (propertyName (title t) = y)) as [<-|Hne].
        - rewrite lookup_insert_eq. intros [= <-]. rewrite length_app. simpl. lia.
        - rewrite lookup_insert_ne by done. intros Hy%Hσ. rewrite length_app. simpl. lia. }
      simpl in *. rewrite length_app in *. simpl in *. lia.
Qed.

Lemma initialSuite_tabled setups tests :
  inOrder setups tests → tabled tests (initialSuite expected setups tests).
Proof.
  intros Hordered. unfold initialSuite.
  destruct (foldl_seed_names (mkSuite [] ∅ ∅) setups)
    as (Hlen0 & Hnotify0 & Hdocs0 & Hbound0).
  destruct (foldl_placeholder_names (foldl (seed expected) (mkSuite [] ∅ ∅) setups) tests)
    as (Hlen & Hdocs & Hnotify & Hbound).
  split.
  - intros t [j Hj]%list_elem_of_lookup. split.
    + apply Hdocs. specialize (Hordered j t Hj). unfold knownAt in Hordered.
      apply elem_of_app in Hordered as [Hin|Hin].
      * right. apply Hdocs0. left. unfold initialNames, initialTitles in *.
        apply list_elem_of_fmap in Hin as (d & -> & Hd).
        apply list_elem_of_fmap. by exists d.
      * left. unfold testNames, testTitles in *.
        apply list_elem_of_fmap in Hin as (ti & -> & Hti).
        apply elem_of_take in Hti as (i & Hi & _).
        apply list_elem_of_fmap. exists ti. split; [done|]. by eapply list_elem_of_lookup_2.
    + apply Hnotify. left. unfold testNames. apply list_elem_of_fmap. exists t.
      split; [done|]. by eapply list_elem_of_lookup_2.
  - intros x a Hx. rewrite Hlen. apply (Hbound) with x; [|done].
    intros y b Hy. rewrite Hlen0. apply (Hbound0) with y; [|done].
    simpl. intros z c. by rewrite lookup_empty.
Qed.

Lemma resolve_names (σ : @suiteState ExpectedDocument) address v :
  documents (resolve σ address v) = documents σ
  ∧ notifyDependents (resolve σ address v) = notifyDependents σ
  ∧ length (heap (resolve σ address v)) = length (heap σ).
Proof.
  unfold resolve. repeat case_match; simpl; rewrite ?length_insert; done.
Qed.

Lemma runTest_tabled tests (σ : @suiteState ExpectedDocument) i t :
  tabled tests σ → t ∈ tests →
  (runTest expected attempt σ i t).2 ≠ Crashed
  ∧ tabled tests (runTest expected attempt σ i t).1.
Proof.
  intros [Hnames Hbound] Ht.
  destruct (Hnames t Ht) as [[address Haddress] [own Hown]].
  pose proof (Hbound _ _ Haddress) as [p Hp]%lookup_lt_is_Some.
  unfold runTest, notify. rewrite Haddress, Hp, Hown.
  destruct p as [|[v|]]; [done| |]; try destruct (attempt i); simpl.
  all: destruct (resolve_names σ own (Some (expected (code t)))) as (Hd1 & Hn1 & Hl1).
  all: destruct (resolve_names σ own None) as (Hd2 & Hn2 & Hl2).
  all: split; [done|]; unfold tabled.
  all: rewrite ?Hd1, ?Hn1, ?Hl1, ?Hd2, ?Hn2, ?Hl2; done.
Qed.

Lemma runTests_tabled tests (σ : @suiteState ExpectedDocument) i rest :
  tabled tests σ → rest ⊆ tests → Crashed ∉ runTests expected attempt σ i rest.
Proof.
  revert σ i. induction rest as [|t rest IH]; intros σ i Hσ Hrest; simpl.
  - by intros ?%elem_of_nil.
  - destruct (runTest_tabled tests σ i t Hσ) as [Hne Hσ']; [set_solver|].
    specialize (IH _ (S i) Hσ').
    destruct (runTest expected attempt σ i t).2 eqn:Ho; simpl in *.
    + intros [?|?]%elem_of_cons; [done|]. apply IH; [set_solver | done].
    + intros [?|?]%elem_of_cons; [done|]. apply IH; [set_solver | done].
    + intros [?|?]%elem_of_cons; [done|]. apply IH; [set_solver | done].
    + intros [?|?%elem_of_nil]%elem_of_cons; done.
    + done.
Qed.

(** X19: in the suite of an accepted file, titles repeated or not, every
    name a test reads is a property of the table it reads it in: the promise
    it awaits under its reference is one the literal of [documents] made, and
    the resolver it calls under its title is one the literal stored, for as
    long as the run is followed. *)
Theorem names_always_found contents parsed :
  parseMarkdownTests contents = Ok parsed →
  Crashed ∉ runSuite expected attempt parsed.
Proof.
  intros (-> & _ & _ & Hordered)%parseMarkdownTests_Ok.
  unfold runSuite. destruct (loads _); [|by intros ?%elem_of_nil]. simpl.
  apply (runTests_tabled (parseEntries contents).2); [|done].
  by apply initialSuite_tabled.
Qed.
End names.

Lemma names_always_found_witness :
  ∃ parsed, parseMarkdownTests repeatedTitles = Ok parsed
            ∧ (Crashed ∉ runSuite (λ code, code) (λ _ : nat, @None unit) parsed).
Proof.
  destruct (parseMarkdownTests repeatedTitles) as [parsed|e] eqn:Hparsed.
  - exists parsed. split; [reflexivity|].
    exact (names_always_found (λ code, code) (λ _ : nat, @None unit)
             repeatedTitles parsed Hparsed).
  - exfalso. revert Hparsed. vm_compute. discriminate.
Defined.
